(** * SmoothGrad interpreters (interpretdl/interpreter/smooth_grad.py)

    A shallow embedding of [SmoothGradInterpreter.interpret] and
    [SmoothGradNLPInterpreter.interpret].

    - NumPy [float32] / [float64] scalars are IEEE-754 values
      ([spec_float] with precision 24 / 53, round to nearest even).
    - An [ndarray] is a shape and its elements in row-major order.
    - Python exceptions are values of [exn]; a statement sequence is a
      computation in a state-and-exception monad over a [World] that
      holds the object store of the arrays the method creates, the
      position of NumPy's global generator, the state of the model
      behind [predict_fn], the [self.*] attributes and the trace of the
      calls made to external collaborators. *)

From Stdlib Require Import ZArith String.
From Stdlib Require Import Floats.SpecFloat.
From stdpp Require Import base list.

Local Open Scope Z_scope.
Local Open Scope nat_scope.

(** ** IEEE-754 scalars *)

Definition float := spec_float.

Definition is_nan (x : float) : bool :=
  match x with S754_nan => true | _ => false end.

Definition is_finite (x : float) : bool :=
  match x with S754_finite _ _ _ | S754_zero _ => true | _ => false end.

(** [np.signbit] on a value that is not a NaN. *)
Definition signbit (x : float) : bool :=
  match x with
  | S754_zero s | S754_infinity s | S754_finite s _ _ => s
  | S754_nan => false
  end.

Definition pos_zero : float := S754_zero false.

Module Float32.
Definition prec : Z := 24.
Definition emax : Z := 128.
Definition add : float -> float -> float := SFadd prec emax.
Definition sub : float -> float -> float := SFsub prec emax.
Definition mul : float -> float -> float := SFmul prec emax.
Definition div : float -> float -> float := SFdiv prec emax.
Definition abs : float -> float := SFabs.
(** Conversion of a Python [int] operand to [float32]. *)
Definition of_int (n : Z) : float := binary_normalize prec emax n 0 false.
(** [np.float32(x)] on a [float64] value: rounding to nearest even. *)
Definition of_float64 (x : float) : float :=
  match x with
  | S754_finite s m e => binary_round prec emax s m e
  | _ => x
  end.
(** [np.maximum] / [np.minimum] as used by a reduction: the accumulator
    is kept when it compares [>=] ([<=]) or is a NaN, which makes both
    reductions propagate NaN. *)
Definition maximum (acc x : float) : float :=
  if SFleb x acc || is_nan acc then acc else x.
Definition minimum (acc x : float) : float :=
  if SFleb acc x || is_nan acc then acc else x.
End Float32.

Module Float64.
Definition prec : Z := 53.
Definition emax : Z := 1024.
Definition add : float -> float -> float := SFadd prec emax.
Definition mul : float -> float -> float := SFmul prec emax.
(** Widening of a [float32] value; exact. *)
Definition of_float32 (x : float) : float :=
  match x with
  | S754_finite s m e => binary_round prec emax s m e
  | _ => x
  end.
End Float64.

(** ** Exceptions and the state-and-exception monad *)

Inductive exn : Type :=
  | TypeError
  | ValueError
  | IndexError
  | AxisError
  | AssertionError
  | Raised (msg : string).

Definition result (A : Type) : Type := (exn + A)%type.

Definition M (W A : Type) : Type := W -> result A * W.

Definition ret {W A} (a : A) : M W A := fun w => (inr a, w).

Definition raise {W A} (e : exn) : M W A := fun w => (inl e, w).

Definition bind {W A B} (m : M W A) (k : A -> M W B) : M W B :=
  fun w =>
    match m w with
    | (inr a, w') => k a w'
    | (inl e, w') => (inl e, w')
    end.

Definition lift {W A} (r : result A) : M W A :=
  match r with inl e => raise e | inr a => ret a end.

Definition gets {W A} (f : W -> A) : M W A := fun w => (inr (f w), w).

Definition modify {W} (f : W -> W) : M W unit := fun w => (inr tt, f w).

Declare Scope py_scope.
Delimit Scope py_scope with py.
Notation "'let*' x := m 'in' k" := (bind m (fun x => k))
  (at level 10, x name, m at level 100, k at level 200) : py_scope.
Notation "'let*' ' p := m 'in' k" := (bind m (fun x => match x with p => k end))
  (at level 10, p pattern, m at level 100, k at level 200) : py_scope.
Notation "m ;; k" := (bind m (fun _ => k))
  (at level 100, right associativity) : py_scope.
Local Open Scope py_scope.

(** [for i in range(lo, lo + n): body i]. *)
Fixpoint for_range {W} (lo n : nat) (body : nat -> M W unit) : M W unit :=
  match n with
  | O => ret tt
  | S n' => body lo ;; for_range (S lo) n' body
  end.

(** [for i, x in enumerate(l, lo)], collecting the values of [f i x]. *)
Fixpoint for_each {W A B} (lo : nat) (l : list A) (f : nat -> A -> M W B)
  : M W (list B) :=
  match l with
  | [] => ret []
  | x :: l' =>
      let* y := f lo x in
      let* ys := for_each (S lo) l' f in
      ret (y :: ys)
  end.

(** ** N-dimensional arrays *)

Record ndarray (A : Type) : Type := NdArray {
  shape : list nat;
  elems : list A
}.
Arguments NdArray {A} _ _.
Arguments shape {A} _.
Arguments elems {A} _.

Definition size_of (sh : list nat) : nat := foldr Nat.mul 1 sh.

Definition well_shaped {A} (a : ndarray A) : Prop :=
  length (elems a) = size_of (shape a).

Definition ndim {A} (a : ndarray A) : nat := length (shape a).

(** [len(a)]: a 0-d array is unsized. *)
Definition len {A} (a : ndarray A) : result nat :=
  match shape a with
  | [] => inl TypeError
  | n :: _ => inr n
  end.

(** [n] consecutive blocks of [k] elements. *)
Fixpoint chunks {A} (k n : nat) (l : list A) : list (list A) :=
  match n with
  | O => []
  | S n' => take k l :: chunks k n' (drop k l)
  end.

(** The sub-arrays [a[0], a[1], ...] along the first axis. *)
Definition rows {A} (a : ndarray A) : list (ndarray A) :=
  match shape a with
  | [] => []
  | n :: sh => NdArray sh <$> chunks (size_of sh) n (elems a)
  end.

(** [iter(a)]: iteration over a 0-d array is a [TypeError]. *)
Definition iterate {A} (a : ndarray A) : result (list (ndarray A)) :=
  match shape a with
  | [] => inl TypeError
  | _ => inr (rows a)
  end.

(** [a[i]] for an integer [i] in [range(len(a))]. *)
Definition getitem {A} (a : ndarray A) (i : nat) : result (ndarray A) :=
  match rows a !! i with
  | Some r => inr r
  | None => inl IndexError
  end.

Definition zeros_like (a : ndarray float) : ndarray float :=
  NdArray (shape a) (replicate (length (elems a)) pos_zero).

(** [np.array(a).reshape((n,))]. *)
Definition reshape1 {A} (a : ndarray A) (n : nat) : result (ndarray A) :=
  if decide (length (elems a) = n) then inr (NdArray [n] (elems a))
  else inl ValueError.

(** Broadcasting of the elements of an array of shape [ssh] to the
    shape [tsh] of the same rank: an axis of length 1 is repeated. *)
Fixpoint bcast {A} (tsh ssh : list nat) (l : list A) : option (list A) :=
  match tsh, ssh with
  | [], [] => Some l
  | t :: tsh', s :: ssh' =>
      if decide (s = t) then
        @concat A <$> mapM (bcast tsh' ssh') (chunks (size_of ssh') s l)
      else if decide (s = 1) then
        r ← bcast tsh' ssh' l; Some (concat (replicate t r))
      else None
  | _, _ => None
  end.

(** Missing leading axes count as axes of length 1. *)
Definition broadcast_to {A} (tsh : list nat) (a : ndarray A) : option (list A) :=
  if decide (ndim a ≤ length tsh) then
    bcast tsh (replicate (length tsh - ndim a) 1 ++ shape a) (elems a)
  else None.

(** The common shape of two operands of equal rank. *)
Fixpoint broadcast_shapes (s1 s2 : list nat) : option (list nat) :=
  match s1, s2 with
  | [], [] => Some []
  | a :: s1', b :: s2' =>
      r ← broadcast_shapes s1' s2';
      if decide (a = b) then Some (a :: r)
      else if decide (a = 1) then Some (b :: r)
      else if decide (b = 1) then Some (a :: r)
      else None
  | _, _ => None
  end.

Definition pad_shape (n : nat) (sh : list nat) : list nat :=
  replicate (n - length sh) 1 ++ sh.

(** [a op b] for a binary ufunc: a new array of the broadcast shape. *)
Definition binary_ufunc (op : float -> float -> float) (a b : ndarray float)
  : result (ndarray float) :=
  let n := ndim a `max` ndim b in
  match broadcast_shapes (pad_shape n (shape a)) (pad_shape n (shape b)) with
  | None => inl ValueError
  | Some sh =>
      match broadcast_to sh a, broadcast_to sh b with
      | Some xs, Some ys => inr (NdArray sh (zip_with op xs ys))
      | _, _ => inl ValueError
      end
  end.

(** [a op= b]: the result must have the shape of [a]. *)
Definition inplace_ufunc (op : float -> float -> float) (a b : ndarray float)
  : result (ndarray float) :=
  match broadcast_to (shape a) b with
  | Some ys => inr (NdArray (shape a) (zip_with op (elems a) ys))
  | None => inl ValueError
  end.

(** [c * a] and [a / c] for a Python scalar [c] already converted to the
    array's dtype. *)
Definition scalar_mul (c : float) (a : ndarray float) : ndarray float :=
  NdArray (shape a) (Float32.mul c <$> elems a).

Definition div_scalar (a : ndarray float) (c : float) : ndarray float :=
  NdArray (shape a) ((fun x => Float32.div x c) <$> elems a).

Definition reduce1 (op : float -> float -> float) (l : list float) : result float :=
  match l with
  | [] => inl ValueError
  | x :: xs => inr (foldl op x xs)
  end.

(** [np.max(a, axis=tuple(np.arange(1, a.ndim)))] (and [np.min]): the
    reduction over every axis but the first.  A reduced axis of length 0
    is a [ValueError]; with no axis to reduce the array is returned. *)
Definition reduce_trailing (op : float -> float -> float) (a : ndarray float)
  : result (ndarray float) :=
  match shape a with
  | [] => inr a
  | n :: sh =>
      if decide (size_of sh = 0) then inl ValueError
      else
        match mapM (fun c => match reduce1 op c with inr x => Some x | inl _ => None end)
                   (chunks (size_of sh) n (elems a)) with
        | Some xs => inr (NdArray [n] xs)
        | None => inl ValueError
        end
  end.

(** [np.concatenate(l)] along axis 0. *)
Definition concatenate {A} (l : list (ndarray A)) : result (ndarray A) :=
  match l with
  | [] => inl ValueError
  | a :: _ =>
      match shape a with
      | [] => inl ValueError
      | _ :: sh =>
          if decide (Forall (fun b => tail (shape b) = sh ∧ shape b ≠ []) l) then
            inr (NdArray (sum_list (default 0 ∘ head ∘ shape <$> l) :: sh)
                         (concat (elems <$> l)))
          else inl ValueError
      end
  end.

(** [np.abs(a).sum(0)]: the absolute values summed along the first
    axis.
    - On a 0-d value (a sample of a 1-d array) axis 0 is accepted and
      the result is the absolute value itself.
    - Where the entries to add lie one after the other in memory (every
      later axis has length 1) and there are 8 or more of them, NumPy
      adds them in blocks, pairwise; that sum is NumPy's own and is
      taken as given, [vector_sum].
    - Everywhere else the entries are added one after the other, in
      index order, from [0.0]. *)
Definition abs_sum0 (vector_sum : list float -> float) (a : ndarray float)
  : result (ndarray float) :=
  match shape a with
  | [] => inr (NdArray [] (Float32.abs <$> elems a))
  | n :: sh =>
      if decide (size_of sh = 1 /\ 8 <= n) then
        inr (NdArray sh [vector_sum (Float32.abs <$> elems a)])
      else
        inr (NdArray sh
               (foldl (zip_with Float32.add) (replicate (size_of sh) pos_zero)
                      (chunks (size_of sh) n (Float32.abs <$> elems a))))
  end.

Definition map_array {A B} (f : A -> B) (a : ndarray A) : ndarray B :=
  NdArray (shape a) (f <$> elems a).

(** [a[j]] on a 1-d array: a scalar. *)
Definition item {A} (a : ndarray A) (j : nat) : result A :=
  match elems a !! j with
  | Some x => inr x
  | None => inl IndexError
  end.

(** ** The world of an [interpret] call *)

(** References into the object store. *)
Abbreviation loc := nat (only parsing).

Section World.

(** [Event]: the calls that leave the method; [ModelState]: whatever
    the Paddle model and the base class keep between calls. *)
Context {Event ModelState : Type}.

(** - [heap]: the [float32] arrays the method creates and passes around
      by reference; a reference is an index, allocation appends.  Arrays
      returned by [predict_fn] stay with the callee and are only read
      here, so they are values.
    - [gauss], [gauss_pos]: the standard normal deviates NumPy's global
      generator yields, and how many have been consumed.
    - [self_*]: the attributes the method stores on the interpreter. *)
Record World : Type := mkWorld {
  heap : list (ndarray float);
  gauss : nat -> float;
  gauss_pos : nat;
  model : ModelState;
  trace : list Event;
  self_predicted_label : option (ndarray Z);
  self_predicted_proba : option (ndarray float);
  self_labels : option (ndarray Z)
}.

Definition with_heap (h : list (ndarray float)) (w : World) : World :=
  mkWorld h (gauss w) (gauss_pos w) (model w) (trace w)
          (self_predicted_label w) (self_predicted_proba w) (self_labels w).

Definition with_gauss_pos (p : nat) (w : World) : World :=
  mkWorld (heap w) (gauss w) p (model w) (trace w)
          (self_predicted_label w) (self_predicted_proba w) (self_labels w).

Definition with_model (s : ModelState) (w : World) : World :=
  mkWorld (heap w) (gauss w) (gauss_pos w) s (trace w)
          (self_predicted_label w) (self_predicted_proba w) (self_labels w).

Definition with_trace (t : list Event) (w : World) : World :=
  mkWorld (heap w) (gauss w) (gauss_pos w) (model w) t
          (self_predicted_label w) (self_predicted_proba w) (self_labels w).

Definition set_predicted_label (l : ndarray Z) (w : World) : World :=
  mkWorld (heap w) (gauss w) (gauss_pos w) (model w) (trace w)
          (Some l) (self_predicted_proba w) (self_labels w).

Definition set_predicted_proba (p : ndarray float) (w : World) : World :=
  mkWorld (heap w) (gauss w) (gauss_pos w) (model w) (trace w)
          (self_predicted_label w) (Some p) (self_labels w).

Definition set_labels (l : ndarray Z) (w : World) : World :=
  mkWorld (heap w) (gauss w) (gauss_pos w) (model w) (trace w)
          (self_predicted_label w) (self_predicted_proba w) (Some l).

Definition alloc (v : ndarray float) : M World loc :=
  fun w => (inr (length (heap w)), with_heap (heap w ++ [v]) w).

Definition load (l : loc) : M World (ndarray float) :=
  fun w =>
    match heap w !! l with
    | Some v => (inr v, w)
    | None => (inl (Raised "unbound reference"), w)
    end.

Definition store (l : loc) (v : ndarray float) : M World unit :=
  modify (fun w => with_heap (<[l := v]> (heap w)) w).

Definition emit (e : Event) : M World unit :=
  modify (fun w => with_trace (trace w ++ [e]) w).

(** A collaborator that reads and updates the model state. *)
Definition call_model {A} (f : ModelState -> result A * ModelState) : M World A :=
  fun w => let '(r, s) := f (model w) in (r, with_model s w).

(** [a += b] on the array behind the reference [a]. *)
Definition iadd (a : loc) (b : ndarray float) : M World unit :=
  let* t := load a in
  let* t' := lift (inplace_ufunc Float32.add t b) in
  store a t'.

End World.

Arguments World : clear implicits.

(** ** SmoothGradInterpreter *)

Module SmoothGradInterpreter.

Section Interpreter.

(** [Inputs]: file paths or raw images; [SavePath]: a path or a list of
    paths; [Vis]: a rendered explanation; [ModelState]: whatever the
    Paddle model and the base class keep between calls. *)
Context {Inputs SavePath Vis ModelState : Type}.

(** Calls that leave the method: [self.predict_fn(data, labels)] with
    the array passed (its reference and its value at the time of the
    call), [np.random.normal(loc, scale, size)], and the visualizer. *)
Inductive event : Type :=
  | PredictCall (l : loc) (data : ndarray float) (labels : option (ndarray Z))
  | NormalCall (mean scale : float) (size : list nat)
  | ShowCall (v : Vis)
  | SaveCall (path : string) (v : Vis).

(** The code this method calls and that lives outside this file: the
    image pipeline and the visualizer of [data_processor], and
    [_build_predict_fn] / [predict_fn] of [InputGradientInterpreter].
    [predict_fn] returns [(gradients, predicted_label, predicted_proba)]
    and does not write to the arrays it is given.  [vector_sum] is
    NumPy's sum of 8 or more [float32] values that lie one after the
    other in memory. *)
Record Collaborators : Type := {
  images_transform_pipeline :
    Inputs -> Z -> option Z -> result (ndarray Z * ndarray float);
  _build_predict_fn : ModelState -> result unit * ModelState;
  predict_fn :
    ModelState -> ndarray float -> option (ndarray Z) ->
    result (ndarray float * ndarray Z * ndarray float) * ModelState;
  preprocess_save_path : option SavePath -> nat -> result (list (option string));
  explanation_to_vis : ndarray Z -> ndarray float -> result Vis;
  show_vis_explanation : Vis -> result unit;
  save_image : string -> Vis -> result unit;
  vector_sum : list float -> float
}.

Variable C : Collaborators.

Definition World : Type := World event ModelState.

Definition call_build_predict_fn : M World unit :=
  call_model (_build_predict_fn C).

Definition call_predict_fn (data : loc) (labels : option (ndarray Z))
  : M World (ndarray float * ndarray Z * ndarray float) :=
  let* v := load data in
  emit (PredictCall data v labels) ;;
  call_model (fun s => predict_fn C s v labels).

(** One deviate of [np.random.normal(0.0, scale, ...)]:
    [loc + scale * gauss] in double precision. *)
Definition normal_deviate (scale z : float) : float :=
  Float64.add pos_zero (Float64.mul (Float64.of_float32 scale) z).

(** [np.random.normal(0.0, scale, size)] for a [float32] scalar [scale]:
    a scale with the sign bit set (and not a NaN) is rejected. *)
Definition np_random_normal (scale : float) (size : list nat)
  : M World (ndarray float) :=
  emit (NormalCall pos_zero scale size) ;;
  if signbit scale then raise ValueError
  else
    fun w =>
      let n := size_of size in
      (inr (NdArray size
              ((fun i => normal_deviate scale (gauss w (gauss_pos w + i)))
                 <$> seq 0 n)),
       with_gauss_pos (gauss_pos w + n) w).

(** [stds = noise_amount * (np.max(data, axis=max_axis) - np.min(data, axis=max_axis))];
    [noise_amount] is a Python float, converted to the array's dtype. *)
Definition compute_stds (noise_amount : float) (data : ndarray float)
  : result (ndarray float) :=
  match reduce_trailing Float32.maximum data with
  | inl e => inl e
  | inr mx =>
      match reduce_trailing Float32.minimum data with
      | inl e => inl e
      | inr mn =>
          match binary_ufunc Float32.sub mx mn with
          | inl e => inl e
          | inr range => inr (scalar_mul (Float32.of_float64 noise_amount) range)
          end
      end
  end.

(** [np.concatenate([np.float32(np.random.normal(0.0, stds[j], (1, ) + tuple(d.shape)))
                     for j, d in enumerate(data)])]. *)
Definition draw_noise (stds : ndarray float) (data : loc) : M World (ndarray float) :=
  let* v := load data in
  let* ds := lift (iterate v) in
  let* parts :=
    for_each 0 ds (fun j d =>
      let* s := lift (item stds j) in
      let* x := np_random_normal s (1 :: shape d) in
      ret (map_array Float32.of_float64 x)) in
  lift (concatenate parts).

(** The body of [for i in tqdm(range(n_samples), ...)]. *)
Definition sample_step (data : loc) (labels : ndarray Z) (stds : ndarray float)
    (total_gradients : loc) (i : nat) : M World unit :=
  let* noise := draw_noise stds data in
  let* v := load data in
  let* sum := lift (binary_ufunc Float32.add v noise) in
  let* _noised_data := alloc sum in
  let* '(gradients, _, _) := call_predict_fn _noised_data (Some labels) in
  iadd total_gradients gradients.

(** The block under [# obtain the labels (and initialization).]: the
    call on the unperturbed batch, and the labels as an array of shape
    [(bsz,)]. *)
Definition obtain_labels (data : loc) (labels : option (ndarray Z)) (bsz : nat)
  : M World (ndarray Z) :=
  let* '(_, predicted_label, predicted_proba) := call_predict_fn data labels in
  modify (set_predicted_label predicted_label) ;;
  modify (set_predicted_proba predicted_proba) ;;
  let labels := match labels with None => predicted_label | Some l => l end in
  lift (reshape1 labels bsz).

(** The block under [# SmoothGrad], up to [avg_gradients].  The loop is
    that of [range(n_samples)] for [n_samples] below [2^63]; from there
    on [tqdm] cannot take the length of the range and raises
    [OverflowError] before the first iteration, a case that is left out
    here. *)
Definition smooth_grad (data : loc) (labels : ndarray Z) (noise_amount : float)
    (n_samples : Z) : M World loc :=
  let* v := load data in
  let* stds := lift (compute_stds noise_amount v) in
  let* v := load data in
  let* total_gradients := alloc (zeros_like v) in
  for_range 0 (Z.to_nat n_samples)
    (sample_step data labels stds total_gradients) ;;
  let* t := load total_gradients in
  let* avg_gradients := alloc (div_scalar t (Float32.of_int n_samples)) in
  ret avg_gradients.

(** The body of [for i in range(bsz)] of the visualization block. *)
Definition visualize_step (imgs : ndarray Z) (avg_gradients : loc) (visual : bool)
    (save_path : list (option string)) (i : nat) : M World unit :=
  let* img := lift (getitem imgs i) in
  let* avg := load avg_gradients in
  let* g := lift (getitem avg i) in
  let* a := lift (abs_sum0 (vector_sum C) g) in
  let* vis_explanation := lift (explanation_to_vis C img a) in
  (if visual
   then emit (ShowCall vis_explanation) ;; lift (show_vis_explanation C vis_explanation)
   else ret tt) ;;
  match save_path !! i with
  | None => raise IndexError
  | Some None => ret tt
  | Some (Some p) =>
      emit (SaveCall p vis_explanation) ;; lift (save_image C p vis_explanation)
  end.

(** The block under [# visualize and save image.]. *)
Definition visualize (imgs : ndarray Z) (avg_gradients : loc) (bsz : nat)
    (visual : bool) (save_path : option SavePath) : M World unit :=
  if bool_decide (save_path = None) && negb visual then
    (* no need to visualize or save explanation results. *)
    ret tt
  else
    let* save_path := lift (preprocess_save_path C save_path bsz) in
    for_range 0 bsz (visualize_step imgs avg_gradients visual save_path).

Definition interpret (inputs : Inputs) (labels : option (ndarray Z))
    (noise_amount : float) (n_samples : Z) (resize_to : Z) (crop_to : option Z)
    (visual : bool) (save_path : option SavePath) : M World loc :=
  let* '(imgs, data_v) := lift (images_transform_pipeline C inputs resize_to crop_to) in
  let* data := alloc data_v in
  let* v := load data in
  let* bsz := lift (len v) in
  call_build_predict_fn ;;
  let* labels := obtain_labels data labels bsz in
  let* avg_gradients := smooth_grad data labels noise_amount n_samples in
  visualize imgs avg_gradients bsz visual save_path ;;
  (* intermediate results, for possible further usages. *)
  modify (set_labels labels) ;;
  ret avg_gradients.

End Interpreter.

End SmoothGradInterpreter.

(** ** SmoothGradNLPInterpreter *)

Module SmoothGradNLPInterpreter.

(** The Python values a [text_to_input_fn] hands to the model: arrays
    (iterable, with a [shape] attribute), tuples and lists (iterable,
    no [shape]) and plain scalars (neither). *)
#[local] Unset Elimination Schemes.
Inductive pyobj : Type :=
  | PyArray (a : ndarray Z)
  | PyTuple (l : list pyobj)
  | PyList (l : list pyobj)
  | PyInt (n : Z).
#[local] Set Elimination Schemes.

(** [isinstance(x, Iterable)]. *)
Definition is_iterable (x : pyobj) : bool :=
  match x with
  | PyArray _ | PyTuple _ | PyList _ => true
  | PyInt _ => false
  end.

(** [hasattr(x, 'shape')]. *)
Definition has_shape (x : pyobj) : bool :=
  match x with
  | PyArray _ => true
  | _ => false
  end.

(** The builtin [tuple(x)]: the items [iter(x)] yields.  An array yields
    its sub-arrays along the first axis. *)
Definition py_tuple (x : pyobj) : result (list pyobj) :=
  match x with
  | PyArray a =>
      match iterate a with
      | inl e => inl e
      | inr rs => inr (PyArray <$> rs)
      end
  | PyTuple l | PyList l => inr l
  | PyInt _ => inl TypeError
  end.

(** [np.array([v])]: one more leading axis of length 1. *)
Definition batched (v : ndarray Z) : ndarray Z :=
  NdArray (1 :: shape v) (elems v).

Section Interpreter.

(** [Aux]: the third component of what [predict_fn] returns. *)
Context {Aux ModelState : Type}.

(** A tokenizer returns the ordered dict of the encoded inputs. *)
Definition Tokenizer : Type := string -> Z -> result (list (string * ndarray Z)).
Definition TextToInput : Type := string -> result pyobj.

(** Calls that leave the method. *)
Inductive event : Type :=
  | TokenizerCall (text : string) (max_seq_len : Z)
  | TextToInputCall (raw_text : string)
  | PrintCall (msg : string)
  | BuildCall (layer_name : string)
  | PredictCall (model_input : list pyobj) (label : option (ndarray Z))
                (noise_amount : option float).

(** [_build_predict_fn] and [predict_fn] of
    [IntermediateGradientInterpreter]; [predict_fn] returns
    [(gradients, label, _, proba)] and adds the noise itself. *)
Record Collaborators : Type := {
  _build_predict_fn : string -> ModelState -> result unit * ModelState;
  predict_fn :
    ModelState -> list pyobj -> option (ndarray Z) -> option float ->
    result (ndarray float * ndarray Z * Aux * ndarray float) * ModelState
}.

Variable C : Collaborators.

Definition World : Type := World event ModelState.

Definition print (msg : string) : M World unit := emit (PrintCall msg).

Definition call_build_predict_fn (layer_name : string) : M World unit :=
  emit (BuildCall layer_name) ;;
  call_model (_build_predict_fn C layer_name).

Definition call_predict_fn (model_input : list pyobj) (label : option (ndarray Z))
    (noise_amount : option float)
  : M World (ndarray float * ndarray Z * Aux * ndarray float) :=
  emit (PredictCall model_input label noise_amount) ;;
  call_model (fun s => predict_fn C s model_input label noise_amount).

(** The local [text_to_input_fn] defined over the tokenizer. *)
Definition tokenizer_to_input_fn (tokenizer : Tokenizer) (max_seq_len : Z)
    (raw_text : string) : M World pyobj :=
  emit (TokenizerCall raw_text max_seq_len) ;;
  let* encoded_inputs := lift (tokenizer raw_text max_seq_len) in
  (* order is important. *_batched_and_to_tuple will be the input for the model. *)
  let _batched_and_to_tuple := PyTuple ((PyArray ∘ batched ∘ snd) <$> encoded_inputs) in
  ret _batched_and_to_tuple.

Definition call_text_to_input_fn (f : option TextToInput) (raw_text : string)
  : M World pyobj :=
  match f with
  | None => raise TypeError
  | Some f => emit (TextToInputCall raw_text) ;; lift (f raw_text)
  end.

Definition b2i (b : bool) : Z := if b then 1%Z else 0%Z.

(** The body of [for i in tqdm(range(n_samples), ...)]. *)
Definition sample_step (model_input : list pyobj) (label : ndarray Z)
    (noise_amount : float) (total_gradients : loc) (i : nat) : M World unit :=
  let* '(gradients, _, _, _) :=
    call_predict_fn model_input (Some label) (Some noise_amount) in
  iadd total_gradients gradients.

(** The block that turns the raw text into the tuple given to the
    model. *)
Definition text_to_model_input (raw_text : string) (tokenizer : option Tokenizer)
    (text_to_input_fn : option TextToInput) (max_seq_len : Z)
  : M World (list pyobj) :=
  (* tokenizer to text_to_input_fn. *)
  let* text_to_input_fn :=
    match tokenizer with
    | Some tokenizer => ret (tokenizer_to_input_fn tokenizer max_seq_len)
    | None =>
        print "Warning: Visualization can not be supported if tokenizer is not given." ;;
        ret (call_text_to_input_fn text_to_input_fn)
    end in
  (* from raw text string to token ids (and other terms that the user-defined function outputs). *)
  let* model_input := text_to_input_fn raw_text in
  if is_iterable model_input && negb (has_shape model_input)
  then lift (py_tuple model_input)   (* tuple(inp for inp in model_input) *)
  else lift (py_tuple model_input)   (* tuple(model_input, ) *).

(** The block under [# SG], from the call without noise up to
    [sg_gradients].  The loop is that of [range(n_samples)] for
    [n_samples] below [2^63], as in the other method. *)
Definition smooth_grad (model_input : list pyobj) (label : option (ndarray Z))
    (noise_amount : float) (n_samples : Z)
  : M World (loc * ndarray Z * ndarray float) :=
  let* '(gradients, label, _, proba) := call_predict_fn model_input label None in
  let* total_gradients := alloc (zeros_like gradients) in
  for_range 0 (Z.to_nat n_samples)
    (sample_step model_input label noise_amount total_gradients) ;;
  let* t := load total_gradients in
  let* sg_gradients := alloc (div_scalar t (Float32.of_int n_samples)) in
  ret (sg_gradients, label, proba).

(** [assert] statements are executed (the interpreter does not run with
    [-O]). *)
Definition interpret (raw_text : string) (tokenizer : option Tokenizer)
    (text_to_input_fn : option TextToInput) (label : option (ndarray Z))
    (noise_amount : float) (n_samples : Z) (embedding_name : string)
    (max_seq_len : Z) (visual : bool) : M World loc :=
  (if decide ((b2i (bool_decide (tokenizer = None))
               + b2i (bool_decide (text_to_input_fn = None)))%Z = 1%Z)
   then ret tt else raise AssertionError) ;;
  let* model_input := text_to_model_input raw_text tokenizer text_to_input_fn max_seq_len in
  call_build_predict_fn embedding_name ;;
  let* '(sg_gradients, label, proba) := smooth_grad model_input label noise_amount n_samples in
  (* intermediate results, for possible further usages. *)
  modify (set_predicted_label label) ;;
  modify (set_predicted_proba proba) ;;
  (if visual then
     print "Visualization is not supported yet." ;;
     print "Currently please see the tutorial for the visualization:" ;;
     print "https://github.com/PaddlePaddle/InterpretDL/blob/master/tutorials/ernie-2.0-en-sst-2.ipynb"
   else ret tt) ;;
  ret sg_gradients.

End Interpreter.

End SmoothGradNLPInterpreter.

(** * Specifications for the state-and-exception monad *)

Section Hoare.

Context {W : Type}.

(** [wp m Q E w]: run from [w], [m] returns some [a] in a world
    satisfying [Q a], or raises some [e] in a world satisfying [E e]. *)
Definition wp {A} (m : M W A) (Q : A -> W -> Prop) (E : exn -> W -> Prop)
    (w : W) : Prop :=
  match m w with
  | (inr a, w') => Q a w'
  | (inl e, w') => E e w'
  end.

(** [hoare P m Q E]: the same from every world satisfying [P]. *)
Definition hoare {A} (P : W -> Prop) (m : M W A)
    (Q : A -> W -> Prop) (E : exn -> W -> Prop) : Prop :=
  forall w, P w -> wp m Q E w.

End Hoare.

(** * Accumulating and averaging *)

(** [total_gradients += g] on arrays of one shape. *)
Definition accumulate (t g : ndarray float) : ndarray float :=
  NdArray (shape t) (zip_with Float32.add (elems t) (elems g)).

(** [x] added [k] times to [0.0], in [float32]. *)
Fixpoint repeat_add (k : nat) (x : float) : float :=
  match k with
  | O => pos_zero
  | S k' => Float32.add (repeat_add k' x) x
  end.

(** What averaging [n] copies of [x] computes. *)
Definition average_of_copies (n : Z) (x : float) : float :=
  Float32.div (repeat_add (Z.to_nat n) x) (Float32.of_int n).

(** The float32 mean computed by the method: the gradients summed into
    a zero array shaped like [like], divided by [n]. *)
Definition mean_of (like : ndarray float) (gs : list (ndarray float)) (n : Z)
  : ndarray float :=
  div_scalar (foldl accumulate (zeros_like like) gs) (Float32.of_int n).


(** * What the results are, entry by entry

    Written with list operations and [float32] arithmetic only, so that
    the statements do not rest on the array operations of the program. *)

(** The sub-arrays of [a] along its first axis, entry by entry: the
    sample [j] holds the entries [j * k] to [(j + 1) * k - 1] of [a],
    [k] being the number of entries of a sample. *)
Definition samples_of {A} (a : ndarray A) : list (ndarray A) :=
  let k := foldr Nat.mul 1 (tail (shape a)) in
  (fun j => NdArray (tail (shape a)) (take k (drop (j * k) (elems a))))
    <$> seq 0 (hd 0 (shape a)).

(** The mean the methods return: an array of the shape [sh] whose [len]
    entries are those of the arrays [gs] added one array after the
    other, in [float32], to [0.0], then divided by [n]. *)
Definition float32_mean (sh : list nat) (len : nat) (gs : list (ndarray float)) (n : Z)
  : ndarray float :=
  NdArray sh
    ((fun x => Float32.div x (Float32.of_int n))
       <$> foldl (fun acc g => zip_with Float32.add acc (elems g))
             (replicate len pos_zero) gs).

(** The absolute values of [c] consecutive blocks of [m] entries, added
    block after block to a block of [0.0]: the entry [j] of the result
    is [0.0 + |x[j]| + |x[m + j]| + ... + |x[(c - 1) * m + j]|]. *)
Fixpoint add_abs_blocks (m c : nat) (acc xs : list float) : list float :=
  match c with
  | O => acc
  | S c' =>
      add_abs_blocks m c' (zip_with Float32.add acc (Float32.abs <$> take m xs))
        (drop m xs)
  end.

Definition abs_block_sums (m c : nat) (xs : list float) : list float :=
  add_abs_blocks m c (replicate m pos_zero) xs.

(** [np.abs(g).sum(0)] for a sample [g] of the shape [sshape] with the
    entries [xs], where NumPy adds along the first axis one block after
    the other: the absolute values themselves for a sample without
    axes, and else the sums of the [c] blocks of [xs], [c] being the
    length of the first axis. *)
Definition abs_sum_first_axis (sshape : list nat) (xs : list float) : ndarray float :=
  match sshape with
  | [] => NdArray [] (Float32.abs <$> xs)
  | c :: rest => NdArray rest (abs_block_sums (foldr Nat.mul 1 rest) c xs)
  end.
(** * SmoothGradInterpreter: specification vocabulary *)

Module SmoothGradSpec.
Import SmoothGradInterpreter.

Section Vocabulary.

Context {Inputs SavePath Vis ModelState : Type}.
Variable C : @Collaborators Inputs SavePath Vis ModelState.

Abbreviation event := (@event Vis).
Abbreviation World := (@SmoothGradInterpreter.World Vis ModelState).

(** The [predict_fn] calls of a trace: reference and value of the batch
    passed, and the labels passed. *)
Definition predict_calls (t : list event)
  : list (loc * ndarray float * option (ndarray Z)) :=
  omap (fun e => match e with
                 | PredictCall l v lab => Some (l, v, lab)
                 | _ => None
                 end) t.

(** The [np.random.normal] calls of a trace: [(loc, scale, size)]. *)
Definition normal_calls (t : list event) : list (float * float * list nat) :=
  omap (fun e => match e with
                 | NormalCall m s sz => Some (m, s, sz)
                 | _ => None
                 end) t.

(** [noise_amount * (max(d) - min(d))] over all the entries of the
    sample [d]. *)
Definition sample_std (noise_amount : float) (d : ndarray float) : float :=
  match elems d with
  | [] => S754_nan
  | x :: xs =>
      Float32.mul (Float32.of_float64 noise_amount)
        (Float32.sub (foldl Float32.maximum x xs) (foldl Float32.minimum x xs))
  end.

(** The draws of one iteration: one call per sample, in order. *)
Definition draw_events (stds : ndarray float) (data_v : ndarray float) : list event :=
  zip_with (fun s d => NormalCall pos_zero s (1 :: shape d)) (elems stds) (rows data_v).

(** The events of one completed iteration. *)
Definition iteration_events (stds data_v : ndarray float) (fixed : ndarray Z)
    (l : loc) (noised : ndarray float) : list event :=
  draw_events stds data_v ++ [PredictCall l noised (Some fixed)].

(** Every scale can be given to [np.random.normal], and there is one
    per sample of a non-empty batch. *)
Definition stds_ok (bsz : nat) (stds : ndarray float) : Prop :=
  0 < bsz /\ length (elems stds) = bsz /\
  Forall (fun s => signbit s = false) (elems stds).

(** [k] evaluations of the gradient function on the batch [v] with the
    labels [fixed], from the model state [s]: the gradients returned. *)
Fixpoint replay (k : nat) (v : ndarray float) (fixed : ndarray Z) (s : ModelState)
  : list (ndarray float) :=
  match k with
  | O => []
  | S k' =>
      match predict_fn C s v (Some fixed) with
      | (inr (g, _, _), s') => g :: replay k' v fixed s'
      | (inl _, _) => []
      end
  end.

(** Worlds that agree on the store, the model state and the stream of
    deviates. *)
Definition frame (w0 w : World) : Prop :=
  heap w = heap w0 /\ model w = model w0 /\ gauss w = gauss w0.

(** An entry of a noise array: a deviate of the stream, scaled by one
    of the scales and rounded to [float32]. *)
Definition noise_entry (stds : ndarray float) (g : nat -> float) (x : float) : Prop :=
  exists s i, s ∈ elems stds /\ x = Float32.of_float64 (normal_deviate s (g i)).

(** What an event of the sampling loop may be: a draw of
    [draw_events], or a [predict_fn] call on an array allocated after
    the accumulator [lt], with the labels [fixed]. *)
Definition loop_event_ok (stds data_v : ndarray float) (fixed : ndarray Z)
    (lt : loc) (ev : event) : Prop :=
  match ev with
  | NormalCall _ _ _ => ev ∈ draw_events stds data_v
  | PredictCall l _ lab => lt < l /\ lab = Some fixed
  | _ => False
  end.

(** The conditions under which one iteration completes from the world
    [w]: the scales are accepted and, whatever noise is drawn, the sum
    with the batch is defined, [predict_fn] returns, and its gradients
    can be added into the accumulator at [lt]. *)
Definition step_can_run (stds data_v : ndarray float) (fixed : ndarray Z)
    (lt : loc) (bsz : nat) (w : World) : Prop :=
  stds_ok bsz stds /\
  forall noise,
    shape noise = shape data_v -> well_shaped noise ->
    Forall (noise_entry stds (gauss w)) (elems noise) ->
    exists noised g pl pp s' t t',
      binary_ufunc Float32.add data_v noise = inr noised /\
      predict_fn C (model w) noised (Some fixed) = (inr (g, pl, pp), s') /\
      heap w !! lt = Some t /\
      inplace_ufunc Float32.add t g = inr t'.

(** A batch the loop may pass to [predict_fn]: the batch plus a noise
    array of its shape. *)
Definition noised_ok (stds data_v : ndarray float) (g : nat -> float)
    (noised : ndarray float) : Prop :=
  exists noise,
    shape noise = shape data_v /\ well_shaped noise /\
    Forall (noise_entry stds g) (elems noise) /\
    binary_ufunc Float32.add data_v noise = inr noised.

(** The events of a completed iteration, on a fresh noised copy. *)
Definition iteration_ok (stds data_v : ndarray float) (fixed : ndarray Z)
    (lt : loc) (g : nat -> float) (it : list event) : Prop :=
  exists l noised,
    it = iteration_events stds data_v fixed l noised /\ lt < l /\
    noised_ok stds data_v g noised.

Definition is_vis_event (ev : event) : Prop :=
  match ev with
  | ShowCall _ | SaveCall _ _ => True
  | _ => False
  end.

(** The visualization block raises nothing, whatever explanation of
    the given shape it is handed. *)
Definition visualization_succeeds (imgs : ndarray Z) (bsz : nat) (visual : bool)
    (save_path : option SavePath) (sh : list nat) : Prop :=
  forall (l : loc) (w : World) v,
    heap w !! l = Some v -> shape v = sh ->
    exists w', visualize C imgs l bsz visual save_path w = (inr tt, w').

(** What an event of the sampling loop may be, in terms of the batch:
    a draw for some sample [d] with the scale [sample_std noise_amount d]
    and the size [(1,) + d.shape], or a [predict_fn] call on an array
    allocated after the accumulator [lt], with the labels [fixed]. *)
Definition run_event_ok (noise_amount : float) (data_v : ndarray float)
    (fixed : ndarray Z) (lt : loc) (ev : event) : Prop :=
  match ev with
  | NormalCall m s sz =>
      exists j d, rows data_v !! j = Some d /\ m = pos_zero /\
                  s = sample_std noise_amount d /\ sz = 1 :: shape d
  | PredictCall l _ lab => lt < l /\ lab = Some fixed
  | _ => False
  end.

(** State of the sampling loop after [k] iterations started in [w1]:
    nothing below the accumulator [lt] has changed and the trace grew by
    [k] completed iterations. *)
Definition loop_inv (stds data_v : ndarray float) (fixed : ndarray Z) (lt : loc)
    (w1 : World) (k : nat) (w : World) : Prop :=
  take lt (heap w) = take lt (heap w1) /\
  length (heap w1) <= length (heap w) /\
  gauss w = gauss w1 /\
  exists its, trace w = trace w1 ++ concat its /\ length its = k /\
              Forall (iteration_ok stds data_v fixed lt (gauss w1)) its.

(** State in which the sampling loop may be left by an exception. *)
Definition loop_exc (stds data_v : ndarray float) (fixed : ndarray Z) (lt : loc)
    (w1 w : World) : Prop :=
  take lt (heap w) = take lt (heap w1) /\
  length (heap w1) <= length (heap w) /\
  gauss w = gauss w1 /\
  exists evs, trace w = trace w1 ++ evs /\
              Forall (loop_event_ok stds data_v fixed lt) evs.

(** [J k s t] relates the model state [s] and the accumulator [t] after
    [k] iterations; [step_ok] says that from such a state, in a loop of
    [n] iterations, [predict_fn] returns on any batch the loop may pass,
    with gradients that can be accumulated, and that [J] holds again. *)
Definition step_ok (J : nat -> ModelState -> ndarray float -> Prop)
    (stds data_v : ndarray float) (fixed : ndarray Z) (g : nat -> float)
    (n : nat) : Prop :=
  forall k s t noised,
    k < n -> J k s t -> noised_ok stds data_v g noised ->
    exists gr pl pp s' t',
      predict_fn C s noised (Some fixed) = (inr (gr, pl, pp), s') /\
      inplace_ufunc Float32.add t gr = inr t' /\
      J (S k) s' t'.

(** A loop of [n] iterations completes: when there is an iteration at
    all, the scales are accepted, the batch is a genuine array and
    every step goes through. *)
Definition loop_can_run (J : nat -> ModelState -> ndarray float -> Prop)
    (stds data_v : ndarray float) (fixed : ndarray Z) (g : nat -> float)
    (bsz n : nat) : Prop :=
  0 < n ->
  stds_ok bsz stds /\ well_shaped data_v /\ step_ok J stds data_v fixed g n.

(** What is known of the end of a run that went through the labels
    block, from the world [w0] with the batch [data_v] at [ld]. *)
Definition run_frame (w0 : World) (data_v : ndarray float) (w' : World) : Prop :=
  take (S (length (heap w0))) (heap w') = heap w0 ++ [data_v] /\
  gauss w' = gauss w0.

(** The call got through the labels block: the batch is sized, the
    model is built, the call on the unperturbed batch returned and the
    labels fit the batch. *)
Definition labels_resolved (w0 : World) (data_v : ndarray float)
    (labels : option (ndarray Z)) : Prop :=
  exists bsz sshape s1 g0 pl pp s2 fixed,
    shape data_v = bsz :: sshape /\
    _build_predict_fn C (model w0) = (inr tt, s1) /\
    predict_fn C s1 data_v labels = (inr (g0, pl, pp), s2) /\
    reshape1 (match labels with None => pl | Some l => l end) bsz = inr fixed.

(** The call was left before the sampling block, by the exception [e]:
    only the batch was allocated, at most the call on the unperturbed
    batch was made, and if that call returned the exception is the
    [ValueError] of the reshape. *)
Definition left_early (w0 : World) (data_v : ndarray float)
    (labels : option (ndarray Z)) (e : exn) (w' : World) : Prop :=
  heap w' = heap w0 ++ [data_v] /\
  gauss w' = gauss w0 /\
  (trace w' = trace w0 \/
   trace w' = trace w0 ++ [PredictCall (length (heap w0)) data_v labels]) /\
  forall bsz sshape s1 g0 pl pp s2,
    shape data_v = bsz :: sshape ->
    _build_predict_fn C (model w0) = (inr tt, s1) ->
    predict_fn C s1 data_v labels = (inr (g0, pl, pp), s2) ->
    e = ValueError /\
    trace w' = trace w0 ++ [PredictCall (length (heap w0)) data_v labels].

(** The visualization block leaves the store, the model and the
    generator alone and only calls the visualizer. *)
Definition vis_frame (w w' : World) : Prop :=
  heap w' = heap w /\ model w' = model w /\ gauss w' = gauss w /\
  self_labels w' = self_labels w /\
  exists evs, trace w' = trace w ++ evs /\ Forall is_vis_event evs.

End Vocabulary.

End SmoothGradSpec.


(** * SmoothGradNLPInterpreter: specification vocabulary *)

Module SmoothGradNLPSpec.
Import SmoothGradNLPInterpreter.

Section Vocabulary.

Context {Aux ModelState : Type}.
Variable C : @Collaborators Aux ModelState.

Abbreviation event := (@event).
Abbreviation World := (@SmoothGradNLPInterpreter.World ModelState).

(** The [predict_fn] calls of a trace:
    [(model_input, label, noise_amount)]. *)
Definition predict_calls (t : list event)
  : list (list pyobj * option (ndarray Z) * option float) :=
  omap (fun e => match e with
                 | PredictCall mi lab na => Some (mi, lab, na)
                 | _ => None
                 end) t.

(** The events of the block that builds the model input. *)
Definition is_input_event (ev : event) : Prop :=
  match ev with
  | TokenizerCall _ _ | TextToInputCall _ | PrintCall _ => True
  | _ => False
  end.

Definition is_print (ev : event) : Prop :=
  match ev with
  | PrintCall _ => True
  | _ => False
  end.

(** [k] calls of the gradient function with the noise [noise_amount]
    and the label [lab], from the model state [s]: the gradients
    returned. *)
Fixpoint replay (k : nat) (mi : list pyobj) (lab : ndarray Z) (noise_amount : float)
    (s : ModelState) : list (ndarray float) :=
  match k with
  | O => []
  | S k' =>
      match predict_fn C s mi (Some lab) (Some noise_amount) with
      | (inr (g, _, _, _), s') => g :: replay k' mi lab noise_amount s'
      | (inl _, _) => []
      end
  end.

(** [J k s t] relates the model state [s] and the accumulator [t] after
    [k] iterations; [step_ok] says that from such a state, in a loop of
    [n] iterations, the noisy call returns gradients that can be
    accumulated, and that [J] holds again. *)
Definition step_ok (J : nat -> ModelState -> ndarray float -> Prop)
    (mi : list pyobj) (lab : ndarray Z) (noise_amount : float) (n : nat) : Prop :=
  forall k s t,
    k < n -> J k s t ->
    exists g lab' aux p s' t',
      predict_fn C s mi (Some lab) (Some noise_amount) = (inr (g, lab', aux, p), s') /\
      inplace_ufunc Float32.add t g = inr t' /\
      J (S k) s' t'.

(** State of the sampling loop after [k] iterations started in [w1],
    with the accumulator at [lt]. *)
Definition loop_inv (J : nat -> ModelState -> ndarray float -> Prop) (F : Prop)
    (mi : list pyobj) (lab : ndarray Z) (noise_amount : float) (lt : loc)
    (w1 : World) (k : nat) (w : World) : Prop :=
  length (heap w) = length (heap w1) /\
  take lt (heap w) = take lt (heap w1) /\
  trace w = trace w1 ++ replicate k (PredictCall mi (Some lab) (Some noise_amount)) /\
  (F -> exists t, heap w !! lt = Some t /\ J k (model w) t).

(** State in which the sampling loop may be left by an exception. *)
Definition loop_exc (F : Prop) (mi : list pyobj) (lab : ndarray Z)
    (noise_amount : float) (lt : loc) (w1 w : World) : Prop :=
  length (heap w) = length (heap w1) /\
  take lt (heap w) = take lt (heap w1) /\
  (exists k, trace w = trace w1
                       ++ replicate k (PredictCall mi (Some lab) (Some noise_amount))) /\
  ~ F.

(** The world after the block that builds the model input: the store
    and the model are those of [w], and the trace grew by events of
    that block, at least one. *)
Definition input_frame (w w' : World) : Prop :=
  heap w' = heap w /\ model w' = model w /\
  exists ev evs, trace w' = trace w ++ ev :: evs /\ Forall is_input_event (ev :: evs).

(** The [assert] of [interpret] holds. *)
Definition exactly_one_given (tokenizer : option Tokenizer)
    (text_to_input_fn : option TextToInput) : Prop :=
  (b2i (bool_decide (tokenizer = None))
   + b2i (bool_decide (text_to_input_fn = None)))%Z = 1%Z.

End Vocabulary.

End SmoothGradNLPSpec.

(** * Further behaviour of the two methods: vocabulary *)

(** ** The attributes stored on the interpreter *)

Section Attributes.

Context {Event ModelState : Type}.

(** The worlds [w] and [w'] hold the same [self.*] attributes. *)
Definition attrs_frame (w w' : World Event ModelState) : Prop :=
  self_predicted_label w' = self_predicted_label w /\
  self_predicted_proba w' = self_predicted_proba w /\
  self_labels w' = self_labels w.

(** A computation that, however it ends, assigns no attribute. *)
Definition keeps_attrs {A} (m : M (World Event ModelState) A) : Prop :=
  forall w0, hoare (attrs_frame w0) m (fun _ => attrs_frame w0) (fun _ => attrs_frame w0).

End Attributes.

(** ** SmoothGradNLPInterpreter *)

Module SmoothGradNLPBehaviour.
Import SmoothGradNLPInterpreter SmoothGradNLPSpec.

Section Vocabulary.

Context {Aux ModelState : Type}.
Variable C : @Collaborators Aux ModelState.

Abbreviation event := (@event).
Abbreviation World := (@SmoothGradNLPInterpreter.World ModelState).

(** The line printed when no tokenizer is given. *)
Definition warning : event :=
  PrintCall "Warning: Visualization can not be supported if tokenizer is not given.".

(** The lines printed under [if visual:]. *)
Definition visual_prints : list event :=
  [PrintCall "Visualization is not supported yet.";
   PrintCall "Currently please see the tutorial for the visualization:";
   PrintCall "https://github.com/PaddlePaddle/InterpretDL/blob/master/tutorials/ernie-2.0-en-sst-2.ipynb"].

(** The tuple made of the values of the tokenizer's dict, each with one
    more leading axis, in the order of the dict. *)
Definition batched_tuple (encoded_inputs : list (string * ndarray Z)) : list pyobj :=
  (fun kv => PyArray (NdArray (1 :: shape kv.2) (elems kv.2))) <$> encoded_inputs.

(** From the model state [s], the calls with noise return gradients of
    the shape [sh] [k] times and the next one raises [e]. *)
Fixpoint fails_after (k : nat) (mi : list pyobj) (lab : ndarray Z)
    (noise_amount : float) (sh : list nat) (s : ModelState) (e : exn) : Prop :=
  match k with
  | O => (predict_fn C s mi (Some lab) (Some noise_amount)).1 = inl e
  | S k' =>
      exists g lab' aux p s',
        predict_fn C s mi (Some lab) (Some noise_amount) = (inr (g, lab', aux, p), s') /\
        shape g = sh /\ well_shaped g /\
        fails_after k' mi lab noise_amount sh s' e
  end.

End Vocabulary.

End SmoothGradNLPBehaviour.

(** ** SmoothGradInterpreter *)

Module SmoothGradBehaviour.
Import SmoothGradInterpreter SmoothGradSpec.

Section Vocabulary.

Context {Inputs SavePath Vis ModelState : Type}.
Variable C : @Collaborators Inputs SavePath Vis ModelState.

Abbreviation event := (@event Vis).
Abbreviation World := (@SmoothGradInterpreter.World Vis ModelState).

(** The world in which the block under [# SmoothGrad] starts: the batch
    is in the store, the gradient function is built, the call on the
    unperturbed batch left the model in [s2] and returned the
    predictions [pl] and [pp]. *)
Definition after_labels (w0 : World) (data_v : ndarray float)
    (labels : option (ndarray Z)) (s2 : ModelState) (pl : ndarray Z)
    (pp : ndarray float) : World :=
  set_predicted_proba pp
    (set_predicted_label pl
       (with_model s2
          (with_trace (trace w0 ++ [PredictCall (length (heap w0)) data_v labels])
             (with_heap (heap w0 ++ [data_v]) w0)))).

(** The gradient function evaluated on the batches [vs] one after the
    other with the labels [fixed], from the model state [s]: the
    gradients returned, up to the first failure, and the state left. *)
Fixpoint replay_on (vs : list (ndarray float)) (fixed : ndarray Z) (s : ModelState)
  : list (ndarray float) * ModelState :=
  match vs with
  | [] => ([], s)
  | v :: vs' =>
      match predict_fn C s v (Some fixed) with
      | (inr (g, _, _), s') =>
          let '(gs, s'') := replay_on vs' fixed s' in (g :: gs, s'')
      | (inl _, s') => ([], s')
      end
  end.

(** The sampling loop after [k] iterations started in [w1], with the
    batch at [ld] and the accumulator at [lt]: the accumulator holds
    the sum of the gradients returned for the batches passed so far, in
    order. *)
Definition averaging_inv (data_v : ndarray float) (fixed : ndarray Z) (ld lt : loc)
    (w1 : World) (k : nat) (w : World) : Prop :=
  heap w !! ld = Some data_v /\ lt < length (heap w) /\ gauss w = gauss w1 /\
  exists evs gs,
    trace w = trace w1 ++ evs /\
    length (predict_calls evs) = k /\
    Forall (fun c => c.2 = Some fixed) (predict_calls evs) /\
    replay_on ((fun c => c.1.2) <$> predict_calls evs) fixed (model w1)
    = (gs, model w) /\
    length gs = k /\
    heap w !! lt = Some (foldl accumulate (zeros_like data_v) gs).

(** The gradient function returns on every batch shaped like [data_v],
    gradients of that shape. *)
Definition gradients_shaped (data_v : ndarray float) (fixed : ndarray Z) : Prop :=
  forall s v,
    shape v = shape data_v -> well_shaped v ->
    exists g pl pp s',
      predict_fn C s v (Some fixed) = (inr (g, pl, pp), s') /\
      shape g = shape data_v /\ well_shaped g.

(** The [show_vis_explanation] and [save_image] calls of a trace. *)
Definition show_calls (t : list event) : list Vis :=
  omap (fun e => match e with ShowCall v => Some v | _ => None end) t.

Definition save_calls (t : list event) : list (string * Vis) :=
  omap (fun e => match e with SaveCall p v => Some (p, v) | _ => None end) t.

(** What the visualization block renders for the sample [i] of the
    explanation [avg]: [explanation_to_vis(imgs[i], np.abs(avg[i]).sum(0))]. *)
Definition render (imgs : ndarray Z) (avg : ndarray float) (i : nat) : result Vis :=
  match getitem imgs i with
  | inl e => inl e
  | inr img =>
      match getitem avg i with
      | inl e => inl e
      | inr g =>
          match abs_sum0 (vector_sum C) g with
          | inl e => inl e
          | inr a => explanation_to_vis C img a
          end
      end
  end.

(** The renderings that are saved: those of the samples whose path is
    not [None], with that path. *)
Definition saved (paths : list (option string)) (vs : list Vis) : list (string * Vis) :=
  omap (fun pv => match pv.1 with Some p => Some (p, pv.2) | None => None end)
       (zip paths vs).

(** The visualization block raises [e], whatever explanation of the
    given shape it is handed. *)
Definition visualization_raises (imgs : ndarray Z) (bsz : nat) (visual : bool)
    (save_path : option SavePath) (sh : list nat) (e : exn) : Prop :=
  forall (l : loc) (w : World) v,
    heap w !! l = Some v -> shape v = sh ->
    exists w', visualize C imgs l bsz visual save_path w = (inl e, w').

(** The same collaborators with another visualizer. *)
Definition with_visualizer
    (pre : option SavePath -> nat -> result (list (option string)))
    (to_vis : ndarray Z -> ndarray float -> result Vis)
    (show : Vis -> result unit) (save : string -> Vis -> result unit)
  : @Collaborators Inputs SavePath Vis ModelState :=
  {| images_transform_pipeline := images_transform_pipeline C;
     _build_predict_fn := _build_predict_fn C;
     predict_fn := predict_fn C;
     preprocess_save_path := pre;
     explanation_to_vis := to_vis;
     show_vis_explanation := show;
     save_image := save;
     vector_sum := vector_sum C |}.

End Vocabulary.

End SmoothGradBehaviour.
(** * Concrete models and inputs *)

Module SmoothGradExamples.
Import SmoothGradInterpreter.

(** [float32] values: 1.0, 3.0, 0.1, 2^127 and its opposite, -0.0. *)
Definition f32_one : float := S754_finite false 8388608 (-23).
Definition f32_three : float := S754_finite false 12582912 (-22).
Definition f32_tenth : float := S754_finite false 13421773 (-27).
Definition f32_huge : float := S754_finite false 8388608 104.
Definition f32_neg_huge : float := S754_finite true 8388608 104.
Definition neg_zero : float := S754_zero true.

(** [float64] values: 0.1 and 0.5. *)
Definition f64_tenth : float := S754_finite false 3602879701896397 (-55).
Definition f64_half : float := S754_finite false 4503599627370496 (-53).

(** One image of 2 pixels, and batches of one sample with two entries. *)
Definition image : ndarray Z := NdArray [1; 1; 2; 3] [0; 0; 0; 0; 0; 0]%Z.
Definition batch : ndarray float := NdArray [1; 2] [f32_one; f32_three].
Definition wide_batch : ndarray float := NdArray [1; 2] [f32_neg_huge; f32_huge].
Definition signed_zero_batch : ndarray float := NdArray [1; 2] [neg_zero; f32_one].
Definition tenth_gradient : ndarray float := NdArray [1; 2] [f32_tenth; f32_one].

(** A batch of two samples, and the labels [[[1, 2]]]: one row of two
    labels. *)
Definition pair_batch : ndarray float :=
  NdArray [2; 2] [f32_one; f32_three; f32_one; f32_three].
Definition nested_labels : ndarray Z := NdArray [1; 2] [1; 2]%Z.

Definition label7 : ndarray Z := NdArray [1] [7%Z].
Definition proba1 : ndarray float := NdArray [1] [f32_one].

(** A stub whose gradient function returns [g] on every call; the
    pipeline delivers the batch [d]. *)
Definition constant_model (d g : ndarray float) : @Collaborators unit unit unit unit :=
  {| images_transform_pipeline := fun _ _ _ => inr (image, d);
     _build_predict_fn := fun s => (inr tt, s);
     predict_fn := fun s _ _ => (inr (g, label7, proba1), s);
     preprocess_save_path := fun _ n => inr (replicate n None);
     explanation_to_vis := fun _ _ => inr tt;
     show_vis_explanation := fun _ => inr tt;
     save_image := fun _ _ => inr tt;
     vector_sum := foldl Float32.add pos_zero |}.

(** A mock that returns the batch it is given as the gradient and
    counts its calls. *)
Definition echo_model (d : ndarray float) : @Collaborators unit unit unit nat :=
  {| images_transform_pipeline := fun _ _ _ => inr (image, d);
     _build_predict_fn := fun s => (inr tt, s);
     predict_fn := fun s v _ => (inr (v, label7, proba1), S s);
     preprocess_save_path := fun _ n => inr (replicate n None);
     explanation_to_vis := fun _ _ => inr tt;
     show_vis_explanation := fun _ => inr tt;
     save_image := fun _ _ => inr tt;
     vector_sum := foldl Float32.add pos_zero |}.

(** An empty store and a generator that always yields 0.5. *)
Definition fresh_world {S} (s : S) : @World unit S :=
  mkWorld [] (fun _ => f64_half) 0 s [] None None None.

End SmoothGradExamples.


(** * Concrete inputs for the NLP interpreter *)

Module SmoothGradNLPExamples.
Import SmoothGradNLPInterpreter SmoothGradExamples.

(** The ids of three tokens and their segment ids, as one array of
    shape (2, 3). *)
Definition token_ids : ndarray Z := NdArray [2; 3] [101; 7; 102; 0; 0; 0]%Z.

(** A conversion function that returns that one array. *)
Definition token_ids_fn : TextToInput := fun _ => inr (PyArray token_ids).

(** A tokenizer that encodes every text as the same two entries. *)
Definition fixed_tokenizer : Tokenizer :=
  fun _ _ => inr [("input_ids"%string, NdArray [3] [101; 7; 102]%Z);
                  ("token_type_ids"%string, NdArray [3] [0; 0; 0]%Z)].

(** A gradient function that returns [tenth_gradient] when called
    without noise and [batch] when called with noise, and counts its
    calls. *)
Definition embedding_model : @Collaborators unit nat :=
  {| _build_predict_fn := fun _ s => (inr tt, s);
     predict_fn := fun s _ _ na =>
       match na with
       | None => (inr (tenth_gradient, label7, tt, proba1), S s)
       | Some _ => (inr (batch, label7, tt, proba1), S s)
       end |}.

Definition fresh_world (s : nat) : @World nat :=
  mkWorld [] (fun _ => f64_half) 0 s [] None None None.

End SmoothGradNLPExamples.

(** * Concrete models for the further behaviour *)

Module SmoothGradBehaviourExamples.
Import SmoothGradInterpreter SmoothGradExamples SmoothGradBehaviour.

(** A gradient function that returns on its first call and raises on
    every later one. *)
Definition failing_gradient_model (d : ndarray float) : @Collaborators unit unit unit nat :=
  {| images_transform_pipeline := fun _ _ _ => inr (image, d);
     _build_predict_fn := fun s => (inr tt, s);
     predict_fn := fun s v _ =>
       match s with
       | O => (inr (v, label7, proba1), S s)
       | S _ => (inl (Raised "out of memory"), S s)
       end;
     preprocess_save_path := fun _ n => inr (replicate n None);
     explanation_to_vis := fun _ _ => inr tt;
     show_vis_explanation := fun _ => inr tt;
     save_image := fun _ _ => inr tt;
     vector_sum := foldl Float32.add pos_zero |}.

(** The mock of [echo_model] with a visualizer that cannot render. *)
Definition blind_model (d : ndarray float) : @Collaborators unit unit unit nat :=
  with_visualizer (echo_model d)
    (fun _ n => inr (replicate n None))
    (fun _ _ => inl (Raised "no display"))
    (fun _ => inr tt) (fun _ _ => inr tt).

(** The mock of [echo_model] with a visualizer that renders the sum it
    is given and saves every sample under one path. *)
Definition rendering_model (d : ndarray float)
  : @Collaborators unit unit (ndarray float) nat :=
  {| images_transform_pipeline := fun _ _ _ => inr (image, d);
     _build_predict_fn := fun s => (inr tt, s);
     predict_fn := fun s v _ => (inr (v, label7, proba1), S s);
     preprocess_save_path := fun _ n => inr (replicate n (Some "out.png"%string));
     explanation_to_vis := fun _ a => inr a;
     show_vis_explanation := fun _ => inr tt;
     save_image := fun _ _ => inr tt;
     vector_sum := foldl Float32.add pos_zero |}.

(** A batch without a first axis, a batch without samples, and a batch
    of one sample without entries. *)
Definition scalar_batch : ndarray float := NdArray [] [f32_one].
Definition empty_batch : ndarray float := NdArray [0; 2] [].
Definition hollow_batch : ndarray float := NdArray [1; 0] [].
Definition no_labels : ndarray Z := NdArray [0] [].

(** A gradient function for the degenerate batches: it returns what it
    is given, with labels for [n] samples. *)
Definition plain_model (d : ndarray float) (l : ndarray Z)
  : @Collaborators unit unit unit nat :=
  {| images_transform_pipeline := fun _ _ _ => inr (image, d);
     _build_predict_fn := fun s => (inr tt, s);
     predict_fn := fun s v _ => (inr (v, l, proba1), S s);
     preprocess_save_path := fun _ n => inr (replicate n None);
     explanation_to_vis := fun _ _ => inr tt;
     show_vis_explanation := fun _ => inr tt;
     save_image := fun _ _ => inr tt;
     vector_sum := foldl Float32.add pos_zero |}.

Definition fresh_world_of {V S} (s : S) : @World V S :=
  mkWorld [] (fun _ => f64_half) 0 s [] None None None.

End SmoothGradBehaviourExamples.

Module SmoothGradNLPBehaviourExamples.
Import SmoothGradNLPInterpreter SmoothGradExamples SmoothGradNLPExamples.

(** A tokenizer that raises, and a conversion function that returns a
    plain integer. *)
Definition failing_tokenizer : Tokenizer :=
  fun _ _ => inl (Raised "unknown vocabulary").

Definition scalar_fn : TextToInput := fun _ => inr (PyInt 7).

(** A gradient function that counts its calls and raises from the
    third one on. *)
Definition flaky_model : @Collaborators unit nat :=
  {| _build_predict_fn := fun _ s => (inr tt, s);
     predict_fn := fun s _ _ na =>
       match s with
       | O => (inr (tenth_gradient, label7, tt, proba1), S s)
       | S O => (inr (batch, label7, tt, proba1), S s)
       | S (S _) => (inl (Raised "out of memory"), S s)
       end |}.

End SmoothGradNLPBehaviourExamples.
(** * Reasoning principles *)

(** Scalar arithmetic is not unfolded by simplification. *)
#[global] Arguments Float32.add : simpl never.
#[global] Arguments Float32.sub : simpl never.
#[global] Arguments Float32.mul : simpl never.
#[global] Arguments Float32.div : simpl never.
#[global] Arguments Float32.of_int : simpl never.
#[global] Arguments Float32.of_float64 : simpl never.
#[global] Arguments Float32.maximum : simpl never.
#[global] Arguments Float32.minimum : simpl never.
#[global] Arguments Float64.add : simpl never.
#[global] Arguments Float64.mul : simpl never.
#[global] Arguments Float64.of_float32 : simpl never.
#[global] Arguments size_of : simpl never.

(** Two equations for one term: their right-hand sides agree. *)
Ltac unify_runs :=
  repeat match goal with
         | H1 : ?x = ?a, H2 : ?x = ?b |- _ =>
             first [ constr_eq a b; clear H2
                   | let H := fresh in
                     assert (H : a = b) by (rewrite <- H1; exact H2);
                     clear H2; simplify_eq ]
         end.

(** ** Rules for triples *)

Section HoareRules.

Context {W : Type}.

Lemma wp_ret {A} (a : A) (Q : A -> W -> Prop) E w :
  Q a w -> wp (ret a) Q E w.
Proof. done. Qed.

Lemma wp_raise {A} e (Q : A -> W -> Prop) (E : exn -> W -> Prop) w :
  E e w -> wp (raise e) Q E w.
Proof. done. Qed.

Lemma wp_lift {A} (r : result A) (Q : A -> W -> Prop) E w :
  match r with inr a => Q a w | inl e => E e w end -> wp (lift r) Q E w.
Proof. by destruct r. Qed.

Lemma wp_gets {A} (f : W -> A) (Q : A -> W -> Prop) E w :
  Q (f w) w -> wp (gets f) Q E w.
Proof. done. Qed.

Lemma wp_modify (f : W -> W) (Q : unit -> W -> Prop) E w :
  Q tt (f w) -> wp (modify f) Q E w.
Proof. done. Qed.

Lemma wp_bind {A B} (m : M W A) (k : A -> M W B) (Q : B -> W -> Prop) E w :
  wp m (fun a w' => wp (k a) Q E w') E w -> wp (bind m k) Q E w.
Proof. unfold wp, bind. by destruct (m w) as [[e | a] w']. Qed.

Lemma wp_conseq {A} (m : M W A) (Q Q' : A -> W -> Prop) (E E' : exn -> W -> Prop) w :
  wp m Q' E' w ->
  (forall a w', Q' a w' -> Q a w') ->
  (forall e w', E' e w' -> E e w') ->
  wp m Q E w.
Proof. unfold wp. destruct (m w) as [[e | a] w']; auto. Qed.

Lemma wp_and {A} (m : M W A) (Q1 Q2 : A -> W -> Prop) (E1 E2 : exn -> W -> Prop) w :
  wp m Q1 E1 w -> wp m Q2 E2 w ->
  wp m (fun a w' => Q1 a w' /\ Q2 a w') (fun e w' => E1 e w' /\ E2 e w') w.
Proof. unfold wp. by destruct (m w) as [[e | a] w']. Qed.

Lemma wp_if {A} (b : bool) (m1 m2 : M W A) (Q : A -> W -> Prop) E w :
  (b = true -> wp m1 Q E w) -> (b = false -> wp m2 Q E w) ->
  wp (if b then m1 else m2) Q E w.
Proof. destruct b; auto. Qed.

Lemma wp_any {A} (m : M W A) (Q : A -> W -> Prop) (E : exn -> W -> Prop) w :
  (forall a w', Q a w') -> (forall e w', E e w') -> wp m Q E w.
Proof. intros HQ HE. unfold wp. destruct (m w) as [[e | a] w']; auto. Qed.

Lemma wp_run_eq {A} (m : M W A) (Q : A -> W -> Prop) (E : exn -> W -> Prop)
    w r w' :
  m w = (r, w') ->
  match r with inr a => Q a w' | inl e => E e w' end ->
  wp m Q E w.
Proof. intros Hm H. unfold wp. by rewrite Hm; destruct r. Qed.

(** What a run is, read off a specification. *)
Lemma wp_run {A} (m : M W A) (Q : A -> W -> Prop) E w :
  wp m Q E w ->
  (exists a w', m w = (inr a, w') /\ Q a w') \/
  (exists e w', m w = (inl e, w') /\ E e w').
Proof. unfold wp. destruct (m w) as [[e | a] w']; eauto. Qed.

Lemma hoare_ret {A} (P : W -> Prop) (a : A) Q E :
  (forall w, P w -> Q a w) -> hoare P (ret a) Q E.
Proof. intros H w Hw. apply wp_ret. auto. Qed.

Lemma hoare_bind {A B} (P : W -> Prop) (m : M W A) (k : A -> M W B) R Q E :
  hoare P m R E ->
  (forall a, hoare (R a) (k a) Q E) ->
  hoare P (bind m k) Q E.
Proof.
  intros Hm Hk w Hw. apply wp_bind.
  eapply wp_conseq; [exact (Hm w Hw) | | done].
  intros a w' Ha. exact (Hk a w' Ha).
Qed.

Lemma hoare_conseq {A} (P P' : W -> Prop) (m : M W A) (Q Q' : A -> W -> Prop)
    (E E' : exn -> W -> Prop) :
  hoare P' m Q' E' ->
  (forall w, P w -> P' w) ->
  (forall a w, Q' a w -> Q a w) ->
  (forall e w, E' e w -> E e w) ->
  hoare P m Q E.
Proof.
  intros Hm HP HQ HE w Hw. eapply wp_conseq; [exact (Hm w (HP w Hw)) | done | done].
Qed.

Lemma hoare_pre {A} (P P' : W -> Prop) (m : M W A) Q E :
  hoare P' m Q E -> (forall w, P w -> P' w) -> hoare P m Q E.
Proof. intros Hm HP. eapply hoare_conseq; eauto. Qed.

(** A fact that does not depend on the world can be used outright. *)
Lemma hoare_assume {A} (F : Prop) (P : W -> Prop) (m : M W A) Q E :
  (forall w, P w -> F) -> (F -> hoare P m Q E) -> hoare P m Q E.
Proof. intros HF H w Hw. exact (H (HF w Hw) w Hw). Qed.

Lemma hoare_if {A} (b : bool) (P : W -> Prop) (m1 m2 : M W A) Q E :
  (b = true -> hoare P m1 Q E) ->
  (b = false -> hoare P m2 Q E) ->
  hoare P (if b then m1 else m2) Q E.
Proof. destruct b; auto. Qed.

(** Loop rule: [I i] holds before iteration [i]. *)
Lemma hoare_for_range (I : nat -> W -> Prop) E (body : nat -> M W unit) n :
  forall lo,
  (forall i, lo <= i < lo + n -> hoare (I i) (body i) (fun _ => I (S i)) E) ->
  hoare (I lo) (for_range lo n body) (fun _ => I (lo + n)) E.
Proof.
  induction n as [| n IH]; intros lo Hbody.
  - apply hoare_ret. intros w Hw. by rewrite Nat.add_0_r.
  - cbn [for_range]. eapply hoare_bind.
    + apply Hbody. lia.
    + intros []. eapply hoare_conseq.
      * apply (IH (S lo)). intros i Hi. apply Hbody. lia.
      * auto.
      * intros [] w Hw. by replace (lo + S n) with (S lo + n) by lia.
      * auto.
Qed.

(** Rule for a comprehension: [I j] holds before item [j], and every
    result is related to its item by [R]. *)
Lemma hoare_for_each {A B} (I : nat -> W -> Prop) (R : nat -> A -> B -> Prop) E
    (f : nat -> A -> M W B) (l : list A) :
  forall lo,
  (forall j x, l !! j = Some x ->
     hoare (I (lo + j)) (f (lo + j) x) (fun y w => I (S (lo + j)) w /\ R (lo + j) x y) E) ->
  hoare (I lo) (for_each lo l f)
    (fun ys w => I (lo + length l) w /\ length ys = length l /\
                 forall j x y, l !! j = Some x -> ys !! j = Some y -> R (lo + j) x y) E.
Proof.
  induction l as [| x l IH]; intros lo Hf.
  - apply hoare_ret. intros w Hw. rewrite Nat.add_0_r.
    split; [done |]. split; [done |]. intros j x y Hx. by rewrite lookup_nil in Hx.
  - cbn [for_each]. intros w Hw. unfold wp, bind.
    pose proof (Hf 0 x eq_refl w) as H0. rewrite Nat.add_0_r in H0.
    specialize (H0 Hw). unfold wp in H0.
    destruct (f lo x w) as [[e | y] w1]; [exact H0 |].
    destruct H0 as [Hw1 HR].
    assert (Hf' : forall j x0, l !! j = Some x0 ->
              hoare (I (S lo + j)) (f (S lo + j) x0)
                (fun y w => I (S (S lo + j)) w /\ R (S lo + j) x0 y) E).
    { intros j x0 Hj. specialize (Hf (S j) x0 Hj).
      by replace (lo + S j) with (S lo + j) in Hf by lia. }
    specialize (IH (S lo) Hf' w1 Hw1). unfold wp in IH.
    destruct (for_each (S lo) l f w1) as [[e | ys] w2]; [exact IH |].
    destruct IH as (Hw2 & Hlen & Hys). cbn.
    split; [by replace (lo + S (length l)) with (S lo + length l) by lia |].
    split; [by rewrite Hlen |].
    intros [| j] x0 y0 Hx0 Hy0; cbn in Hx0, Hy0.
    + injection Hx0 as <-. injection Hy0 as <-. by rewrite Nat.add_0_r.
    + replace (lo + S j) with (S lo + j) by lia. eauto.
Qed.

End HoareRules.

(** ** Rules for the operations on the world *)

Section WorldRules.

Context {Event ModelState : Type}.

Implicit Types (w : World Event ModelState).

Lemma wp_alloc v (Q : loc -> World Event ModelState -> Prop) E w :
  Q (length (heap w)) (with_heap (heap w ++ [v]) w) -> wp (alloc v) Q E w.
Proof. done. Qed.

Lemma wp_load l v (Q : ndarray float -> World Event ModelState -> Prop) E w :
  heap w !! l = Some v -> Q v w -> wp (load l) Q E w.
Proof. intros Hl HQ. unfold wp, load. by rewrite Hl. Qed.

Lemma wp_load_any l (Q : ndarray float -> World Event ModelState -> Prop)
    (E : exn -> World Event ModelState -> Prop) w :
  (forall v, heap w !! l = Some v -> Q v w) ->
  (heap w !! l = None -> forall e, E e w) ->
  wp (load l) Q E w.
Proof. intros HQ HE. unfold wp, load. destruct (heap w !! l); auto. Qed.

Lemma wp_store l v (Q : unit -> World Event ModelState -> Prop) E w :
  Q tt (with_heap (<[l := v]> (heap w)) w) -> wp (store l v) Q E w.
Proof. done. Qed.

Lemma wp_emit (ev : Event) (Q : unit -> World Event ModelState -> Prop) E w :
  Q tt (with_trace (trace w ++ [ev]) w) -> wp (emit ev) Q E w.
Proof. done. Qed.

Lemma wp_call_model {A} (f : ModelState -> result A * ModelState)
    (Q : A -> World Event ModelState -> Prop) E w :
  match f (model w) with
  | (inr a, s) => Q a (with_model s w)
  | (inl e, s) => E e (with_model s w)
  end ->
  wp (call_model f) Q E w.
Proof. unfold wp, call_model. by destruct (f (model w)) as [[e | a] s]. Qed.

End WorldRules.

(** ** Arrays *)

Section ArrayFacts.

Context {A : Type}.

Lemma length_chunks (k n : nat) (l : list A) : length (chunks k n l) = n.
Proof. revert l. induction n as [| n IH]; intros l; cbn; [done | by rewrite IH]. Qed.

Lemma chunks_length_each (k n : nat) (l : list A) :
  n * k <= length l -> Forall (fun c => length c = k) (chunks k n l).
Proof.
  revert l. induction n as [| n IH]; intros l Hl; cbn; constructor.
  - rewrite length_take. cbn in Hl. lia.
  - apply IH. rewrite length_drop. cbn in Hl. lia.
Qed.

Lemma concat_chunks (k n : nat) (l : list A) :
  length l <= n * k -> concat (chunks k n l) = l.
Proof.
  revert l. induction n as [| n IH]; intros l Hl; cbn.
  - destruct l; [done | cbn in Hl; lia].
  - rewrite IH; [apply take_drop |]. rewrite length_drop. cbn in Hl. lia.
Qed.

Lemma mapM_id_Some (f : list A -> option (list A)) (ls : list (list A)) :
  Forall (fun c => f c = Some c) ls -> mapM f ls = Some ls.
Proof.
  intros H. apply mapM_Some. induction H; constructor; auto.
Qed.

Lemma bcast_same (sh : list nat) :
  forall l : list A, length l = size_of sh -> bcast sh sh l = Some l.
Proof.
  induction sh as [| t sh IH]; intros l Hl; cbn; [done |].
  rewrite decide_True by done.
  unfold size_of in Hl. cbn in Hl. fold (size_of sh) in Hl.
  rewrite (mapM_id_Some (bcast sh sh)).
  - cbn. by rewrite concat_chunks by lia.
  - eapply Forall_impl; [apply chunks_length_each; lia |].
    intros c Hc. by apply IH.
Qed.

Lemma broadcast_to_same (a : ndarray A) :
  well_shaped a -> broadcast_to (shape a) a = Some (elems a).
Proof.
  intros Ha. unfold broadcast_to, ndim.
  rewrite decide_True by done. rewrite Nat.sub_diag. cbn.
  by apply bcast_same.
Qed.

End ArrayFacts.

Lemma broadcast_shapes_same (sh : list nat) : broadcast_shapes sh sh = Some sh.
Proof.
  induction sh as [| a sh IH]; cbn; [done |].
  rewrite IH. cbn. by rewrite decide_True.
Qed.

Lemma pad_shape_same (sh : list nat) : pad_shape (length sh) sh = sh.
Proof. unfold pad_shape. by rewrite Nat.sub_diag. Qed.

(** On operands of one shape a binary ufunc works element by element. *)
Lemma binary_ufunc_same_shape op (a b : ndarray float) :
  shape b = shape a -> well_shaped a -> well_shaped b ->
  binary_ufunc op a b = inr (NdArray (shape a) (zip_with op (elems a) (elems b))).
Proof.
  intros Hs Ha Hb. unfold binary_ufunc, ndim.
  rewrite Hs, Nat.max_id, pad_shape_same, broadcast_shapes_same.
  rewrite (broadcast_to_same a Ha).
  rewrite <- Hs, (broadcast_to_same b Hb). done.
Qed.

Lemma inplace_ufunc_same_shape op (a b : ndarray float) :
  shape b = shape a -> well_shaped b ->
  inplace_ufunc op a b = inr (NdArray (shape a) (zip_with op (elems a) (elems b))).
Proof.
  intros Hs Hb. unfold inplace_ufunc.
  by rewrite <- Hs, (broadcast_to_same b Hb), Hs.
Qed.

Lemma well_shaped_zeros_like (a : ndarray float) :
  well_shaped a -> well_shaped (zeros_like a).
Proof. unfold well_shaped, zeros_like. cbn. by rewrite length_replicate. Qed.

(** ** Accumulating and averaging *)

Lemma shape_foldl_accumulate (t : ndarray float) (gs : list (ndarray float)) :
  shape (foldl accumulate t gs) = shape t.
Proof. revert t. induction gs as [| g gs IH]; intros t; cbn; [done | by rewrite IH]. Qed.

Lemma inplace_add_accumulate (t g : ndarray float) :
  shape g = shape t -> well_shaped g ->
  inplace_ufunc Float32.add t g = inr (accumulate t g).
Proof. intros Hs Hw. by rewrite inplace_ufunc_same_shape. Qed.

Lemma fmap_const_replicate {A B} (c : B) (l : list A) :
  (fun _ => c) <$> l = replicate (length l) c.
Proof. induction l as [| x l IH]; cbn; [done | by rewrite IH]. Qed.

Lemma fmap_fixed {A} (f : A -> A) (l : list A) :
  Forall (fun x => f x = x) l -> f <$> l = l.
Proof. induction 1 as [| x l Hx _ IH]; cbn; [done | by rewrite Hx, IH]. Qed.

Lemma ndarray_eta {A} (a : ndarray A) : NdArray (shape a) (elems a) = a.
Proof. by destruct a. Qed.

(** Adding a constant gradient once more. *)
Lemma accumulate_copies (sh : list nat) (g : ndarray float) (k : nat) :
  accumulate (NdArray sh (repeat_add k <$> elems g)) g
  = NdArray sh (repeat_add (S k) <$> elems g).
Proof.
  unfold accumulate. cbn [shape elems]. f_equal.
  rewrite zip_with_fmap_l, zip_with_diag. done.
Qed.


(** ** The entry-by-entry descriptions *)

Lemma chunks_take_drop {A} (k n : nat) :
  forall (l : list A) (b : nat),
    chunks k n (drop (b * k) l) = (fun j => take k (drop (j * k) l)) <$> seq b n.
Proof.
  induction n as [| n IH]; intros l b; [done |].
  cbn [chunks seq fmap list_fmap]. f_equal.
  rewrite drop_drop. replace (b * k + k) with (S b * k) by lia. apply IH.
Qed.

Lemma rows_samples_of {A} (a : ndarray A) : rows a = samples_of a.
Proof.
  unfold rows, samples_of. destruct (shape a) as [| n sh]; [done |].
  cbn [tail hd]. fold (size_of sh).
  pose proof (chunks_take_drop (size_of sh) n (elems a) 0) as H.
  change (drop (0 * size_of sh) (elems a)) with (elems a) in H.
  rewrite H. by rewrite <- list_fmap_compose.
Qed.

Lemma elems_foldl_accumulate (gs : list (ndarray float)) :
  forall t : ndarray float,
    elems (foldl accumulate t gs)
    = foldl (fun acc g => zip_with Float32.add acc (elems g)) (elems t) gs.
Proof. induction gs as [| g gs IH]; intros t; [done |]. cbn. by rewrite IH. Qed.

Lemma mean_of_float32_mean (like : ndarray float) (gs : list (ndarray float)) (n : Z) :
  mean_of like gs n = float32_mean (shape like) (length (elems like)) gs n.
Proof.
  unfold mean_of, float32_mean, div_scalar.
  by rewrite shape_foldl_accumulate, elems_foldl_accumulate.
Qed.

Lemma add_abs_blocks_chunks (m c : nat) :
  forall acc xs : list float,
    foldl (zip_with Float32.add) acc (chunks m c (Float32.abs <$> xs))
    = add_abs_blocks m c acc xs.
Proof.
  induction c as [| c IH]; intros acc xs; [done |].
  cbn [chunks foldl add_abs_blocks].
  by rewrite <- fmap_take, <- fmap_drop, IH.
Qed.

(** Where the sum along the first axis is the sequential one. *)
Lemma abs_sum0_first_axis (vector_sum : list float -> float) (g : ndarray float) :
  (forall c rest, shape g = c :: rest -> c < 8 \/ foldr Nat.mul 1 rest <> 1) ->
  abs_sum0 vector_sum g = inr (abs_sum_first_axis (shape g) (elems g)).
Proof.
  intros Hseq. unfold abs_sum0, abs_sum_first_axis.
  destruct (shape g) as [| c rest]; [done |].
  rewrite decide_False.
  - fold (size_of rest). unfold abs_block_sums. by rewrite add_abs_blocks_chunks.
  - intros [Hone Hc]. destruct (Hseq c rest eq_refl) as [Hlt | Hne]; [lia | done].
Qed.

Lemma samples_of_shape {A} (a : ndarray A) (i : nat) (g : ndarray A) :
  samples_of a !! i = Some g -> shape g = tail (shape a).
Proof.
  unfold samples_of. rewrite list_lookup_fmap.
  destruct (seq 0 (hd 0 (shape a)) !! i) as [j |]; [| done]. by intros [= <-].
Qed.

Lemma getitem_samples_of {A} (a : ndarray A) (i : nat) (g : ndarray A) :
  getitem a i = inr g -> samples_of a !! i = Some g.
Proof.
  unfold getitem. rewrite rows_samples_of.
  destruct (samples_of a !! i) as [r |]; [| done]. by intros [= <-].
Qed.

Lemma shape_inplace_ufunc op (t g t' : ndarray float) :
  inplace_ufunc op t g = inr t' -> shape t' = shape t.
Proof.
  unfold inplace_ufunc. destruct (broadcast_to (shape t) g); [| done]. by intros [= <-].
Qed.

Lemma well_shaped_sum (a b : ndarray float) :
  shape b = shape a -> well_shaped a -> well_shaped b ->
  well_shaped (NdArray (shape a) (zip_with Float32.add (elems a) (elems b))).
Proof.
  unfold well_shaped. cbn. intros Hs Ha Hb. rewrite length_zip_with, Hb, Hs, Ha. lia.
Qed.

(** ** The reductions return on samples that have entries *)

Lemma reduce_trailing_total op (a : ndarray float) (n : nat) (sh : list nat) :
  shape a = n :: sh -> size_of sh <> 0 -> well_shaped a ->
  exists r, reduce_trailing op a = inr r /\ shape r = [n] /\ length (elems r) = n.
Proof.
  intros Hs Hnz Hw. unfold reduce_trailing. rewrite Hs.
  rewrite decide_False by exact Hnz.
  assert (Hlen : n * size_of sh <= length (elems a)).
  { unfold well_shaped in Hw. rewrite Hw, Hs. unfold size_of. cbn. lia. }
  pose proof (chunks_length_each (size_of sh) n (elems a) Hlen) as Hch.
  destruct (mapM _ (chunks (size_of sh) n (elems a))) as [xs |] eqn:Hm.
  - eexists. split; [done |]. split; [done |]. cbn.
    apply length_mapM in Hm. by rewrite <- Hm, length_chunks.
  - exfalso. apply mapM_None in Hm. apply Exists_exists in Hm as (c & Hc & Hnone).
    rewrite Forall_forall in Hch. specialize (Hch c Hc).
    destruct c as [| x c]; [cbn in Hch; lia | done].
Qed.

Lemma compute_stds_total noise_amount (data_v : ndarray float) (n : nat) (sh : list nat) :
  shape data_v = n :: sh -> size_of sh <> 0 -> well_shaped data_v ->
  exists stds, SmoothGradInterpreter.compute_stds noise_amount data_v = inr stds.
Proof.
  intros Hs Hnz Hw. unfold SmoothGradInterpreter.compute_stds.
  destruct (reduce_trailing_total Float32.maximum _ _ _ Hs Hnz Hw) as (mx & -> & Hsx & Hlx).
  destruct (reduce_trailing_total Float32.minimum _ _ _ Hs Hnz Hw) as (mn & -> & Hsn & Hln).
  rewrite binary_ufunc_same_shape; [by eexists | by rewrite Hsx, Hsn | |].
  - unfold well_shaped. rewrite Hsx, Hlx. unfold size_of. cbn. lia.
  - unfold well_shaped. rewrite Hsn, Hln. unfold size_of. cbn. lia.
Qed.
(** * SmoothGradInterpreter: proofs *)

Module SmoothGradProofs.
Import SmoothGradInterpreter SmoothGradSpec.

Lemma reduce_trailing_rows op (a r : ndarray float) (n : nat) (sh : list nat) :
  shape a = n :: sh -> reduce_trailing op a = inr r ->
  shape r = [n] /\ Forall2 (fun d x => reduce1 op (elems d) = inr x) (rows a) (elems r).
Proof.
  unfold reduce_trailing, rows. intros ->.
  destruct (decide (size_of sh = 0)); [done |].
  destruct (mapM _ _) as [xs |] eqn:Hm; [| done].
  intros [= <-]. split; [done |]. cbn.
  apply mapM_Some in Hm. apply Forall2_fmap_l.
  eapply Forall2_impl; [exact Hm |].
  intros c x Hc. cbn in *. destruct (reduce1 op c); by simplify_eq.
Qed.

Lemma rows_length {A} (a : ndarray A) (n : nat) (sh : list nat) :
  shape a = n :: sh -> length (rows a) = n.
Proof. unfold rows. intros ->. by rewrite length_fmap, length_chunks. Qed.

Lemma rows_shape {A} (a : ndarray A) (n : nat) (sh : list nat) (j : nat) d :
  shape a = n :: sh -> rows a !! j = Some d -> shape d = sh.
Proof.
  unfold rows. intros ->. rewrite list_lookup_fmap.
  destruct (chunks _ _ _ !! j); [| done]. by intros [= <-].
Qed.

Lemma rows_elems_length {A} (a : ndarray A) (n : nat) (sh : list nat) (j : nat) d :
  shape a = n :: sh -> well_shaped a -> rows a !! j = Some d ->
  length (elems d) = size_of sh.
Proof.
  unfold rows, well_shaped. intros -> Hw. rewrite list_lookup_fmap.
  destruct (chunks _ _ _ !! j) as [c |] eqn:Hc; [| done]. intros [= <-]. cbn.
  unfold size_of in Hw. cbn in Hw. fold (size_of sh) in Hw.
  pose proof (chunks_length_each (size_of sh) n (elems a)) as HF.
  rewrite Forall_lookup in HF. eapply HF; [lia | exact Hc].
Qed.

(** The scales are the per-sample ranges of the batch given, times
    [noise_amount]. *)
Lemma compute_stds_spec noise_amount (data_v stds : ndarray float) n sh :
  shape data_v = n :: sh ->
  compute_stds noise_amount data_v = inr stds ->
  shape stds = [n] /\ elems stds = sample_std noise_amount <$> rows data_v.
Proof.
  intros Hs. unfold compute_stds.
  destruct (reduce_trailing Float32.maximum data_v) as [| mx] eqn:Hmx; [done |].
  destruct (reduce_trailing Float32.minimum data_v) as [| mn] eqn:Hmn; [done |].
  destruct (reduce_trailing_rows _ _ _ _ _ Hs Hmx) as [Hsx Hx].
  destruct (reduce_trailing_rows _ _ _ _ _ Hs Hmn) as [Hsn Hn].
  pose proof (rows_length _ _ _ Hs) as Hlen.
  pose proof (Forall2_length _ _ _ Hx) as Hlx.
  pose proof (Forall2_length _ _ _ Hn) as Hln.
  rewrite binary_ufunc_same_shape; cycle 1.
  { by rewrite Hsx, Hsn. }
  { unfold well_shaped. rewrite Hsx. unfold size_of. cbn. lia. }
  { unfold well_shaped. rewrite Hsn. unfold size_of. cbn. lia. }
  intros [= <-]. cbn. split; [done |].
  clear Hlen Hlx Hln Hmx Hmn Hsx Hsn.
  revert Hn. generalize (elems mn). induction Hx as [| d x ds xs Hd Hx IH];
    intros ys Hn; inversion Hn as [| d' y ds' ys' Hd' Hn']; subst; [done |].
  cbn. f_equal; [| by apply IH].
  unfold sample_std. destruct (elems d) as [| e es]; [done |].
  cbn in Hd, Hd'. by simplify_eq.
Qed.


Lemma sum_unit_heads {A} (parts : list (ndarray A)) (sh : list nat) :
  Forall (fun p => shape p = 1 :: sh) parts ->
  sum_list (default 0 ∘ head ∘ shape <$> parts) = length parts.
Proof.
  induction 1 as [| p ps Hp _ IH]; [done |].
  cbn. rewrite Hp. cbn. by rewrite IH.
Qed.

Lemma concatenate_rows {A} (parts : list (ndarray A)) (sh : list nat) :
  parts <> [] -> Forall (fun p => shape p = 1 :: sh) parts ->
  concatenate parts = inr (NdArray (length parts :: sh) (concat (elems <$> parts))).
Proof.
  intros Hne HF. unfold concatenate.
  rewrite (sum_unit_heads parts sh HF).
  destruct parts as [| a parts']; [done |].
  pose proof (Forall_inv HF) as Ha. cbn in Ha. rewrite Ha.
  rewrite decide_True; [done |].
  eapply Forall_impl; [exact HF |]. intros p Hp. by rewrite Hp.
Qed.

Lemma length_concat_uniform {A} (ls : list (list A)) (k : nat) :
  Forall (fun l => length l = k) ls -> length (concat ls) = length ls * k.
Proof.
  induction 1 as [| l ls Hl _ IH]; [done |].
  cbn. rewrite length_app. lia.
Qed.

Section Proofs.

Context {Inputs SavePath Vis ModelState : Type}.
Variable C : @Collaborators Inputs SavePath Vis ModelState.

Abbreviation event := (@event Vis).
Abbreviation World := (@SmoothGradInterpreter.World Vis ModelState).

Implicit Types (w : World) (ld lt : loc) (data_v stds : ndarray float).

Lemma frame_refl w : frame w w.
Proof. by repeat split. Qed.

(** ** Drawing the noise *)

Lemma wp_np_random_normal (scale : float) (size : list nat)
    (Q : ndarray float -> World -> Prop) E w :
  (let w1 := with_trace (trace w ++ [NormalCall pos_zero scale size]) w in
   if signbit scale then E ValueError w1
   else Q (NdArray size
             ((fun i => normal_deviate scale (gauss w (gauss_pos w + i)))
                <$> seq 0 (size_of size)))
          (with_gauss_pos (gauss_pos w + size_of size) w1)) ->
  wp (np_random_normal scale size) Q E w.
Proof.
  unfold wp, np_random_normal, bind, emit, modify. cbn.
  by destruct (signbit scale).
Qed.

Lemma draw_events_lookup stds data_v (j : nat) s d :
  elems stds !! j = Some s -> rows data_v !! j = Some d ->
  draw_events stds data_v !! j = Some (NormalCall (Vis := Vis) pos_zero s (1 :: shape d)).
Proof.
  intros Hs Hd. unfold draw_events. rewrite lookup_zip_with, Hs. cbn. by rewrite Hd.
Qed.

(** One noise array: either it is drawn, with one call per sample and
    entries scaled by [stds], or a scale is missing or refused; nothing
    but the trace and the generator changes. *)
Lemma draw_noise_spec stds ld data_v (bsz : nat) (sshape : list nat) w0 :
  heap w0 !! ld = Some data_v ->
  shape data_v = bsz :: sshape ->
  wp (draw_noise stds ld)
    (fun noise w' =>
      frame w0 w' /\
      trace w' = trace w0 ++ draw_events stds data_v /\
      shape noise = shape data_v /\ well_shaped noise /\
      Forall (noise_entry stds (gauss w0)) (elems noise))
    (fun e w' =>
      frame w0 w' /\
      (exists evs, trace w' = trace w0 ++ evs /\ evs `prefix_of` draw_events stds data_v) /\
      ~ stds_ok bsz stds)
    w0.
Proof.
  intros Hld Hsh. unfold draw_noise.
  apply wp_bind. eapply wp_load; [exact Hld |].
  apply wp_bind, wp_lift. unfold iterate. rewrite Hsh.
  pose proof (rows_length _ _ _ Hsh) as Hrl.
  set (I := fun (j : nat) (w : World) =>
              frame w0 w /\ trace w = trace w0 ++ take j (draw_events stds data_v)).
  set (R := fun (j : nat) (d part : ndarray float) =>
              shape part = 1 :: sshape /\ length (elems part) = size_of sshape /\
              Forall (noise_entry stds (gauss w0)) (elems part)).
  set (E := fun (e : exn) (w : World) =>
              frame w0 w /\
              (exists evs, trace w = trace w0 ++ evs /\
                           evs `prefix_of` draw_events stds data_v) /\
              ~ stds_ok bsz stds).
  apply wp_bind.
  eapply wp_conseq; [apply (hoare_for_each I R E) with (lo := 0) | |].
  - intros j d Hd w (Hfr & Htr). cbn [Nat.add] in *.
    pose proof (lookup_lt_Some _ _ _ Hd) as Hj. rewrite Hrl in Hj.
    apply wp_bind, wp_lift. unfold item.
    destruct (elems stds !! j) as [s |] eqn:Hs.
    2: { split; [done |]. split.
         - eexists. split; [exact Htr |]. apply prefix_take.
         - intros (_ & Hlen & _). apply lookup_ge_None in Hs. lia. }
    apply wp_bind, wp_np_random_normal. cbn zeta.
    assert (Htake : trace w ++ [NormalCall pos_zero s (1 :: shape d)]
                    = trace w0 ++ take (S j) (draw_events stds data_v)).
    { rewrite Htr, <- app_assoc. f_equal.
      by rewrite (take_S_r _ _ _ (draw_events_lookup _ _ _ _ _ Hs Hd)). }
    destruct Hfr as (Hh & Hm & Hg).
    destruct (signbit s) eqn:Hsign.
    + split; [done |]. split.
      * eexists. split; [exact Htake |]. apply prefix_take.
      * intros (_ & _ & HF). rewrite Forall_lookup in HF.
        specialize (HF _ _ Hs). cbn in HF. congruence.
    + apply wp_ret. unfold map_array. cbn [shape elems].
      split; [done |].
      rewrite (rows_shape _ _ _ _ _ Hsh Hd).
      split; [done |]. split.
      * cbn [elems]. rewrite !length_fmap, length_seq. unfold size_of. cbn. lia.
      * cbn [elems]. rewrite Forall_fmap, Forall_fmap.
        apply Forall_forall. intros i _. cbn.
        exists s, (gauss_pos w + i). split; [| by rewrite Hg].
        eapply list_elem_of_lookup_2. exact Hs.
  - split; [apply frame_refl | by rewrite take_0, app_nil_r].
  - intros parts w1 ((Hfr & Htr) & Hlen & HR). cbn [Nat.add] in Htr, HR.
    assert (HF : Forall (fun p => shape p = 1 :: sshape /\
                           length (elems p) = size_of sshape /\
                           Forall (noise_entry stds (gauss w0)) (elems p)) parts).
    { apply Forall_lookup. intros j p Hp.
      destruct (rows data_v !! j) as [d |] eqn:Hd.
      - exact (HR j d p Hd Hp).
      - apply lookup_ge_None in Hd. apply lookup_lt_Some in Hp. lia. }
    rewrite Hrl in Hlen. apply wp_lift.
    destruct (decide (bsz = 0)) as [-> | Hnz].
    { destruct parts; [| done]. cbn. split; [done |]. split.
      - eexists. split; [exact Htr |]. apply prefix_take.
      - intros (? & _). lia. }
    rewrite (concatenate_rows parts sshape).
    + split; [done |]. split.
      { rewrite Htr. f_equal. apply take_ge. unfold draw_events.
        rewrite length_zip_with, Hrl. lia. }
      rewrite ?Hsh, Hlen. cbn [shape elems]. split; [done |]. split.
      * unfold well_shaped. cbn [shape elems]. unfold size_of at 1. cbn [foldr].
        fold (size_of sshape).
        rewrite (length_concat_uniform _ (size_of sshape)).
        -- by rewrite length_fmap, Hlen.
        -- apply Forall_fmap. eapply Forall_impl; [exact HF |]. by intros p (_ & ? & _).
      * apply Forall_concat, Forall_fmap.
        eapply Forall_impl; [exact HF |]. by intros p (_ & _ & ?).
    + destruct parts; [cbn in Hlen; lia | done].
    + eapply Forall_impl; [exact HF |]. by intros p (? & _).
  - done.
Qed.

(** ** One iteration of the sampling loop *)

Lemma draw_events_ok stds data_v (fixed : ndarray Z) lt :
  Forall (loop_event_ok stds data_v fixed lt) (@draw_events Vis stds data_v).
Proof.
  apply Forall_forall. intros ev Hev. pose proof Hev as Hev'.
  unfold draw_events in Hev'. apply list_elem_of_lookup in Hev' as [j Hj].
  apply lookup_zip_with_Some in Hj as (s & d & -> & _). exact Hev.
Qed.

Lemma sample_step_spec stds ld lt data_v (fixed : ndarray Z) (bsz : nat)
    (sshape : list nat) (i : nat) w0 :
  heap w0 !! ld = Some data_v ->
  shape data_v = bsz :: sshape ->
  ld < lt -> lt < length (heap w0) ->
  wp (sample_step C ld fixed stds lt i)
    (fun _ w' =>
      exists noise noised g pl pp t t',
        shape noise = shape data_v /\ well_shaped noise /\
        Forall (noise_entry stds (gauss w0)) (elems noise) /\
        binary_ufunc Float32.add data_v noise = inr noised /\
        predict_fn C (model w0) noised (Some fixed) = (inr (g, pl, pp), model w') /\
        heap w0 !! lt = Some t /\
        inplace_ufunc Float32.add t g = inr t' /\
        heap w' = <[lt := t']> (heap w0 ++ [noised]) /\
        gauss w' = gauss w0 /\
        trace w' = trace w0 ++ iteration_events stds data_v fixed (length (heap w0)) noised)
    (fun e w' =>
      (exists extra, heap w' = heap w0 ++ extra) /\
      gauss w' = gauss w0 /\
      (exists evs, trace w' = trace w0 ++ evs /\
                   Forall (loop_event_ok stds data_v fixed lt) evs) /\
      ~ step_can_run C stds data_v fixed lt bsz w0)
    w0.
Proof.
  intros Hld Hsh Hlt Hlen.
  pose proof (draw_events_ok stds data_v fixed lt) as Hdraws.
  unfold sample_step. apply wp_bind.
  eapply wp_conseq; [apply (draw_noise_spec stds ld data_v bsz sshape w0 Hld Hsh) | |].
  2: { intros e w1 ((Hh & Hm & Hg) & (evs & Htr & Hpre) & Hno).
       split; [exists []; by rewrite app_nil_r |]. split; [done |]. split.
       - exists evs. split; [done |]. destruct Hpre as [k Hk].
         rewrite Hk in Hdraws. by apply Forall_app in Hdraws as [? _].
       - intros [Hok _]. by apply Hno. }
  intros noise w1 ((Hh & Hm & Hg) & Htr & Hns & Hnw & Hne).
  apply wp_bind. eapply wp_load; [by rewrite Hh |].
  apply wp_bind, wp_lift.
  destruct (binary_ufunc Float32.add data_v noise) as [e | noised] eqn:Hadd.
  { split; [exists []; by rewrite app_nil_r |]. split; [done |]. split.
    - by exists (draw_events stds data_v).
    - intros [_ Hrun].
      destruct (Hrun noise Hns Hnw Hne) as (? & ? & ? & ? & ? & ? & ? & ? & _).
      by unify_runs. }
  apply wp_bind, wp_alloc. rewrite Hh.
  apply wp_bind. unfold call_predict_fn.
  apply wp_bind. eapply wp_load; [cbn; by apply list_lookup_middle |].
  apply wp_bind, wp_emit, wp_call_model.
  cbn [model with_heap with_trace trace]. rewrite Hm, Htr.
  destruct (predict_fn C (model w0) noised (Some fixed)) as [[e | [[g pl] pp]] s'] eqn:Hp.
  { cbn [heap gauss trace with_model with_trace with_heap].
    split; [by exists [noised] |]. split; [done |]. split.
    - eexists. split; [by rewrite <- app_assoc |].
      apply Forall_app. split; [done |]. by repeat constructor.
    - intros [_ Hrun].
      destruct (Hrun noise Hns Hnw Hne) as (? & ? & ? & ? & ? & ? & ? & ? & ? & _).
      by unify_runs. }
  unfold iadd. apply wp_bind.
  apply wp_load_any; cbn [heap gauss trace with_model with_trace with_heap].
  2: { intros Hnone. apply lookup_ge_None in Hnone. rewrite length_app in Hnone. lia. }
  intros t Ht. rewrite lookup_app_l in Ht by done.
  apply wp_bind, wp_lift.
  destruct (inplace_ufunc Float32.add t g) as [e | t'] eqn:Hi.
  { cbn [heap gauss trace with_model with_trace with_heap].
    split; [by exists [noised] |]. split; [done |]. split.
    - eexists. split; [by rewrite <- app_assoc |].
      apply Forall_app. split; [done |]. by repeat constructor.
    - intros [_ Hrun].
      destruct (Hrun noise Hns Hnw Hne) as (? & ? & ? & ? & ? & ? & ? & ? & ? & ? & ?).
      by unify_runs. }
  apply wp_store.
  cbn [heap gauss trace model with_model with_trace with_heap].
  exists noise, noised, g, pl, pp, t, t'.
  repeat (split; [done |]).
  unfold iteration_events. by rewrite <- app_assoc.
Qed.

Lemma iteration_events_ok stds data_v (fixed : ndarray Z) lt g (it : list event) :
  iteration_ok stds data_v fixed lt g it ->
  Forall (loop_event_ok stds data_v fixed lt) it.
Proof.
  intros (l & noised & -> & Hl & _). unfold iteration_events.
  apply Forall_app. split; [apply draw_events_ok |]. by repeat constructor.
Qed.

Lemma iterations_ok stds data_v (fixed : ndarray Z) lt g (its : list (list event)) :
  Forall (iteration_ok stds data_v fixed lt g) its ->
  Forall (loop_event_ok stds data_v fixed lt) (concat its).
Proof.
  intros H. apply Forall_concat. eapply Forall_impl; [exact H |].
  intros it. apply iteration_events_ok.
Qed.

(** ** The sampling loop

    [J k s t] is a property of the model state [s] and the accumulator
    [t] after [k] iterations; [F] says whether the iterations are known
    to complete. *)

Section Loop.

Variables (J : nat -> ModelState -> ndarray float -> Prop) (F : Prop).
Variables (stds data_v : ndarray float) (fixed : ndarray Z).
Variables (ld lt : loc) (bsz : nat) (sshape : list nat) (w1 : World).

#[local] Abbreviation loop_inv := (loop_inv stds data_v fixed lt w1).
#[local] Abbreviation loop_exc := (loop_exc stds data_v fixed lt w1).
Hypothesis Hld : heap w1 !! ld = Some data_v.
Hypothesis Hsh : shape data_v = bsz :: sshape.
Hypothesis Hlt : ld < lt.
Hypothesis Hlen : lt < length (heap w1).

Lemma loop_inv_data k w : loop_inv k w -> heap w !! ld = Some data_v.
Proof.
  intros (Htk & _). rewrite <- (lookup_take_lt (heap w) lt ld) by done.
  rewrite Htk. by rewrite lookup_take_lt.
Qed.

Lemma sampling_loop_spec (n : nat) :
  (F -> loop_can_run C J stds data_v fixed (gauss w1) bsz n /\
        exists t, heap w1 !! lt = Some t /\ J 0 (model w1) t) ->
  wp (for_range 0 n (sample_step C ld fixed stds lt))
    (fun _ w' => loop_inv n w' /\
                 (F -> exists t, heap w' !! lt = Some t /\ J n (model w') t))
    (fun _ w' => loop_exc w' /\ ~ F)
    w1.
Proof.
  intros HF.
  set (I := fun k w => loop_inv k w /\
                       (F -> exists t, heap w !! lt = Some t /\ J k (model w) t)).
  eapply wp_conseq;
    [apply (hoare_for_range I (fun _ w' => loop_exc w' /\ ~ F)) with (lo := 0) | done | done].
  2: { split; [| intros HF'; by destruct (HF HF') as (_ & ?)].
       repeat split; try done. exists []. by rewrite app_nil_r. }
  intros i Hik w [Hinv HJ].
  pose proof (loop_inv_data _ _ Hinv) as Hd.
  destruct Hinv as (Htk & Hle & Hg & its & Htr & Hits & Hok).
  eapply wp_conseq;
    [apply (sample_step_spec stds ld lt data_v fixed bsz sshape i w Hd Hsh Hlt); lia | |].
  - intros [] w' (noise & noised & g & pl & pp & t & t' &
                   Hns & Hnw & Hne & Hadd & Hp & Ht & Hi & Hh & Hg' & Htr').
    assert (Hnok : noised_ok stds data_v (gauss w1) noised).
    { exists noise. by rewrite <- Hg. }
    split; [repeat split |].
    + rewrite Hh, take_insert_ge by done. by rewrite take_app_le by lia.
    + rewrite Hh, length_insert, length_app. lia.
    + congruence.
    + exists (its ++ [iteration_events stds data_v fixed (length (heap w)) noised]).
      split; [| split].
      * rewrite Htr', Htr, concat_app. cbn. by rewrite app_nil_r, app_assoc.
      * rewrite length_app. cbn. lia.
      * apply Forall_app. split; [done |]. constructor; [| done].
        exists (length (heap w)), noised. split; [done |]. split; [lia | done].
    + intros HF'. destruct (HF HF') as (Hrun & _).
      destruct Hrun as (_ & _ & Hstep); [lia |].
      destruct (HJ HF') as (t0 & Ht0 & HJ0).
      destruct (Hstep i (model w) t0 noised ltac:(lia) HJ0 Hnok)
        as (g1 & pl1 & pp1 & s1 & t1 & Hp1 & Hi1 & HJ1).
      unify_runs. eexists. split; [| eassumption].
      rewrite Hh. apply list_lookup_insert_eq. rewrite length_app. lia.
  - intros e w' ((extra & Hh) & Hg' & (evs & Htr' & Hevs) & Hno).
    split; [repeat split |].
    + rewrite Hh. by rewrite take_app_le by lia.
    + rewrite Hh, length_app. lia.
    + congruence.
    + exists (concat its ++ evs). split; [by rewrite Htr', Htr, app_assoc |].
      apply Forall_app. split; [| done]. by eapply iterations_ok.
    + intros HF'. apply Hno. destruct (HF HF') as (Hrun & _).
      destruct Hrun as (Hstds & Hws & Hstep); [lia |].
      destruct (HJ HF') as (t0 & Ht0 & HJ0).
      split; [done |]. intros noise Hns Hnw Hne.
      pose proof (binary_ufunc_same_shape Float32.add data_v noise Hns Hws Hnw) as Hadd.
      assert (Hnok : noised_ok stds data_v (gauss w1) (NdArray (shape data_v)
                       (zip_with Float32.add (elems data_v) (elems noise)))).
      { exists noise. by rewrite <- Hg. }
      destruct (Hstep i (model w) t0 _ ltac:(lia) HJ0 Hnok)
        as (g1 & pl1 & pp1 & s1 & t1 & Hp1 & Hi1 & _).
      by eexists _, g1, pl1, pp1, s1, t0, t1.
Qed.

End Loop.

Lemma loop_event_run_ok noise_amount stds data_v (fixed : ndarray Z) lt n sh
    (ev : event) :
  compute_stds noise_amount data_v = inr stds ->
  shape data_v = n :: sh ->
  loop_event_ok stds data_v fixed lt ev ->
  run_event_ok noise_amount data_v fixed lt ev.
Proof.
  intros Hc Hs. destruct (compute_stds_spec _ _ _ _ _ Hs Hc) as [_ He].
  destruct ev as [l v lab | m s sz | v | p v]; cbn; try done.
  intros Hin. unfold draw_events in Hin.
  apply list_elem_of_lookup in Hin as [j Hj].
  apply lookup_zip_with_Some in Hj as (s' & d & [= -> -> ->] & Hs' & Hd).
  exists j, d. repeat split; try done.
  rewrite He, list_lookup_fmap, Hd in Hs'. by injection Hs' as <-.
Qed.

(** ** The block under [# SmoothGrad] *)

Section SmoothGradBlock.

Variables (J : nat -> ModelState -> ndarray float -> Prop) (F : Prop).
Variables (noise_amount : float) (n_samples : Z).
Variables (stds data_v : ndarray float) (fixed : ndarray Z).
Variables (ld : loc) (bsz : nat) (sshape : list nat) (w1 : World).

Hypothesis Hld : heap w1 !! ld = Some data_v.
Hypothesis Hsh : shape data_v = bsz :: sshape.

Lemma smooth_grad_spec :
  (F -> compute_stds noise_amount data_v = inr stds /\
        loop_can_run C J stds data_v fixed (gauss w1) bsz (Z.to_nat n_samples) /\
        J 0 (model w1) (zeros_like data_v)) ->
  wp (smooth_grad C ld fixed noise_amount n_samples)
    (fun avg w' =>
       exists stds' t,
         compute_stds noise_amount data_v = inr stds' /\
         take (length (heap w1)) (heap w') = heap w1 /\
         heap w' !! length (heap w1) = Some t /\
         length (heap w1) < avg /\
         heap w' !! avg = Some (div_scalar t (Float32.of_int n_samples)) /\
         gauss w' = gauss w1 /\
         (exists its,
            trace w' = trace w1 ++ concat its /\ length its = Z.to_nat n_samples /\
            Forall (iteration_ok stds' data_v fixed (length (heap w1)) (gauss w1)) its) /\
         (F -> J (Z.to_nat n_samples) (model w') t))
    (fun _ w' =>
       take (length (heap w1)) (heap w') = heap w1 /\
       gauss w' = gauss w1 /\
       (exists evs, trace w' = trace w1 ++ evs /\
                    Forall (run_event_ok noise_amount data_v fixed (length (heap w1))) evs) /\
       ~ F)
    w1.
Proof.
  intros HF. pose proof (lookup_lt_Some _ _ _ Hld) as Hlt.
  unfold smooth_grad.
  apply wp_bind. eapply wp_load; [exact Hld |].
  apply wp_bind, wp_lift.
  destruct (compute_stds noise_amount data_v) as [e | stds'] eqn:Hc.
  { split; [by apply take_ge |]. split; [done |]. split.
    - exists []. by rewrite app_nil_r.
    - intros HF'. by destruct (HF HF') as (? & _). }
  apply wp_bind. eapply wp_load; [exact Hld |].
  apply wp_bind, wp_alloc.
  set (w1' := with_heap (heap w1 ++ [zeros_like data_v]) w1).
  apply wp_bind.
  eapply wp_conseq;
    [apply (sampling_loop_spec J F stds' data_v fixed ld (length (heap w1)) bsz sshape w1'
              ltac:(cbn; by rewrite lookup_app_l) Hsh Hlt
              ltac:(cbn; rewrite length_app; cbn; lia) (Z.to_nat n_samples))
    | |].
  - intros HF'. destruct (HF HF') as (Hc' & Hrun & HJ0).
    assert (stds' = stds) as -> by congruence.
    split; [done |].
    exists (zeros_like data_v). split; [| done]. cbn. by apply list_lookup_middle.
  - intros [] w2 [(Htk & Hle & Hg & its & Htr & Hits & Hok) HJ].
    subst w1'. cbn [heap gauss trace with_heap model] in Htk, Hle, Hg, Htr, Hok.
    rewrite take_app_length in Htk. rewrite length_app in Hle. cbn in Hle.
    apply wp_bind, wp_load_any.
    2: { intros Hnone. apply lookup_ge_None in Hnone. lia. }
    intros t Ht. apply wp_bind, wp_alloc, wp_ret.
    exists stds', t. cbn [heap gauss trace with_heap model].
    split; [done |].
    split; [by rewrite take_app_le by lia |].
    split; [by rewrite lookup_app_l by lia |].
    split; [lia |].
    split; [by apply list_lookup_middle |].
    split; [done |].
    split; [by exists its |].
    intros HF'. destruct (HJ HF') as (t' & Ht' & HJ'). by simplify_eq.
  - intros e w2 [(Htk & Hle & Hg & evs & Htr & Hevs) Hno].
    subst w1'. cbn [heap gauss trace with_heap] in Htk, Hle, Hg, Htr.
    rewrite take_app_length in Htk.
    split; [done |]. split; [done |]. split; [| done].
    exists evs. split; [done |].
    eapply Forall_impl; [exact Hevs |]. intros ev.
    by apply (loop_event_run_ok _ _ _ _ _ _ _ _ Hc Hsh).
Qed.

End SmoothGradBlock.

(** ** The visualization block *)

Lemma vis_frame_refl w : vis_frame w w.
Proof. repeat split. exists []. by rewrite app_nil_r. Qed.

Lemma vis_frame_emit w w' (ev : event) :
  vis_frame w w' -> is_vis_event ev ->
  vis_frame w (with_trace (trace w' ++ [ev]) w').
Proof.
  intros (Hh & Hm & Hg & Hl & evs & Htr & Hevs) Hev. repeat split; try done.
  exists (evs ++ [ev]). cbn. split; [by rewrite Htr, app_assoc |].
  apply Forall_app. split; [done |]. by constructor.
Qed.

Lemma visualize_step_spec imgs (avg : loc) (visual : bool)
    (save_path : list (option string)) (i : nat) w :
  hoare (vis_frame w) (visualize_step C imgs avg visual save_path i)
    (fun _ => vis_frame w) (fun _ => vis_frame w).
Proof.
  intros w' Hw'. unfold visualize_step.
  apply wp_bind, wp_lift. destruct (getitem imgs i) as [e | img]; [done |].
  apply wp_bind, wp_load_any; [| done]. intros a _.
  apply wp_bind, wp_lift. destruct (getitem a i) as [e | g]; [done |].
  apply wp_bind, wp_lift. destruct (abs_sum0 _ g) as [e | s]; [done |].
  apply wp_bind, wp_lift. destruct (explanation_to_vis C img s) as [e | v]; [done |].
  apply wp_bind.
  apply wp_conseq with (Q' := fun _ => vis_frame w) (E' := fun _ => vis_frame w);
    [| | done].
  { destruct visual; [| by apply wp_ret].
    apply wp_bind, wp_emit, wp_lift.
    destruct (show_vis_explanation C v) as [e | []]; by apply vis_frame_emit. }
  intros [] w'' Hw''.
  destruct (save_path !! i) as [[p |] |]; [| by apply wp_ret | by apply wp_raise].
  apply wp_bind, wp_emit, wp_lift.
  destruct (save_image C p v) as [e | []]; by apply vis_frame_emit.
Qed.

Lemma visualize_spec imgs (avg : loc) (bsz : nat) (visual : bool)
    (save_path : option SavePath) w :
  wp (visualize C imgs avg bsz visual save_path)
    (fun _ => vis_frame w) (fun _ => vis_frame w) w.
Proof.
  unfold visualize. apply wp_if; intros _.
  { apply wp_ret, vis_frame_refl. }
  apply wp_bind, wp_lift.
  destruct (preprocess_save_path C save_path bsz) as [e | paths];
    [apply vis_frame_refl |].
  eapply wp_conseq;
    [apply (hoare_for_range (fun _ => vis_frame w) (fun _ => vis_frame w)) with (lo := 0)
    | done | done].
  - intros i _. apply visualize_step_spec.
  - apply vis_frame_refl.
Qed.

(** ** A whole call *)

Section Run.

Variables (J : nat -> ModelState -> ndarray float -> Prop) (F : Prop).
Variables (inputs : Inputs) (labels : option (ndarray Z)) (noise_amount : float)
          (n_samples : Z) (resize_to : Z) (crop_to : option Z) (visual : bool)
          (save_path : option SavePath).
Variables (w0 : World) (imgs : ndarray Z) (data_v : ndarray float)
          (bsz : nat) (sshape : list nat).
Variables (s1 s2 : ModelState) (g0 : ndarray float) (pl : ndarray Z)
          (pp : ndarray float) (fixed : ndarray Z) (stds : ndarray float).

(** The pipeline delivers the batch; the baseline call returns and its
    labels, or the caller's, fit the batch. *)
Hypothesis Hpipe :
  images_transform_pipeline C inputs resize_to crop_to = inr (imgs, data_v).
Hypothesis Hsh : shape data_v = bsz :: sshape.
Hypothesis Hbuild : _build_predict_fn C (model w0) = (inr tt, s1).
Hypothesis Hbase : predict_fn C s1 data_v labels = (inr (g0, pl, pp), s2).
Hypothesis Hfixed :
  reshape1 (match labels with None => pl | Some l => l end) bsz = inr fixed.

#[local] Abbreviation ld := (length (heap w0)).
#[local] Abbreviation lt := (S (length (heap w0))).

Lemma interpret_spec :
  (F -> compute_stds noise_amount data_v = inr stds /\
        loop_can_run C J stds data_v fixed (gauss w0) bsz (Z.to_nat n_samples) /\
        J 0 s2 (zeros_like data_v) /\
        (forall k s t, J k s t -> shape t = shape data_v) /\
        visualization_succeeds C imgs bsz visual save_path (shape data_v)) ->
  wp (interpret C inputs labels noise_amount n_samples resize_to crop_to visual save_path)
    (fun avg w' =>
       exists stds' t its vis_evs,
         compute_stds noise_amount data_v = inr stds' /\
         run_frame w0 data_v w' /\
         heap w' !! lt = Some t /\ lt < avg /\
         heap w' !! avg = Some (div_scalar t (Float32.of_int n_samples)) /\
         trace w' = trace w0 ++ PredictCall ld data_v labels :: concat its ++ vis_evs /\
         length its = Z.to_nat n_samples /\
         Forall (iteration_ok stds' data_v fixed lt (gauss w0)) its /\
         Forall is_vis_event vis_evs /\
         self_labels w' = Some fixed /\
         (F -> J (Z.to_nat n_samples) (model w') t))
    (fun _ w' =>
       run_frame w0 data_v w' /\
       (exists evs vis_evs,
          trace w' = trace w0 ++ PredictCall ld data_v labels :: evs ++ vis_evs /\
          Forall (run_event_ok noise_amount data_v fixed lt) evs /\
          Forall is_vis_event vis_evs) /\
       ~ F)
    w0.
Proof.
  intros HF. unfold interpret.
  apply wp_bind, wp_lift. rewrite Hpipe.
  apply wp_bind, wp_alloc.
  apply wp_bind. eapply wp_load; [cbn; by apply list_lookup_middle |].
  apply wp_bind, wp_lift. unfold len. rewrite Hsh.
  apply wp_bind. unfold call_build_predict_fn. apply wp_call_model.
  cbn [model with_heap]. rewrite Hbuild.
  apply wp_bind. unfold obtain_labels.
  apply wp_bind. unfold call_predict_fn.
  apply wp_bind. eapply wp_load; [cbn; by apply list_lookup_middle |].
  apply wp_bind, wp_emit, wp_call_model.
  cbn [model with_heap with_trace with_model]. rewrite Hbase.
  apply wp_bind, wp_modify, wp_bind, wp_modify, wp_lift. rewrite Hfixed.
  cbn [trace heap with_heap with_model].
  set (w1 := set_predicted_proba pp _).
  assert (Hh1 : heap w1 = heap w0 ++ [data_v]) by done.
  assert (Hg1 : gauss w1 = gauss w0) by done.
  assert (Hm1 : model w1 = s2) by done.
  assert (Ht1 : trace w1 = trace w0 ++ [PredictCall ld data_v labels]) by done.
  assert (Hl1 : length (heap w1) = lt) by (rewrite Hh1, length_app; cbn; lia).
  clearbody w1.
  apply wp_bind.
  eapply wp_conseq;
    [apply (smooth_grad_spec J F noise_amount n_samples stds data_v fixed ld bsz sshape w1)
    | |].
  - rewrite Hh1. by apply list_lookup_middle.
  - done.
  - intros HF'. destruct (HF HF') as (? & ? & ? & _).
    rewrite Hg1, Hm1. done.
  - intros avg w2 (stds' & t & Hc & Htk & Ht & Hlt & Havg & Hg2 & (its & Htr & Hits & Hok) & HJ).
    rewrite Hl1 in Htk, Ht, Hlt, Hok. rewrite Hg1 in Hg2, Hok.
    pose proof (visualize_spec imgs avg bsz visual save_path w2) as Hvis.
    apply wp_bind. unfold wp in Hvis |- *.
    destruct (visualize C imgs avg bsz visual save_path w2) as [[e | []] w3] eqn:Hv.
    + destruct Hvis as (Hh3 & Hm3 & Hg3 & _ & vis_evs & Htr3 & Hvs).
      split; [split; [rewrite Hh3, Htk; done | congruence] |]. split.
      * exists (concat its), vis_evs. split; [| split; [| done]].
        -- rewrite Htr3, Htr, Ht1, <- !app_assoc. done.
        -- eapply Forall_impl; [by eapply iterations_ok |]. intros ev.
           by apply (loop_event_run_ok _ _ _ _ _ _ _ _ Hc Hsh).
      * intros HF'. destruct (HF HF') as (_ & _ & _ & HJs & Hsucc).
        pose proof (HJs _ _ _ (HJ HF')) as Hst.
        destruct (Hsucc avg w2 _ Havg Hst) as (w3' & Hrun). congruence.
    + destruct Hvis as (Hh3 & Hm3 & Hg3 & Hl3 & vis_evs & Htr3 & Hvs).
      cbn. exists stds', t, its, vis_evs.
      split; [done |].
      split; [split; cbn [heap gauss set_labels]; [rewrite Hh3, Htk; done | congruence] |].
      split; [by rewrite Hh3 |]. split; [done |].
      split; [by rewrite Hh3 |].
      split; [rewrite Htr3, Htr, Ht1, <- !app_assoc; done |].
      split; [done |]. split; [done |]. split; [done |]. split; [done |].
      intros HF'. rewrite Hm3. by apply HJ.
  - intros e w2 (Htk & Hg2 & (evs & Htr & Hevs) & Hno).
    rewrite Hl1 in Htk, Hevs.
    split; [split; [by rewrite Htk, Hh1 | congruence] |]. split; [| done].
    exists evs, []. rewrite app_nil_r.
    split; [by rewrite Htr, Ht1, <- app_assoc |]. split; [done | constructor].
Qed.

End Run.

(** ** Leaving before the sampling block *)

Lemma interpret_early (inputs : Inputs) (labels : option (ndarray Z))
    (noise_amount : float) (n_samples resize_to : Z) (crop_to : option Z)
    (visual : bool) (save_path : option SavePath) (w0 : World)
    (imgs : ndarray Z) (data_v : ndarray float) :
  images_transform_pipeline C inputs resize_to crop_to = inr (imgs, data_v) ->
  wp (interpret C inputs labels noise_amount n_samples resize_to crop_to visual save_path)
    (fun _ _ => labels_resolved C w0 data_v labels)
    (fun e w' => labels_resolved C w0 data_v labels \/
                 left_early C w0 data_v labels e w')
    w0.
Proof.
  intros Hpipe. unfold interpret.
  apply wp_bind, wp_lift. rewrite Hpipe.
  apply wp_bind, wp_alloc.
  apply wp_bind. eapply wp_load; [cbn; by apply list_lookup_middle |].
  apply wp_bind, wp_lift. unfold len.
  destruct (shape data_v) as [| bsz sshape] eqn:Hsh.
  { right. split; [done |]. split; [done |]. split; [by left |].
    intros; exfalso; congruence. }
  apply wp_bind. unfold call_build_predict_fn. apply wp_call_model.
  cbn [model with_heap].
  destruct (_build_predict_fn C (model w0)) as [[e | []] s1] eqn:Hb.
  { right. split; [done |]. split; [done |]. split; [by left |].
    intros; exfalso; congruence. }
  apply wp_bind. unfold obtain_labels.
  apply wp_bind. unfold call_predict_fn.
  apply wp_bind. eapply wp_load; [cbn; by apply list_lookup_middle |].
  apply wp_bind, wp_emit, wp_call_model.
  cbn [model with_heap with_trace with_model].
  destruct (predict_fn C s1 data_v labels) as [[e | [[g0 pl] pp]] s2] eqn:Hp.
  { right. split; [done |]. split; [done |]. split; [by right |].
    intros; exfalso; congruence. }
  apply wp_bind, wp_modify, wp_bind, wp_modify, wp_lift.
  destruct (reshape1 (match labels with None => pl | Some l => l end) bsz)
    as [e | fixed] eqn:Hr.
  { right. split; [done |]. split; [done |]. split; [by right |].
    intros bsz' sshape' s1' g0' pl' pp' s2' Hsh' Hb' Hp'. split; [| done].
    unfold reshape1 in Hr. destruct (decide _); by simplify_eq. }
  assert (Hres : labels_resolved C w0 data_v labels).
  { by exists bsz, sshape, s1, g0, pl, pp, s2, fixed. }
  apply wp_any; auto.
Qed.

(** ** Reading the trace *)

Lemma predict_calls_app (t1 t2 : list event) :
  predict_calls (t1 ++ t2) = predict_calls t1 ++ predict_calls t2.
Proof. apply omap_app. Qed.

Lemma normal_calls_app (t1 t2 : list event) :
  normal_calls (t1 ++ t2) = normal_calls t1 ++ normal_calls t2.
Proof. apply omap_app. Qed.

Lemma predict_calls_cons l v lab (t : list event) :
  predict_calls (PredictCall l v lab :: t) = (l, v, lab) :: predict_calls t.
Proof. done. Qed.

Lemma normal_calls_cons_predict l v lab (t : list event) :
  normal_calls (PredictCall l v lab :: t) = normal_calls t.
Proof. done. Qed.

Lemma vis_events_calls (evs : list event) :
  Forall is_vis_event evs -> predict_calls evs = [] /\ normal_calls evs = [].
Proof.
  induction 1 as [| ev evs Hev _ [IHp IHn]]; [done |].
  destruct ev; cbn in Hev |- *; done.
Qed.

Lemma draw_events_predict_calls stds data_v :
  predict_calls (@draw_events Vis stds data_v) = [].
Proof.
  unfold draw_events. generalize (rows data_v).
  induction (elems stds) as [| s ss IH]; intros [| d ds]; cbn; try done.
  apply IH.
Qed.

Lemma draw_events_normal_calls noise_amount stds data_v n sh :
  shape data_v = n :: sh ->
  compute_stds noise_amount data_v = inr stds ->
  normal_calls (@draw_events Vis stds data_v) =
  (fun d => (pos_zero, sample_std noise_amount d, 1 :: shape d)) <$> rows data_v.
Proof.
  intros Hs Hc. destruct (compute_stds_spec _ _ _ _ _ Hs Hc) as [_ He].
  unfold draw_events. rewrite He. clear He.
  induction (rows data_v) as [| d ds IH]; [done |].
  cbn. f_equal. exact IH.
Qed.

Lemma run_events_predict_calls noise_amount data_v (fixed : ndarray Z) lt
    (evs : list event) :
  Forall (run_event_ok noise_amount data_v fixed lt) evs ->
  Forall (fun c => lt < c.1.1 /\ c.2 = Some fixed) (predict_calls evs).
Proof.
  induction 1 as [| ev evs Hev _ IH]; [constructor |].
  destruct ev; cbn in Hev |- *; try done. by constructor.
Qed.

Lemma run_events_normal_calls noise_amount data_v (fixed : ndarray Z) lt
    (evs : list event) :
  Forall (run_event_ok noise_amount data_v fixed lt) evs ->
  Forall (fun c => exists j d, rows data_v !! j = Some d /\
                               c = (pos_zero, sample_std noise_amount d, 1 :: shape d))
         (normal_calls evs).
Proof.
  induction 1 as [| ev evs Hev _ IH]; [constructor |].
  destruct ev; cbn in Hev |- *; try done. constructor; [| done].
  destruct Hev as (j & d & Hd & -> & -> & ->). by exists j, d.
Qed.

Lemma iterations_predict_calls stds data_v (fixed : ndarray Z) lt g
    (its : list (list event)) :
  Forall (iteration_ok stds data_v fixed lt g) its ->
  length (predict_calls (concat its)) = length its /\
  Forall (fun c => lt < c.1.1 /\ noised_ok stds data_v g c.1.2 /\ c.2 = Some fixed)
         (predict_calls (concat its)).
Proof.
  induction 1 as [| it its (l & noised & -> & Hl & Hn) _ [IHl IHf]]; [by split |].
  cbn [concat]. unfold iteration_events.
  rewrite !predict_calls_app, draw_events_predict_calls. cbn.
  split; [by rewrite IHl |]. by constructor.
Qed.

Lemma iterations_normal_calls noise_amount stds data_v (fixed : ndarray Z) lt g n sh
    (its : list (list event)) :
  shape data_v = n :: sh ->
  compute_stds noise_amount data_v = inr stds ->
  Forall (iteration_ok stds data_v fixed lt g) its ->
  normal_calls (concat its) =
  concat (replicate (length its)
            ((fun d => (pos_zero, sample_std noise_amount d, 1 :: shape d))
               <$> rows data_v)).
Proof.
  intros Hs Hc.
  induction 1 as [| it its (l & noised & -> & Hl & Hn) _ IH]; [done |].
  cbn [concat length replicate]. unfold iteration_events.
  rewrite !normal_calls_app, (draw_events_normal_calls _ _ _ _ _ Hs Hc), IH.
  cbn. by rewrite app_nil_r.
Qed.

(** ** Noise of scale zero *)

Lemma zero_scale_deviate (z : float) :
  is_finite z = true ->
  Float32.of_float64 (normal_deviate pos_zero z) = pos_zero.
Proof. destruct z as [[] | [] | | [] m e]; intros Hz; try done. Qed.

Lemma add_pos_zero (x : float) :
  x <> S754_zero true -> Float32.add x pos_zero = x.
Proof. destruct x as [[] | [] | | [] m e]; intros Hx; try done. Qed.

Lemma zip_add_zeros (xs ys : list float) :
  length ys = length xs ->
  Forall (fun x => x <> S754_zero true) xs ->
  Forall (fun y => y = pos_zero) ys ->
  zip_with Float32.add xs ys = xs.
Proof.
  revert ys. induction xs as [| x xs IH]; intros [| y ys] Hl Hx Hy; try done.
  inversion Hx; inversion Hy; subst. cbn.
  rewrite add_pos_zero by done. f_equal. apply IH; auto.
Qed.

(** With every scale [+0.0], finite deviates and no negative zero in
    the batch, the only batch the loop can pass on is the batch. *)
Lemma zero_noise_noised (stds data_v noised : ndarray float) (g : nat -> float) :
  Forall (fun s => s = pos_zero) (elems stds) ->
  (forall i, is_finite (g i) = true) ->
  well_shaped data_v ->
  Forall (fun x => x <> S754_zero true) (elems data_v) ->
  noised_ok stds data_v g noised -> noised = data_v.
Proof.
  intros Hz Hfin Hws Hnz (noise & Hns & Hnw & Hne & Hadd).
  rewrite binary_ufunc_same_shape in Hadd by done. injection Hadd as <-.
  rewrite zip_add_zeros; [apply ndarray_eta | | done |].
  - unfold well_shaped in *. congruence.
  - eapply Forall_impl; [exact Hne |].
    intros x (s & i & Hs & ->). rewrite Forall_forall in Hz.
    rewrite (Hz s Hs). by apply zero_scale_deviate.
Qed.

(** ** The claims on [SmoothGradInterpreter.interpret] *)

Section Claims.

Variables (inputs : Inputs) (labels : option (ndarray Z)) (noise_amount : float)
          (n_samples : Z) (resize_to : Z) (crop_to : option Z) (visual : bool)
          (save_path : option SavePath).
Variables (w0 : World) (imgs : ndarray Z) (data_v : ndarray float).

#[local] Abbreviation run :=
  (interpret C inputs labels noise_amount n_samples resize_to crop_to visual save_path w0).

(** What holds of every run that got through the labels block. *)
Lemma interpret_any_run (bsz : nat) (sshape : list nat) (s1 s2 : ModelState)
    (g0 : ndarray float) (pl : ndarray Z) (pp : ndarray float) (fixed : ndarray Z)
    res w' :
  images_transform_pipeline C inputs resize_to crop_to = inr (imgs, data_v) ->
  shape data_v = bsz :: sshape ->
  _build_predict_fn C (model w0) = (inr tt, s1) ->
  predict_fn C s1 data_v labels = (inr (g0, pl, pp), s2) ->
  reshape1 (match labels with None => pl | Some l => l end) bsz = inr fixed ->
  run = (res, w') ->
  run_frame w0 data_v w' /\
  exists evs vis_evs,
    trace w' = trace w0 ++ PredictCall (length (heap w0)) data_v labels :: evs ++ vis_evs /\
    Forall (run_event_ok noise_amount data_v fixed (S (length (heap w0)))) evs /\
    Forall is_vis_event vis_evs /\
    forall avg, res = inr avg ->
      exists stds t its,
        compute_stds noise_amount data_v = inr stds /\
        evs = concat its /\ length its = Z.to_nat n_samples /\
        Forall (iteration_ok stds data_v fixed (S (length (heap w0))) (gauss w0)) its /\
        heap w' !! S (length (heap w0)) = Some t /\ S (length (heap w0)) < avg /\
        heap w' !! avg = Some (div_scalar t (Float32.of_int n_samples)).
Proof.
  intros Hpipe Hsh Hbuild Hbase Hfixed Hrun.
  pose proof (interpret_spec (fun _ _ _ => True) False inputs labels noise_amount
                n_samples resize_to crop_to visual save_path w0 imgs data_v bsz sshape
                s1 s2 g0 pl pp fixed data_v Hpipe Hsh Hbuild Hbase Hfixed
                ltac:(done)) as Hspec.
  unfold wp in Hspec. rewrite Hrun in Hspec. destruct res as [e | avg].
  - destruct Hspec as (Hfr & (evs & vis_evs & Htr & Hevs & Hvs) & _).
    split; [done |]. exists evs, vis_evs. by repeat split.
  - destruct Hspec as (stds & t & its & vis_evs & Hc & Hfr & Ht & Hlt & Havg & Htr
                       & Hits & Hok & Hvs & _).
    split; [done |]. exists (concat its), vis_evs.
    split; [done |]. split.
    { eapply Forall_impl; [by eapply iterations_ok |]. intros ev.
      by apply (loop_event_run_ok _ _ _ _ _ _ _ _ Hc Hsh). }
    split; [done |]. intros avg' [= <-]. by exists stds, t, its.
Qed.

(** C3. Once the call on the unperturbed batch has returned and the
    labels (the caller's if given, else the predicted ones) have been
    shaped to the batch, giving [fixed], the [predict_fn] calls of the
    run are that first call, on the batch with the caller's labels,
    followed by calls that all receive [fixed]; a run that returns has
    made exactly [n_samples] of them. *)
Theorem labels_fixed_across_samples (bsz : nat) (sshape : list nat)
    (s1 s2 : ModelState) (g0 : ndarray float) (pl : ndarray Z) (pp : ndarray float)
    (fixed : ndarray Z) res w' :
  images_transform_pipeline C inputs resize_to crop_to = inr (imgs, data_v) ->
  shape data_v = bsz :: sshape ->
  _build_predict_fn C (model w0) = (inr tt, s1) ->
  predict_fn C s1 data_v labels = (inr (g0, pl, pp), s2) ->
  reshape1 (match labels with None => pl | Some l => l end) bsz = inr fixed ->
  run = (res, w') ->
  exists evs noisy,
    trace w' = trace w0 ++ evs /\
    predict_calls evs = (length (heap w0), data_v, labels) :: noisy /\
    Forall (fun c => c.2 = Some fixed) noisy /\
    forall avg, res = inr avg -> length noisy = Z.to_nat n_samples.
Proof.
  intros Hpipe Hsh Hbuild Hbase Hfixed Hrun.
  destruct (interpret_any_run _ _ _ _ _ _ _ _ _ _ Hpipe Hsh Hbuild Hbase Hfixed Hrun)
    as (_ & evs & vis_evs & Htr & Hevs & Hvs & Hret).
  destruct (vis_events_calls _ Hvs) as [Hvp _].
  eexists _, (predict_calls evs). split; [exact Htr |].
  split; [| split].
  - by rewrite predict_calls_cons, predict_calls_app, Hvp, app_nil_r.
  - eapply Forall_impl; [by eapply run_events_predict_calls |]. by intros c [_ ?].
  - intros avg Havg.
    destruct (Hret avg Havg) as (stds & t & its & _ & -> & Hits & Hok & _).
    destruct (iterations_predict_calls _ _ _ _ _ _ Hok) as [Hlen _]. congruence.
Qed.

(** Every [np.random.normal] call of a run, returning or not, has mean
    [0.0], the scale of some sample [d] of the batch the pipeline
    delivered and the size [(1,) + d.shape]. *)
Lemma draws_of_any_run res w' :
  images_transform_pipeline C inputs resize_to crop_to = inr (imgs, data_v) ->
  run = (res, w') ->
  exists evs,
    trace w' = trace w0 ++ evs /\
    Forall (fun c => exists j d, rows data_v !! j = Some d /\
                       c = (pos_zero, sample_std noise_amount d, 1 :: shape d))
           (normal_calls evs) /\
    forall avg, res = inr avg ->
      normal_calls evs =
      concat (replicate (Z.to_nat n_samples)
                ((fun d => (pos_zero, sample_std noise_amount d, 1 :: shape d))
                   <$> rows data_v)).
Proof.
  intros Hpipe Hrun.
  pose proof (interpret_early inputs labels noise_amount n_samples resize_to crop_to
                visual save_path w0 imgs data_v Hpipe) as Hearly.
  unfold wp in Hearly. rewrite Hrun in Hearly.
  assert (Hcases : labels_resolved C w0 data_v labels \/
                   exists e, res = inl e /\ left_early C w0 data_v labels e w').
  { destruct res as [e | avg]; [| by left].
    destruct Hearly as [? | ?]; [by left | right; by exists e]. }
  clear Hearly. destruct Hcases as [Hres | (e & -> & _ & _ & Htr & _)].
  - destruct Hres as (bsz & sshape & s1 & g0 & pl & pp & s2 & fixed
                      & Hsh & Hbuild & Hbase & Hfixed).
    destruct (interpret_any_run _ _ _ _ _ _ _ _ _ _ Hpipe Hsh Hbuild Hbase Hfixed Hrun)
      as (_ & evs & vis_evs & Htr & Hevs & Hvs & Hret).
    destruct (vis_events_calls _ Hvs) as [_ Hvn].
    eexists. split; [exact Htr |].
    rewrite normal_calls_cons_predict, normal_calls_app, Hvn, app_nil_r. split.
    + by eapply run_events_normal_calls.
    + intros avg Havg.
      destruct (Hret avg Havg) as (stds & t & its & Hc & -> & Hits & Hok & _).
      rewrite <- Hits. by eapply iterations_normal_calls.
  - destruct Htr as [Htr | Htr].
    + exists []. rewrite app_nil_r. by repeat split.
    + eexists. split; [exact Htr |]. by repeat split.
Qed.


(** C9. In every run the arrays that existed before the call and the
    batch the pipeline delivered, stored right after them, are at the
    end what they were; every [predict_fn] call is either on the batch
    itself, unchanged, or on an array allocated after the accumulator;
    and the explanation returned is an array of its own, allocated after
    the accumulator, which still holds the sum the explanation was
    divided from. *)
Theorem batch_never_modified res w' :
  images_transform_pipeline C inputs resize_to crop_to = inr (imgs, data_v) ->
  run = (res, w') ->
  take (S (length (heap w0))) (heap w') = heap w0 ++ [data_v] /\
  (exists evs,
     trace w' = trace w0 ++ evs /\
     Forall (fun c => c.1 = (length (heap w0), data_v) \/ S (length (heap w0)) < c.1.1)
            (predict_calls evs)) /\
  forall avg, res = inr avg ->
    S (length (heap w0)) < avg /\
    exists t, heap w' !! S (length (heap w0)) = Some t /\
              heap w' !! avg = Some (div_scalar t (Float32.of_int n_samples)).
Proof.
  intros Hpipe Hrun.
  pose proof (interpret_early inputs labels noise_amount n_samples resize_to crop_to
                visual save_path w0 imgs data_v Hpipe) as Hearly.
  unfold wp in Hearly. rewrite Hrun in Hearly.
  assert (Hcases : labels_resolved C w0 data_v labels \/
                   exists e, res = inl e /\ left_early C w0 data_v labels e w').
  { destruct res as [e | avg]; [| by left].
    destruct Hearly as [? | ?]; [by left | right; by exists e]. }
  clear Hearly. destruct Hcases as [Hres | (e & -> & Hh & _ & Htr & _)].
  - destruct Hres as (bsz & sshape & s1 & g0 & pl & pp & s2 & fixed
                      & Hsh & Hbuild & Hbase & Hfixed).
    destruct (interpret_any_run _ _ _ _ _ _ _ _ _ _ Hpipe Hsh Hbuild Hbase Hfixed Hrun)
      as ([Hfr _] & evs & vis_evs & Htr & Hevs & Hvs & Hret).
    destruct (vis_events_calls _ Hvs) as [Hvp _].
    split; [done |]. split.
    + eexists. split; [exact Htr |].
      rewrite predict_calls_cons, predict_calls_app, Hvp, app_nil_r.
      constructor; [by left |].
      eapply Forall_impl; [by eapply run_events_predict_calls |].
      intros c [? _]. by right.
    + intros avg Havg.
      destruct (Hret avg Havg) as (stds & t & its & _ & _ & _ & _ & Ht & Hlt & Ha).
      split; [done |]. by exists t.
  - split; [rewrite Hh; apply take_ge; rewrite length_app; cbn; lia |].
    split; [| done].
    destruct Htr as [Htr | Htr].
    + exists []. rewrite app_nil_r. split; [done | constructor].
    + eexists. split; [exact Htr |]. cbn. constructor; [by left | constructor].
Qed.

(** C8, as amended. When the number of entries of the labels the caller
    gives ([np.array(labels).size], whatever their length and shape)
    differs from the batch size, the call raises: no [predict_fn] call
    is made beyond the one on the unperturbed batch, and if that one
    returns the exception is the [ValueError] of reshaping the labels to
    [(bsz,)]. *)
Theorem mismatched_labels_rejected (l : ndarray Z) (bsz : nat) (sshape : list nat) :
  images_transform_pipeline C inputs resize_to crop_to = inr (imgs, data_v) ->
  shape data_v = bsz :: sshape ->
  length (elems l) <> bsz ->
  exists e w',
    interpret C inputs (Some l) noise_amount n_samples resize_to crop_to visual
      save_path w0 = (inl e, w') /\
    (exists evs,
       trace w' = trace w0 ++ evs /\
       (predict_calls evs = [] \/
        predict_calls evs = [(length (heap w0), data_v, Some l)])) /\
    forall s1 g0 pl pp s2,
      _build_predict_fn C (model w0) = (inr tt, s1) ->
      predict_fn C s1 data_v (Some l) = (inr (g0, pl, pp), s2) ->
      e = ValueError.
Proof.
  intros Hpipe Hsh Hne.
  pose proof (interpret_early inputs (Some l) noise_amount n_samples resize_to crop_to
                visual save_path w0 imgs data_v Hpipe) as Hearly.
  unfold wp in Hearly.
  assert (Hno : ~ labels_resolved C w0 data_v (Some l)).
  { intros (bsz' & sshape' & s1 & g0 & pl & pp & s2 & fixed & Hsh' & _ & _ & Hr).
    rewrite Hsh in Hsh'. injection Hsh' as <- <-.
    unfold reshape1 in Hr. by destruct (decide _). }
  destruct (interpret C inputs (Some l) noise_amount n_samples resize_to crop_to
              visual save_path w0) as [[e | avg] w']; [| done].
  destruct Hearly as [? | (Hh & _ & Htr & Hval)]; [done |].
  exists e, w'. split; [done |]. split.
  - destruct Htr as [Htr | Htr].
    + exists []. rewrite app_nil_r. split; [done | by left].
    + eexists. split; [exact Htr |]. by right.
  - intros s1 g0 pl pp s2 Hb Hp. by destruct (Hval _ _ _ _ _ _ _ Hsh Hb Hp).
Qed.

(** What holds of a run whose iterations are known to complete. *)
Lemma interpret_returns (J : nat -> ModelState -> ndarray float -> Prop)
    (bsz : nat) (sshape : list nat) (s1 s2 : ModelState)
    (g0 : ndarray float) (pl : ndarray Z) (pp : ndarray float) (fixed : ndarray Z)
    (stds : ndarray float) :
  images_transform_pipeline C inputs resize_to crop_to = inr (imgs, data_v) ->
  shape data_v = bsz :: sshape ->
  _build_predict_fn C (model w0) = (inr tt, s1) ->
  predict_fn C s1 data_v labels = (inr (g0, pl, pp), s2) ->
  reshape1 (match labels with None => pl | Some l => l end) bsz = inr fixed ->
  compute_stds noise_amount data_v = inr stds ->
  loop_can_run C J stds data_v fixed (gauss w0) bsz (Z.to_nat n_samples) ->
  J 0 s2 (zeros_like data_v) ->
  (forall k s t, J k s t -> shape t = shape data_v) ->
  visualization_succeeds C imgs bsz visual save_path (shape data_v) ->
  exists avg w' t its vis_evs,
    run = (inr avg, w') /\
    heap w' !! avg = Some (div_scalar t (Float32.of_int n_samples)) /\
    J (Z.to_nat n_samples) (model w') t /\
    trace w' = trace w0 ++ PredictCall (length (heap w0)) data_v labels
                 :: concat its ++ vis_evs /\
    length its = Z.to_nat n_samples /\
    Forall (iteration_ok stds data_v fixed (S (length (heap w0))) (gauss w0)) its /\
    Forall is_vis_event vis_evs.
Proof.
  intros Hpipe Hsh Hbuild Hbase Hfixed Hstds Hloop HJ0 HJs Hvis.
  pose proof (interpret_spec J True inputs labels noise_amount
                n_samples resize_to crop_to visual save_path w0 imgs data_v bsz sshape
                s1 s2 g0 pl pp fixed stds Hpipe Hsh Hbuild Hbase Hfixed
                ltac:(done)) as Hspec.
  unfold wp in Hspec.
  destruct run as [[e | avg] w'].
  { by destruct Hspec as (_ & _ & Hno). }
  destruct Hspec as (stds' & t & its & vis_evs & Hc & _ & _ & _ & Havg & Htr
                     & Hits & Hok & Hvs & _ & HJ).
  assert (stds' = stds) as -> by congruence.
  exists avg, w', t, its, vis_evs. repeat split; auto.
Qed.

(** C4. For a batch that is not empty, of samples that have entries,
    scales that [np.random.normal] accepts, a gradient function that
    returns gradients shaped like the batch and a visualization that
    does not raise, the call returns and its [np.random.normal] calls
    are, in each of the [n_samples] iterations, one per sample [d] of
    the batch the pipeline delivered, in order, with mean [0.0], the
    scale [noise_amount * (max(d) - min(d))] over all the entries of
    [d] (in [float32]) and the size [(1,) + d.shape]: the same scales
    in every iteration, those of the unperturbed samples. *)
Theorem noise_scale_of_original_batch (bsz : nat) (sshape : list nat)
    (s1 s2 : ModelState) (g0 : ndarray float) (pl : ndarray Z) (pp : ndarray float)
    (fixed : ndarray Z) :
  (1 <= n_samples < 2 ^ 63)%Z ->
  images_transform_pipeline C inputs resize_to crop_to = inr (imgs, data_v) ->
  shape data_v = bsz :: sshape ->
  0 < bsz ->
  size_of sshape <> 0 ->
  well_shaped data_v ->
  _build_predict_fn C (model w0) = (inr tt, s1) ->
  predict_fn C s1 data_v labels = (inr (g0, pl, pp), s2) ->
  reshape1 (match labels with None => pl | Some l => l end) bsz = inr fixed ->
  Forall (fun d => signbit (sample_std noise_amount d) = false) (samples_of data_v) ->
  (forall s v,
     shape v = shape data_v -> well_shaped v ->
     exists g pl' pp' s',
       predict_fn C s v (Some fixed) = (inr (g, pl', pp'), s') /\
       shape g = shape data_v /\ well_shaped g) ->
  visualization_succeeds C imgs bsz visual save_path (shape data_v) ->
  exists avg w' evs,
    run = (inr avg, w') /\
    trace w' = trace w0 ++ evs /\
    normal_calls evs =
      concat (replicate (Z.to_nat n_samples)
                ((fun d => (pos_zero, sample_std noise_amount d, 1 :: shape d))
                   <$> samples_of data_v)).
Proof.
  intros _ Hpipe Hsh Hbsz Hnz Hws Hbuild Hbase Hfixed Hsign Hgrad Hvis.
  destruct (compute_stds_total noise_amount data_v bsz sshape Hsh Hnz Hws)
    as [stds Hstds].
  destruct (compute_stds_spec _ _ _ _ _ Hsh Hstds) as [_ Hse].
  destruct (interpret_returns (fun _ _ t => shape t = shape data_v) bsz sshape s1 s2 g0
              pl pp fixed stds Hpipe Hsh Hbuild Hbase Hfixed Hstds)
    as (avg & w' & t & its & vis_evs & Hrun & _ & _ & Htr & Hits & Hok & Hvs).
  - intros _. split; [| split; [done |]].
    + split; [done |]. rewrite Hse. split.
      * by rewrite length_fmap, (rows_length _ _ _ Hsh).
      * apply Forall_fmap. by rewrite rows_samples_of.
    + intros k s t noised _ Ht (noise & Hns & Hnw & Hne & Hadd).
      rewrite binary_ufunc_same_shape in Hadd by done. injection Hadd as <-.
      destruct (Hgrad s
                  (NdArray (shape data_v)
                     (zip_with Float32.add (elems data_v) (elems noise)))
                  eq_refl (well_shaped_sum _ _ Hns Hws Hnw))
        as (g & pl' & pp' & s' & Hp & Hgs & Hgw).
      eexists g, pl', pp', s', _. split; [exact Hp |]. split.
      * apply inplace_add_accumulate; [congruence | done].
      * done.
  - done.
  - done.
  - done.
  - destruct (vis_events_calls _ Hvs) as [_ Hvn].
    exists avg, w'. eexists. split; [done |]. split; [exact Htr |].
    rewrite normal_calls_cons_predict, normal_calls_app, Hvn, app_nil_r.
    rewrite (iterations_normal_calls _ _ _ _ _ _ _ _ _ Hsh Hstds Hok).
    by rewrite Hits, rows_samples_of.
Qed.

(** C1, as amended. For a batch that is not empty, a gradient function
    that returns the same gradient [g], shaped like the batch, on every
    call, scales that [np.random.normal] accepts, a visualization that
    does not raise and [1 <= n_samples < 2^63], the call returns,
    whatever the noise, the array whose entries are those of [g] added
    [n_samples] times to [0.0] and divided by [n_samples], in
    [float32]; this is [g] itself when that arithmetic is exact on
    every entry of [g]. *)
Theorem constant_gradient_average (g : ndarray float)
    (bsz : nat) (sshape : list nat) (s1 s2 : ModelState)
    (pl : ndarray Z) (pp : ndarray float) (fixed : ndarray Z)
    (stds : ndarray float) :
  (1 <= n_samples < 2 ^ 63)%Z ->
  images_transform_pipeline C inputs resize_to crop_to = inr (imgs, data_v) ->
  shape data_v = bsz :: sshape ->
  well_shaped data_v ->
  _build_predict_fn C (model w0) = (inr tt, s1) ->
  predict_fn C s1 data_v labels = (inr (g, pl, pp), s2) ->
  reshape1 (match labels with None => pl | Some l => l end) bsz = inr fixed ->
  (forall s v l, exists pl' pp' s', predict_fn C s v l = (inr (g, pl', pp'), s')) ->
  shape g = shape data_v ->
  well_shaped g ->
  compute_stds noise_amount data_v = inr stds ->
  stds_ok bsz stds ->
  visualization_succeeds C imgs bsz visual save_path (shape data_v) ->
  exists avg w',
    run = (inr avg, w') /\
    heap w' !! avg = Some (NdArray (shape g) (average_of_copies n_samples <$> elems g)) /\
    (Forall (fun x => average_of_copies n_samples x = x) (elems g) ->
     heap w' !! avg = Some g).
Proof.
  intros _ Hpipe Hsh Hws Hbuild Hbase Hfixed Hstub Hgs Hgw Hstds Hok Hvis.
  set (J := fun (k : nat) (_ : ModelState) (t : ndarray float) =>
              t = NdArray (shape data_v) (repeat_add k <$> elems g)).
  destruct (interpret_returns J bsz sshape s1 s2 g pl pp fixed stds
              Hpipe Hsh Hbuild Hbase Hfixed Hstds)
    as (avg & w' & t & its & vis_evs & Hrun & Havg & HJ & _); subst J.
  - intros _. split; [done |]. split; [done |].
    intros k s t noised _ -> _.
    destruct (Hstub s noised (Some fixed)) as (pl' & pp' & s' & Hp).
    eexists g, pl', pp', s', _. split; [exact Hp |]. split.
    + by apply inplace_add_accumulate.
    + cbn beta. by rewrite accumulate_copies.
  - unfold zeros_like. cbn. f_equal. rewrite fmap_const_replicate. f_equal.
    unfold well_shaped in *. congruence.
  - by intros k s t ->.
  - done.
  - cbn beta in HJ. subst t.
    assert (Heq : div_scalar (NdArray (shape data_v)
                                (repeat_add (Z.to_nat n_samples) <$> elems g))
                    (Float32.of_int n_samples)
                  = NdArray (shape g) (average_of_copies n_samples <$> elems g)).
    { unfold div_scalar. cbn [shape elems]. rewrite Hgs. f_equal.
      by rewrite <- list_fmap_compose. }
    rewrite Heq in Havg. exists avg, w'. split; [done |]. split; [done |].
    intros Hexact. rewrite Havg. f_equal.
    rewrite (fmap_fixed _ _ Hexact). apply ndarray_eta.
Qed.

(** C2, as amended. For [n_samples <= 0] nothing is rejected: once the
    labels block is through and the scales are computed, the loop body
    never runs, the only [predict_fn] call is the one on the unperturbed
    batch, and the call returns the zero accumulator divided by
    [n_samples]. *)
Theorem nonpositive_samples_not_rejected
    (bsz : nat) (sshape : list nat) (s1 s2 : ModelState)
    (g0 : ndarray float) (pl : ndarray Z) (pp : ndarray float) (fixed : ndarray Z)
    (stds : ndarray float) :
  (n_samples <= 0)%Z ->
  images_transform_pipeline C inputs resize_to crop_to = inr (imgs, data_v) ->
  shape data_v = bsz :: sshape ->
  _build_predict_fn C (model w0) = (inr tt, s1) ->
  predict_fn C s1 data_v labels = (inr (g0, pl, pp), s2) ->
  reshape1 (match labels with None => pl | Some l => l end) bsz = inr fixed ->
  compute_stds noise_amount data_v = inr stds ->
  visualization_succeeds C imgs bsz visual save_path (shape data_v) ->
  exists avg w' vis_evs,
    run = (inr avg, w') /\
    heap w' !! avg =
      Some (NdArray (shape data_v)
              (replicate (length (elems data_v))
                 (Float32.div pos_zero (Float32.of_int n_samples)))) /\
    trace w' = trace w0 ++ PredictCall (length (heap w0)) data_v labels :: vis_evs /\
    Forall is_vis_event vis_evs.
Proof.
  intros Hn Hpipe Hsh Hbuild Hbase Hfixed Hstds Hvis.
  set (J := fun (_ : nat) (_ : ModelState) (t : ndarray float) => t = zeros_like data_v).
  destruct (interpret_returns J bsz sshape s1 s2 g0 pl pp fixed stds
              Hpipe Hsh Hbuild Hbase Hfixed Hstds)
    as (avg & w' & t & its & vis_evs & Hrun & Havg & HJ & Htr & Hits & _ & Hvs); subst J.
  - intros Hpos. lia.
  - done.
  - by intros k s t ->.
  - done.
  - cbn beta in HJ. subst t.
    replace (Z.to_nat n_samples) with 0 in Hits by lia.
    destruct its; [| done]. cbn in Htr.
    exists avg, w', vis_evs. split; [done |]. split; [| done].
    rewrite Havg. unfold div_scalar, zeros_like. cbn [shape elems].
    by rewrite fmap_replicate.
Qed.

(** C7, as amended. For [noise_amount] the positive zero ([0] or [0.0],
    not [-0.0]) and [n_samples < 2^63], when the scales computed from
    the batch are all [+0.0] (each range [max - min] is finite), the
    deviates are finite and the batch holds no negative zero, every
    batch given to [predict_fn] in the loop is the batch itself, and the
    call returns the [float32] mean of [n_samples] evaluations of the
    gradient function on the unperturbed batch with the fixed labels:
    their entries added, one evaluation after the other, to [0.0], then
    divided by [n_samples]. *)
Theorem zero_noise_average (bsz : nat) (sshape : list nat) (s1 s2 : ModelState)
    (g0 : ndarray float) (pl : ndarray Z) (pp : ndarray float) (fixed : ndarray Z)
    (stds : ndarray float) :
  noise_amount = pos_zero ->
  (n_samples < 2 ^ 63)%Z ->
  images_transform_pipeline C inputs resize_to crop_to = inr (imgs, data_v) ->
  shape data_v = bsz :: sshape ->
  0 < bsz ->
  well_shaped data_v ->
  Forall (fun x => x <> S754_zero true) (elems data_v) ->
  _build_predict_fn C (model w0) = (inr tt, s1) ->
  predict_fn C s1 data_v labels = (inr (g0, pl, pp), s2) ->
  reshape1 (match labels with None => pl | Some l => l end) bsz = inr fixed ->
  compute_stds noise_amount data_v = inr stds ->
  Forall (fun s => s = pos_zero) (elems stds) ->
  (forall i, is_finite (gauss w0 i) = true) ->
  (forall s, exists g pl' pp' s',
     predict_fn C s data_v (Some fixed) = (inr (g, pl', pp'), s') /\
     shape g = shape data_v /\ well_shaped g) ->
  visualization_succeeds C imgs bsz visual save_path (shape data_v) ->
  exists avg w' evs noisy,
    run = (inr avg, w') /\
    trace w' = trace w0 ++ evs /\
    predict_calls evs = (length (heap w0), data_v, labels) :: noisy /\
    length noisy = Z.to_nat n_samples /\
    Forall (fun c => c.1.2 = data_v /\ c.2 = Some fixed) noisy /\
    heap w' !! avg =
      Some (float32_mean (shape data_v) (length (elems data_v))
              (replay C (Z.to_nat n_samples) data_v fixed s2) n_samples).
Proof.
  intros Hna _ Hpipe Hsh Hbsz Hws Hnz Hbuild Hbase Hfixed Hstds Hzero Hfin Hgrad Hvis.
  set (J := fun (k : nat) (s : ModelState) (t : ndarray float) =>
              exists gs, t = foldl accumulate (zeros_like data_v) gs /\
                         forall m, replay C (k + m) data_v fixed s2
                                   = gs ++ replay C m data_v fixed s).
  destruct (interpret_returns J bsz sshape s1 s2 g0 pl pp fixed stds
              Hpipe Hsh Hbuild Hbase Hfixed Hstds)
    as (avg & w' & t & its & vis_evs & Hrun & Havg & HJ & Htr & Hits & Hok & Hvs);
    subst J.
  - intros _. split; [| split; [done |]].
    + split; [done |]. split.
      * destruct (compute_stds_spec _ _ _ _ _ Hsh Hstds) as [_ ->].
        by rewrite length_fmap, (rows_length _ _ _ Hsh).
      * eapply Forall_impl; [exact Hzero |]. by intros s ->.
    + intros k s t noised _ (gs & -> & Hrep) Hnok.
      rewrite (zero_noise_noised _ _ _ _ Hzero Hfin Hws Hnz Hnok).
      destruct (Hgrad s) as (g & pl' & pp' & s' & Hp & Hgs & Hgw).
      eexists g, pl', pp', s', _. split; [exact Hp |]. split.
      * apply inplace_add_accumulate; [| done].
        by rewrite shape_foldl_accumulate.
      * exists (gs ++ [g]). split; [by rewrite foldl_app |].
        intros m. replace (S k + m) with (k + S m) by lia.
        rewrite Hrep. cbn [replay]. rewrite Hp. by rewrite <- app_assoc.
  - by exists [].
  - intros k s t (gs & -> & _). by rewrite shape_foldl_accumulate.
  - done.
  - destruct HJ as (gs & -> & Hrep). specialize (Hrep 0).
    rewrite Nat.add_0_r in Hrep. cbn [replay] in Hrep. rewrite app_nil_r in Hrep.
    destruct (vis_events_calls _ Hvs) as [Hvp _].
    destruct (iterations_predict_calls _ _ _ _ _ _ Hok) as [Hlen Hcalls].
    exists avg, w'. eexists _, (predict_calls (concat its)).
    split; [done |]. split; [exact Htr |].
    split; [by rewrite predict_calls_cons, predict_calls_app, Hvp, app_nil_r |].
    split; [congruence |]. split.
    + eapply Forall_impl; [exact Hcalls |]. intros c (_ & Hnok & Hlab).
      split; [| done]. by apply (zero_noise_noised _ _ _ _ Hzero Hfin Hws Hnz).
    + rewrite Havg, Hrep. f_equal. apply mean_of_float32_mean.
Qed.

End Claims.

End Proofs.

End SmoothGradProofs.

(** * SmoothGradNLPInterpreter: proofs *)

Module SmoothGradNLPProofs.
Import SmoothGradNLPInterpreter SmoothGradNLPSpec SmoothGradNLPBehaviour.

Section Proofs.

Context {Aux ModelState : Type}.
Variable C : @Collaborators Aux ModelState.

Abbreviation event := (@event).
Abbreviation World := (@SmoothGradNLPInterpreter.World ModelState).

Implicit Types (w : World) (mi : list pyobj).

(** ** The block that builds the model input *)

Lemma input_frame_emit w w' (ev : event) :
  input_frame w w' -> is_input_event ev ->
  input_frame w (with_trace (trace w' ++ [ev]) w').
Proof.
  intros (Hh & Hm & ev0 & evs & Htr & Hevs) Hev. repeat split; try done.
  exists ev0, (evs ++ [ev]). cbn. split; [by rewrite Htr, <- app_assoc |].
  rewrite app_comm_cons. apply Forall_app. split; [done |]. by constructor.
Qed.

Lemma input_frame_first w (ev : event) :
  is_input_event ev -> input_frame w (with_trace (trace w ++ [ev]) w).
Proof. intros Hev. repeat split. exists ev, []. split; [done |]. by constructor. Qed.

Lemma text_to_model_input_spec (raw_text : string) (tokenizer : option Tokenizer)
    (text_to_input_fn : option TextToInput) (max_seq_len : Z) w :
  wp (text_to_model_input (ModelState := ModelState) raw_text tokenizer
        text_to_input_fn max_seq_len)
    (fun mi w' =>
       input_frame w w' /\
       forall f x, tokenizer = None -> text_to_input_fn = Some f ->
                   f raw_text = inr x -> py_tuple x = inr mi)
    (fun _ w' => input_frame w w')
    w.
Proof.
  unfold text_to_model_input.
  assert (Htuple : forall x w',
            input_frame w w' ->
            (forall f x', tokenizer = None -> text_to_input_fn = Some f ->
                          f raw_text = inr x' -> x' = x) ->
            wp (if is_iterable x && negb (has_shape x)
                then lift (py_tuple x) else lift (py_tuple x))
              (fun mi w'' =>
                 input_frame w w'' /\
                 forall f x', tokenizer = None -> text_to_input_fn = Some f ->
                              f raw_text = inr x' -> py_tuple x' = inr mi)
              (fun _ w'' => input_frame w w'') w').
  { intros x w' Hfr Hx.
    assert (Hl : wp (lift (py_tuple x))
                   (fun mi w'' =>
                      input_frame w w'' /\
                      forall f x', tokenizer = None -> text_to_input_fn = Some f ->
                                   f raw_text = inr x' -> py_tuple x' = inr mi)
                   (fun _ w'' => input_frame w w'') w').
    { apply wp_lift. destruct (py_tuple x) as [e | mi] eqn:Hpt; [done |].
      split; [done |]. intros f x' Ht Hf Hfx. by rewrite (Hx f x' Ht Hf Hfx). }
    by destruct (is_iterable x && negb (has_shape x)). }
  apply wp_bind.
  destruct tokenizer as [tok |].
  - apply wp_ret. apply wp_bind. unfold tokenizer_to_input_fn.
    apply wp_bind, wp_emit, wp_bind, wp_lift.
    destruct (tok raw_text max_seq_len) as [e | enc].
    { by apply input_frame_first. }
    apply wp_ret. apply Htuple; [by apply input_frame_first | done].
  - apply wp_bind. unfold print. apply wp_emit, wp_ret.
    apply wp_bind. unfold call_text_to_input_fn.
    destruct text_to_input_fn as [f |].
    2: { apply wp_raise. by apply input_frame_first. }
    apply wp_bind, wp_emit, wp_lift.
    destruct (f raw_text) as [e | x] eqn:Hf.
    { apply input_frame_emit; [by apply input_frame_first | done]. }
    apply Htuple.
    + apply input_frame_emit; [by apply input_frame_first | done].
    + intros f' x' _ [= <-] Hf'. congruence.
Qed.

(** ** The sampling loop *)

Section Loop.

Variables (J : nat -> ModelState -> ndarray float -> Prop) (F : Prop).
Variables (mi : list pyobj) (lab : ndarray Z) (noise_amount : float).
Variables (lt : loc) (w1 : World).

#[local] Abbreviation loop_inv := (loop_inv J F mi lab noise_amount lt w1).
#[local] Abbreviation loop_exc := (loop_exc F mi lab noise_amount lt w1).

Hypothesis Hlt : lt < length (heap w1).

Lemma nlp_sampling_loop_spec (n : nat) :
  (F -> step_ok C J mi lab noise_amount n /\
        exists t, heap w1 !! lt = Some t /\ J 0 (model w1) t) ->
  wp (for_range 0 n (sample_step C mi lab noise_amount lt))
    (fun _ => loop_inv n) (fun _ => loop_exc) w1.
Proof.
  intros HF.
  eapply wp_conseq;
    [apply (hoare_for_range loop_inv (fun _ => loop_exc)) with (lo := 0) | done | done].
  2: { repeat split; try done; [by rewrite app_nil_r |].
       intros HF'. by destruct (HF HF') as (_ & ?). }
  intros i Hik w (Hlen & Htk & Htr & HJ).
  assert (Htr' : trace w ++ [PredictCall mi (Some lab) (Some noise_amount)]
                 = trace w1 ++ replicate (S i)
                                 (PredictCall mi (Some lab) (Some noise_amount))).
  { by rewrite Htr, replicate_S_end, app_assoc. }
  unfold sample_step. apply wp_bind. unfold call_predict_fn.
  apply wp_bind, wp_emit, wp_call_model. cbn [model with_trace].
  destruct (predict_fn C (model w) mi (Some lab) (Some noise_amount))
    as [[e | [[[g lab'] aux] p]] s'] eqn:Hp.
  { repeat split; try done; [by exists (S i) |].
    intros HF'. destruct (HF HF') as (Hstep & _).
    destruct (HJ HF') as (t & _ & HJt).
    destruct (Hstep i (model w) t ltac:(lia) HJt) as (? & ? & ? & ? & ? & ? & ? & _).
    congruence. }
  unfold iadd. apply wp_bind, wp_load_any; cbn [heap with_model with_trace].
  2: { intros Hnone. apply lookup_ge_None in Hnone. lia. }
  intros t Ht. apply wp_bind, wp_lift.
  destruct (inplace_ufunc Float32.add t g) as [e | t'] eqn:Hi.
  { repeat split; try done; [by exists (S i) |].
    intros HF'. destruct (HF HF') as (Hstep & _).
    destruct (HJ HF') as (t0 & Ht0 & HJt).
    destruct (Hstep i (model w) t0 ltac:(lia) HJt) as (? & ? & ? & ? & ? & ? & ? & ? & _).
    by unify_runs. }
  apply wp_store. unfold SmoothGradNLPSpec.loop_inv.
  cbn [heap model trace with_model with_trace with_heap].
  split; [by rewrite length_insert |].
  split; [by rewrite take_insert_ge |]. split; [done |].
  intros HF'. destruct (HF HF') as (Hstep & _).
  destruct (HJ HF') as (t0 & Ht0 & HJt).
  destruct (Hstep i (model w) t0 ltac:(lia) HJt)
    as (g1 & l1 & a1 & p1 & s1 & t1 & Hp1 & Hi1 & HJ1).
  unify_runs. eexists. split; [| eassumption].
  apply list_lookup_insert_eq. lia.
Qed.

End Loop.

(** ** The block under [# SG] *)

Section SmoothGradBlock.

Variables (J : nat -> ModelState -> ndarray float -> Prop) (F : Prop).
Variables (mi : list pyobj) (label : option (ndarray Z)) (noise_amount : float)
          (n_samples : Z) (w1 : World).

Lemma nlp_smooth_grad_spec :
  (F -> exists g0 lab aux proba s2,
          predict_fn C (model w1) mi label None = (inr (g0, lab, aux, proba), s2) /\
          J 0 s2 (zeros_like g0) /\
          step_ok C J mi lab noise_amount (Z.to_nat n_samples)) ->
  wp (smooth_grad C mi label noise_amount n_samples)
    (fun r w' =>
       exists g0 aux s2 t,
         predict_fn C (model w1) mi label None = (inr (g0, r.1.2, aux, r.2), s2) /\
         take (length (heap w1)) (heap w') = heap w1 /\
         heap w' !! r.1.1 = Some (div_scalar t (Float32.of_int n_samples)) /\
         trace w' = trace w1 ++ PredictCall mi label None
                      :: replicate (Z.to_nat n_samples)
                           (PredictCall mi (Some r.1.2) (Some noise_amount)) /\
         (F -> J (Z.to_nat n_samples) (model w') t))
    (fun _ w' =>
       take (length (heap w1)) (heap w') = heap w1 /\
       (exists evs, trace w' = trace w1 ++ PredictCall mi label None :: evs /\
                    Forall (fun ev => exists l a, ev = PredictCall mi l a) evs) /\
       ~ F)
    w1.
Proof.
  intros HF. unfold smooth_grad.
  apply wp_bind. unfold call_predict_fn.
  apply wp_bind, wp_emit, wp_call_model. cbn [model with_trace].
  destruct (predict_fn C (model w1) mi label None)
    as [[e | [[[g0 lab] aux] proba]] s2] eqn:Hp.
  { cbn. split; [by apply take_ge |]. split.
    - exists []. split; [done | constructor].
    - intros HF'. by destruct (HF HF') as (? & ? & ? & ? & ? & ? & _). }
  apply wp_bind, wp_alloc. cbn [heap with_model with_trace].
  set (w2 := with_heap _ _).
  assert (Hlt : length (heap w1) < length (heap w2)).
  { subst w2. cbn. rewrite length_app. cbn. lia. }
  apply wp_bind.
  eapply wp_conseq;
    [apply (nlp_sampling_loop_spec J F mi lab noise_amount (length (heap w1)) w2 Hlt
              (Z.to_nat n_samples)) | |].
  - intros HF'. destruct (HF HF') as (g0' & lab' & aux' & proba' & s2' & Hp' & HJ0 & Hstep).
    try rewrite Hp in Hp'. injection Hp' as <- <- <- <- <-. split; [done |].
    exists (zeros_like g0). split; [| done]. subst w2. cbn. by apply list_lookup_middle.
  - intros [] w3 (Hlen & Htk & Htr & HJ). subst w2.
    cbn [heap trace with_heap with_model with_trace] in Hlen, Htk, Htr.
    rewrite take_app_length in Htk. rewrite length_app in Hlen. cbn in Hlen.
    apply wp_bind, wp_load_any.
    2: { intros Hnone. apply lookup_ge_None in Hnone. lia. }
    intros t Ht. apply wp_bind, wp_alloc, wp_ret.
    cbn [fst snd heap trace model with_heap].
    exists g0, aux, s2, t. split; [done |].
    split; [by rewrite take_app_le by lia |].
    split; [by apply list_lookup_middle |].
    split; [by rewrite Htr, <- app_assoc |].
    intros HF'. destruct (HJ HF') as (t' & Ht' & HJ'). by simplify_eq.
  - intros e w3 (Hlen & Htk & (k & Htr) & Hno). subst w2.
    cbn [heap trace with_heap with_model with_trace] in Hlen, Htk, Htr.
    rewrite take_app_length in Htk.
    split; [done |]. split; [| done]. eexists. split; [by rewrite Htr, <- app_assoc |].
    apply Forall_replicate. by eexists _, _.
Qed.

End SmoothGradBlock.

(** ** A whole call *)

Section Run.

Variables (J : nat -> ModelState -> ndarray float -> Prop) (F : Prop).
Variables (raw_text : string) (tokenizer : option Tokenizer)
          (text_to_input_fn : option TextToInput) (label : option (ndarray Z))
          (noise_amount : float) (n_samples : Z) (embedding_name : string)
          (max_seq_len : Z) (visual : bool).
Variables (w0 wa : World) (mi : list pyobj).

Hypothesis Hone : exactly_one_given tokenizer text_to_input_fn.
Hypothesis Hin :
  text_to_model_input raw_text tokenizer text_to_input_fn max_seq_len w0 = (inr mi, wa).

Lemma nlp_interpret_spec :
  (F -> exists s1 g0 lab aux proba s2,
          _build_predict_fn C embedding_name (model wa) = (inr tt, s1) /\
          predict_fn C s1 mi label None = (inr (g0, lab, aux, proba), s2) /\
          J 0 s2 (zeros_like g0) /\
          step_ok C J mi lab noise_amount (Z.to_nat n_samples)) ->
  wp (interpret C raw_text tokenizer text_to_input_fn label noise_amount n_samples
        embedding_name max_seq_len visual)
    (fun sg w' =>
       exists s1 g0 lab aux proba s2 t prints,
         _build_predict_fn C embedding_name (model wa) = (inr tt, s1) /\
         predict_fn C s1 mi label None = (inr (g0, lab, aux, proba), s2) /\
         take (length (heap wa)) (heap w') = heap wa /\
         heap w' !! sg = Some (div_scalar t (Float32.of_int n_samples)) /\
         trace w' = trace wa ++ BuildCall embedding_name :: PredictCall mi label None
                      :: replicate (Z.to_nat n_samples)
                           (PredictCall mi (Some lab) (Some noise_amount)) ++ prints /\
         Forall is_print prints /\
         self_predicted_label w' = Some lab /\
         self_predicted_proba w' = Some proba /\
         (F -> J (Z.to_nat n_samples) (model w') t))
    (fun _ w' =>
       take (length (heap wa)) (heap w') = heap wa /\
       (exists evs, trace w' = trace wa ++ BuildCall embedding_name :: evs /\
                    Forall (fun ev => exists l a, ev = PredictCall mi l a) evs) /\
       ~ F)
    w0.
Proof.
  intros HF. unfold interpret.
  apply wp_bind. rewrite decide_True by exact Hone. apply wp_ret.
  apply wp_bind. eapply wp_run_eq; [exact Hin |].
  apply wp_bind. unfold call_build_predict_fn.
  apply wp_bind, wp_emit, wp_call_model. cbn [model with_trace].
  destruct (_build_predict_fn C embedding_name (model wa)) as [[e | []] s1] eqn:Hb.
  { cbn. split; [by apply take_ge |]. split.
    - exists []. split; [done | constructor].
    - intros HF'. by destruct (HF HF') as (? & ? & ? & ? & ? & ? & ? & _). }
  rewrite <- Hb.
  set (w1 := with_model _ _).
  assert (Hh1 : heap w1 = heap wa) by done.
  assert (Hm1 : model w1 = s1) by done.
  assert (Ht1 : trace w1 = trace wa ++ [BuildCall embedding_name]) by done.
  clearbody w1.
  apply wp_bind.
  eapply wp_conseq;
    [apply (nlp_smooth_grad_spec J F mi label noise_amount n_samples w1) | |].
  - intros HF'. destruct (HF HF') as (s1' & g0 & lab & aux & proba & s2 & Hb' & Hp & HJ0 & Hs).
    try rewrite Hb in Hb'. injection Hb' as <-. rewrite Hm1.
    by exists g0, lab, aux, proba, s2.
  - intros [[sg lab] proba] w2 (g0 & aux & s2 & t & Hp & Htk & Hsg & Htr & HJ).
    cbn [fst snd] in *. rewrite Hm1 in Hp. rewrite Hh1 in Htk.
    apply wp_bind, wp_modify, wp_bind, wp_modify.
    set (w3 := set_predicted_proba _ _).
    assert (Hh3 : heap w3 = heap w2) by done.
    assert (Hm3 : model w3 = model w2) by done.
    assert (Ht3 : trace w3 = trace w2) by done.
    assert (Hl3 : self_predicted_label w3 = Some lab) by done.
    assert (Hp3 : self_predicted_proba w3 = Some proba) by done.
    clearbody w3.
    assert (Hfinal : forall prints w4,
              heap w4 = heap w3 -> model w4 = model w3 ->
              self_predicted_label w4 = self_predicted_label w3 ->
              self_predicted_proba w4 = self_predicted_proba w3 ->
              trace w4 = trace w3 ++ prints -> Forall is_print prints ->
              exists s1' g0' lab' aux' proba' s2' t' prints',
                _build_predict_fn C embedding_name (model wa) = (inr tt, s1') /\
                predict_fn C s1' mi label None = (inr (g0', lab', aux', proba'), s2') /\
                take (length (heap wa)) (heap w4) = heap wa /\
                heap w4 !! sg = Some (div_scalar t' (Float32.of_int n_samples)) /\
                trace w4 = trace wa ++ BuildCall embedding_name :: PredictCall mi label None
                             :: replicate (Z.to_nat n_samples)
                                  (PredictCall mi (Some lab') (Some noise_amount))
                                ++ prints' /\
                Forall is_print prints' /\
                self_predicted_label w4 = Some lab' /\
                self_predicted_proba w4 = Some proba' /\
                (F -> J (Z.to_nat n_samples) (model w4) t')).
    { intros prints w4 Hh4 Hm4 Hl4 Hp4 Ht4 Hpr.
      exists s1, g0, lab, aux, proba, s2, t, prints.
      split; [done |]. split; [done |].
      split; [by rewrite Hh4, Hh3 |]. split; [by rewrite Hh4, Hh3 |].
      split; [rewrite Ht4, Ht3, Htr, Ht1, <- !app_assoc; done |].
      split; [done |]. split; [congruence |]. split; [congruence |].
      intros HF'. rewrite Hm4, Hm3. by apply HJ. }
    apply wp_bind. destruct visual.
    + unfold print.
      apply wp_bind, wp_emit, wp_bind, wp_emit, wp_emit, wp_ret.
      eapply (Hfinal [_; _; _]); try done; cbn [trace with_trace].
      * by rewrite <- !app_assoc.
      * by repeat constructor.
    + apply wp_ret, wp_ret. apply (Hfinal []); try done. by rewrite app_nil_r.
  - intros e w2 (Htk & (evs & Htr & Hevs) & Hno). rewrite Hh1 in Htk.
    split; [done |]. split; [| done].
    exists (PredictCall mi label None :: evs).
    split; [by rewrite Htr, Ht1, <- app_assoc |].
    constructor; [by eexists _, _ | done].
Qed.

(** When the block that builds the model input raises, so does the
    call, at once. *)
Lemma interpret_input_fails e w' :
  text_to_model_input raw_text tokenizer text_to_input_fn max_seq_len w0 = (inl e, w') ->
  interpret C raw_text tokenizer text_to_input_fn label noise_amount n_samples
    embedding_name max_seq_len visual w0 = (inl e, w').
Proof.
  intros Hfail. unfold interpret, bind at 1.
  rewrite decide_True by exact Hone. cbn [ret]. unfold bind at 1. by rewrite Hfail.
Qed.

End Run.

(** ** The stages of a call *)

(** A call is the [assert], the block that builds the model input, the
    construction of the gradient function, the block under [# SG], the
    two assignments and the prints. *)
Lemma nlp_interpret_stages (raw_text : string) (tokenizer : option Tokenizer)
    (text_to_input_fn : option TextToInput) (label : option (ndarray Z))
    (noise_amount : float) (n_samples : Z) (embedding_name : string)
    (max_seq_len : Z) (visual : bool) w0 :
  interpret C raw_text tokenizer text_to_input_fn label noise_amount n_samples
    embedding_name max_seq_len visual w0 =
  if decide ((b2i (bool_decide (tokenizer = None))
              + b2i (bool_decide (text_to_input_fn = None)))%Z = 1%Z) then
    match text_to_model_input raw_text tokenizer text_to_input_fn max_seq_len w0 with
    | (inl e, wa) => (inl e, wa)
    | (inr mi, wa) =>
        match call_build_predict_fn C embedding_name wa with
        | (inl e, wb) => (inl e, wb)
        | (inr _, wb) =>
            match smooth_grad C mi label noise_amount n_samples wb with
            | (inl e, wc) => (inl e, wc)
            | (inr (sg, lab, proba), wc) =>
                let wd := set_predicted_proba proba (set_predicted_label lab wc) in
                (inr sg, if visual then with_trace (trace wd ++ visual_prints) wd else wd)
            end
        end
    end
  else (inl AssertionError, w0).
Proof.
  unfold interpret, bind.
  destruct (decide _) as [_ | _]; [| done]. cbn [ret].
  destruct (text_to_model_input _ _ _ _ w0) as [[e | mi] wa]; [done |].
  destruct (call_build_predict_fn C embedding_name wa) as [[e | []] wb]; [done |].
  destruct (smooth_grad C mi label noise_amount n_samples wb)
    as [[e | [[sg lab] proba]] wc]; [done |].
  destruct visual; [| done].
  unfold print, emit, modify, ret, with_trace, visual_prints. cbn.
  by rewrite <- !app_assoc.
Qed.

(** The input block with a conversion function and no tokenizer. *)
Lemma conversion_input_run (raw_text : string) (f : TextToInput) (max_seq_len : Z) w :
  text_to_model_input raw_text None (Some f) max_seq_len w
  = (match f raw_text with
     | inl e => inl e
     | inr x => py_tuple x
     end,
     with_trace (trace w ++ [warning; TextToInputCall raw_text]) w).
Proof.
  unfold text_to_model_input, call_text_to_input_fn, print, bind, ret, emit, modify,
    warning, with_trace.
  cbn. rewrite <- !app_assoc. cbn.
  destruct (f raw_text) as [e | x]; [done |]. cbn.
  destruct (is_iterable x && negb (has_shape x)); by destruct (py_tuple x).
Qed.

Lemma nlp_build_run (embedding_name : string) w :
  call_build_predict_fn C embedding_name w
  = ((_build_predict_fn C embedding_name (model w)).1,
     with_model (_build_predict_fn C embedding_name (model w)).2
       (with_trace (trace w ++ [BuildCall embedding_name]) w)).
Proof.
  unfold call_build_predict_fn, call_model, bind, emit, modify. cbn.
  by destruct (_build_predict_fn C embedding_name (model w)).
Qed.

(** ** Reading the trace *)

Lemma nlp_predict_calls_app (t1 t2 : list event) :
  predict_calls (t1 ++ t2) = predict_calls t1 ++ predict_calls t2.
Proof. apply omap_app. Qed.

Lemma nlp_predict_calls_cons mi lab na (t : list event) :
  predict_calls (PredictCall mi lab na :: t) = (mi, lab, na) :: predict_calls t.
Proof. done. Qed.

Lemma predict_calls_build name (t : list event) :
  predict_calls (BuildCall name :: t) = predict_calls t.
Proof. done. Qed.

Lemma predict_calls_replicate mi lab na (n : nat) :
  predict_calls (replicate n (PredictCall mi lab na)) = replicate n (mi, lab, na).
Proof. induction n as [| n IH]; [done |]. cbn [replicate]. by rewrite nlp_predict_calls_cons, IH. Qed.

Lemma input_events_calls (evs : list event) :
  Forall is_input_event evs -> predict_calls evs = [].
Proof.
  induction 1 as [| ev evs Hev _ IH]; [done |]. by destruct ev.
Qed.

Lemma print_events_calls (evs : list event) :
  Forall is_print evs -> predict_calls evs = [].
Proof.
  induction 1 as [| ev evs Hev _ IH]; [done |]. by destruct ev.
Qed.

Lemma predict_events_calls mi (evs : list event) :
  Forall (fun ev => exists l a, ev = PredictCall mi l a) evs ->
  Forall (fun c => c.1.1 = mi) (predict_calls evs).
Proof.
  induction 1 as [| ev evs (l & a & ->) _ IH]; [constructor |].
  rewrite nlp_predict_calls_cons. by constructor.
Qed.

(** ** The claims on [SmoothGradNLPInterpreter.interpret] *)

Section Claims.

Variables (raw_text : string) (tokenizer : option Tokenizer)
          (text_to_input_fn : option TextToInput) (label : option (ndarray Z))
          (noise_amount : float) (embedding_name : string)
          (max_seq_len : Z) (visual : bool).
Variables (w0 : World).

(** What holds of every run in which exactly one of the tokenizer and
    the conversion function is given: the trace grows by the events of
    the input block, at least one, then by the calls on the model, all
    on the tuple that block returned. *)
Lemma nlp_interpret_any_run (n_samples : Z) res w' :
  exactly_one_given tokenizer text_to_input_fn ->
  interpret C raw_text tokenizer text_to_input_fn label noise_amount n_samples
    embedding_name max_seq_len visual w0 = (res, w') ->
  exists ev ins evs,
    trace w' = trace w0 ++ (ev :: ins) ++ evs /\
    Forall is_input_event (ev :: ins) /\
    (predict_calls evs = [] \/
     exists mi,
       (forall f x, tokenizer = None -> text_to_input_fn = Some f ->
                    f raw_text = inr x -> py_tuple x = inr mi) /\
       Forall (fun c => c.1.1 = mi) (predict_calls evs)).
Proof.
  intros Hone Hrun.
  pose proof (text_to_model_input_spec raw_text tokenizer text_to_input_fn
                max_seq_len w0) as Hin.
  unfold wp in Hin.
  destruct (text_to_model_input raw_text tokenizer text_to_input_fn max_seq_len w0)
    as [[e | mi] wa] eqn:Hin'.
  - erewrite interpret_input_fails in Hrun; [| exact Hone | exact Hin'].
    injection Hrun as <- <-. destruct Hin as (_ & _ & ev & ins & Htr & Hins).
    exists ev, ins, []. rewrite app_nil_r. split; [done |]. split; [done | by left].
  - destruct Hin as ((_ & _ & ev & ins & Htr & Hins) & Hmi).
    pose proof (nlp_interpret_spec (fun _ _ _ => True) False raw_text tokenizer
                  text_to_input_fn label noise_amount n_samples embedding_name
                  max_seq_len visual w0 wa mi Hone Hin' ltac:(done)) as Hspec.
    unfold wp in Hspec. rewrite Hrun in Hspec.
    exists ev, ins. destruct res as [e | sg].
    + destruct Hspec as (_ & (evs & Htr' & Hevs) & _).
      eexists. split; [by rewrite Htr', Htr, <- app_assoc |]. split; [done |].
      right. exists mi. split; [done |].
      rewrite predict_calls_build. by apply predict_events_calls.
    + destruct Hspec as (s1 & g0 & lab & aux & proba & s2 & t & prints & _ & _ & _ & _
                         & Htr' & Hpr & _).
      eexists. split; [by rewrite Htr', Htr, <- app_assoc |]. split; [done |].
      right. exists mi. split; [done |].
      rewrite predict_calls_build, nlp_predict_calls_cons, nlp_predict_calls_app,
        predict_calls_replicate, (print_events_calls _ Hpr), app_nil_r.
      constructor; [done |]. by apply Forall_replicate.
Qed.

(** C5. With exactly one of the tokenizer and the conversion function
    given, a model input built, a gradient function that returns
    gradients of one shape and [n_samples = n < 2^63], the [predict_fn]
    calls of the run are one call without noise on the caller's label,
    then exactly [n] calls with the caller's [noise_amount] and the
    label that first call returned; the call returns the [float32] mean
    of the gradients of those [n] calls: their entries added, one call
    after the other, to [0.0], then divided by [n].  The gradients of
    the first call only lend their shape. *)
Theorem baseline_then_noisy_average (n : nat) (wa : World) (mi : list pyobj)
    (s1 s2 : ModelState) (g0 : ndarray float) (lab : ndarray Z) (aux : Aux)
    (proba : ndarray float) :
  (Z.of_nat n < 2 ^ 63)%Z ->
  exactly_one_given tokenizer text_to_input_fn ->
  text_to_model_input raw_text tokenizer text_to_input_fn max_seq_len w0 = (inr mi, wa) ->
  _build_predict_fn C embedding_name (model wa) = (inr tt, s1) ->
  predict_fn C s1 mi label None = (inr (g0, lab, aux, proba), s2) ->
  (forall s, exists g lab' aux' p' s',
     predict_fn C s mi (Some lab) (Some noise_amount) = (inr (g, lab', aux', p'), s') /\
     shape g = shape g0 /\ well_shaped g) ->
  exists sg w' evs,
    interpret C raw_text tokenizer text_to_input_fn label noise_amount (Z.of_nat n)
      embedding_name max_seq_len visual w0 = (inr sg, w') /\
    trace w' = trace w0 ++ evs /\
    predict_calls evs =
      (mi, label, None) :: replicate n (mi, Some lab, Some noise_amount) /\
    heap w' !! sg =
      Some (float32_mean (shape g0) (length (elems g0))
              (replay C n mi lab noise_amount s2) (Z.of_nat n)) /\
    self_predicted_label w' = Some lab.
Proof.
  intros _ Hone Hin Hbuild Hbase Hgrad.
  set (J := fun (k : nat) (s : ModelState) (t : ndarray float) =>
              exists gs, t = foldl accumulate (zeros_like g0) gs /\
                         forall m, replay C (k + m) mi lab noise_amount s2
                                   = gs ++ replay C m mi lab noise_amount s).
  pose proof (nlp_interpret_spec J True raw_text tokenizer text_to_input_fn label
                noise_amount (Z.of_nat n) embedding_name max_seq_len visual w0 wa mi
                Hone Hin) as Hspec.
  pose proof (text_to_model_input_spec raw_text tokenizer text_to_input_fn
                max_seq_len w0) as Hfr.
  unfold wp in Hfr. rewrite Hin in Hfr.
  destruct Hfr as ((_ & _ & ev & ins & Htr0 & Hins) & _).
  unfold wp in Hspec.
  destruct (interpret C raw_text tokenizer text_to_input_fn label noise_amount
              (Z.of_nat n) embedding_name max_seq_len visual w0) as [[e | sg] w'].
  { destruct Hspec as (_ & _ & Hno); [| done].
    intros _. exists s1, g0, lab, aux, proba, s2. split; [done |]. split; [done |].
    split; [by exists [] |].
    intros k s t _ (gs & -> & Hrep).
    destruct (Hgrad s) as (g & lab' & aux' & p' & s' & Hp & Hgs & Hgw).
    eexists g, lab', aux', p', s', _. split; [exact Hp |]. split.
    - apply inplace_add_accumulate; [| done]. by rewrite shape_foldl_accumulate.
    - exists (gs ++ [g]). split; [by rewrite foldl_app |].
      intros m. replace (S k + m) with (k + S m) by lia.
      rewrite Hrep. cbn [replay]. rewrite Hp. by rewrite <- app_assoc. }
  destruct Hspec as (s1' & g0' & lab' & aux' & proba' & s2' & t & prints & Hb' & Hp'
                     & _ & Hsg & Htr & Hpr & Hlab & _ & HJ).
  { intros _. exists s1, g0, lab, aux, proba, s2. split; [done |]. split; [done |].
    split; [by exists [] |].
    intros k s t _ (gs & -> & Hrep).
    destruct (Hgrad s) as (g & lab' & aux' & p' & s' & Hp & Hgs & Hgw).
    eexists g, lab', aux', p', s', _. split; [exact Hp |]. split.
    - apply inplace_add_accumulate; [| done]. by rewrite shape_foldl_accumulate.
    - exists (gs ++ [g]). split; [by rewrite foldl_app |].
      intros m. replace (S k + m) with (k + S m) by lia.
      rewrite Hrep. cbn [replay]. rewrite Hp. by rewrite <- app_assoc. }
  rewrite Hbuild in Hb'. injection Hb' as <-.
  rewrite Hbase in Hp'. injection Hp' as <- <- <- <- <-.
  rewrite Nat2Z.id in Htr, HJ.
  destruct (HJ I) as (gs & -> & Hrep). specialize (Hrep 0).
  rewrite Nat.add_0_r in Hrep. cbn [replay] in Hrep. rewrite app_nil_r in Hrep.
  exists sg, w'. eexists. split; [done |].
  split; [by rewrite Htr, Htr0, <- app_assoc |].
  split; [| split; [rewrite Hsg, Hrep; f_equal; apply mean_of_float32_mean | done]].
  rewrite nlp_predict_calls_app, (input_events_calls _ Hins), app_nil_l.
  by rewrite predict_calls_build, nlp_predict_calls_cons, nlp_predict_calls_app,
    predict_calls_replicate, (print_events_calls _ Hpr), app_nil_r.
Qed.

(** C6. When both the tokenizer and the conversion function are given,
    or neither, the call raises [AssertionError] in the world it was
    started in: nothing has been called.  When exactly one is given the
    call goes on: its trace starts with an event of the block that
    builds the model input. *)
Theorem exactly_one_converter_required (n_samples : Z) :
  let run := interpret C raw_text tokenizer text_to_input_fn label noise_amount
               n_samples embedding_name max_seq_len visual w0 in
  match tokenizer, text_to_input_fn with
  | Some _, None | None, Some _ =>
      exists ev evs, trace run.2 = trace w0 ++ ev :: evs /\ is_input_event ev
  | _, _ => run = (inl AssertionError, w0)
  end.
Proof.
  intros run.
  assert (Hgo : exactly_one_given tokenizer text_to_input_fn ->
                exists ev evs, trace run.2 = trace w0 ++ ev :: evs /\ is_input_event ev).
  { intros Hone.
    destruct (nlp_interpret_any_run n_samples run.1 run.2 Hone (surjective_pairing _))
      as (ev & ins & evs & Htr & Hins & _).
    exists ev, (ins ++ evs). split; [by rewrite Htr |]. by apply Forall_inv in Hins. }
  subst run. destruct tokenizer, text_to_input_fn; try done; by apply Hgo.
Qed.

(** The block under [# SG] starts with the call without noise on the
    tuple it is given, and every later call is on that tuple. *)
Lemma nlp_smooth_grad_calls (n_samples : Z) mi w r w' :
  smooth_grad C mi label noise_amount n_samples w = (r, w') ->
  exists evs,
    trace w' = trace w ++ PredictCall mi label None :: evs /\
    Forall (fun ev => exists l a, ev = PredictCall mi l a) evs.
Proof.
  intros Hrun.
  pose proof (nlp_smooth_grad_spec (fun _ _ _ => True) False mi label noise_amount
                n_samples w ltac:(done)) as Hspec.
  unfold wp in Hspec. rewrite Hrun in Hspec. destruct r as [e | r].
  - by destruct Hspec as (_ & Hevs & _).
  - destruct Hspec as (_ & _ & _ & _ & _ & _ & _ & Htr & _).
    eexists. split; [exact Htr |]. apply Forall_replicate. by eexists _, _.
Qed.

(** A call with a conversion function whose value makes the tuple [mi],
    and a gradient function that can be built: the first [predict_fn]
    call is the one without noise on [mi], and every later call is on
    [mi]. *)
Lemma conversion_run_calls (f : TextToInput) (x : pyobj) (n_samples : Z)
    (s1 : ModelState) mi :
  f raw_text = inr x ->
  py_tuple x = inr mi ->
  _build_predict_fn C embedding_name (model w0) = (inr tt, s1) ->
  exists evs rest,
    trace (interpret C raw_text None (Some f) label noise_amount n_samples
             embedding_name max_seq_len visual w0).2 = trace w0 ++ evs /\
    predict_calls evs = (mi, label, None) :: rest /\
    Forall (fun c => c.1.1 = mi) rest.
Proof.
  intros Hx Hmi Hb.
  rewrite nlp_interpret_stages, decide_True by done.
  rewrite conversion_input_run, Hx, Hmi, nlp_build_run.
  cbn [model with_trace]. rewrite Hb. cbn [fst snd].
  set (wb := with_model s1 _).
  destruct (smooth_grad C mi label noise_amount n_samples wb) as [r wc] eqn:Hsg.
  destruct (nlp_smooth_grad_calls _ _ _ _ _ Hsg) as (evs & Htr & Hevs).
  assert (Hwb : trace wb = trace w0 ++ [warning; TextToInputCall raw_text;
                                        BuildCall embedding_name]).
  { subst wb. cbn. by rewrite <- app_assoc. }
  assert (Hcalls : forall tl, Forall is_print tl ->
            predict_calls ([warning; TextToInputCall raw_text; BuildCall embedding_name]
                           ++ (PredictCall mi label None :: evs) ++ tl)
            = (mi, label, None) :: predict_calls evs).
  { intros tl Htl.
    rewrite !nlp_predict_calls_app, (print_events_calls _ Htl), app_nil_r. done. }
  destruct r as [e | [[sg lab] proba]]; [| destruct visual]; cbn [snd trace with_trace
    set_predicted_proba set_predicted_label].
  - eexists _, _. split; [by rewrite Htr, Hwb, <- app_assoc |].
    split; [| by apply predict_events_calls].
    by rewrite <- (app_nil_r (_ :: evs)), Hcalls.
  - eexists _, _. split; [by rewrite Htr, Hwb, <- !app_assoc |].
    split; [| by apply predict_events_calls].
    apply Hcalls. by repeat constructor.
  - eexists _, _. split; [by rewrite Htr, Hwb, <- app_assoc |].
    split; [| by apply predict_events_calls].
    by rewrite <- (app_nil_r (_ :: evs)), Hcalls.
Qed.

(** A call whose conversion function returns a value of which no tuple
    can be made raises before the gradient function is built. *)
Lemma conversion_run_no_tuple (f : TextToInput) (x : pyobj) (n_samples : Z) e :
  f raw_text = inr x ->
  py_tuple x = inl e ->
  interpret C raw_text None (Some f) label noise_amount n_samples
    embedding_name max_seq_len visual w0
  = (inl e, with_trace (trace w0 ++ [warning; TextToInputCall raw_text]) w0).
Proof.
  intros Hx Hmi.
  rewrite nlp_interpret_stages, decide_True by done.
  by rewrite conversion_input_run, Hx, Hmi.
Qed.

(** C10. Take a call without tokenizer whose conversion function
    returns [x], and whose gradient function can be built.  When [x] is
    one array [a] with a first axis of length [n], the first
    [predict_fn] call of the run, the one without noise, receives the
    [n] sub-arrays of [a] along that axis, the [j]-th one holding the
    entries [j * k, ..., j * k + k - 1] of [a] for [k] the size of a
    sub-array, and so does every later call; that tuple is not the
    one-element tuple holding [a].  When [x] is a tuple or a list, the
    calls, of which there is one at least, receive its components as
    they are.  An array without axis and a value that cannot be iterated
    raise [TypeError] before any call. *)
Theorem array_input_is_unpacked (f : TextToInput) (x : pyobj) (n_samples : Z)
    (s1 : ModelState) :
  text_to_input_fn = Some f ->
  tokenizer = None ->
  f raw_text = inr x ->
  _build_predict_fn C embedding_name (model w0) = (inr tt, s1) ->
  let run := interpret C raw_text tokenizer text_to_input_fn label noise_amount
               n_samples embedding_name max_seq_len visual w0 in
  exists evs,
    trace run.2 = trace w0 ++ evs /\
    match x with
    | PyArray a =>
        match shape a with
        | [] => predict_calls evs = [] /\ run.1 = inl TypeError
        | n :: sh =>
            let k := foldr Nat.mul 1 sh in
            let mi := (fun j => PyArray (NdArray sh (take k (drop (j * k) (elems a)))))
                        <$> seq 0 n in
            mi <> [PyArray a] /\
            exists rest,
              predict_calls evs = (mi, label, None) :: rest /\
              Forall (fun c => c.1.1 = mi) rest
        end
    | PyTuple l | PyList l =>
        exists rest,
          predict_calls evs = (l, label, None) :: rest /\
          Forall (fun c => c.1.1 = l) rest
    | PyInt _ => predict_calls evs = [] /\ run.1 = inl TypeError
    end.
Proof.
  intros Hf Ht Hx Hb run. subst run. rewrite Hf, Ht.
  assert (Hraise : py_tuple x = inl TypeError ->
            exists evs,
              trace (interpret C raw_text None (Some f) label noise_amount n_samples
                       embedding_name max_seq_len visual w0).2 = trace w0 ++ evs /\
              predict_calls evs = [] /\
              (interpret C raw_text None (Some f) label noise_amount n_samples
                 embedding_name max_seq_len visual w0).1 = inl TypeError).
  { intros Hno. rewrite (conversion_run_no_tuple f x n_samples _ Hx Hno).
    by exists [warning; TextToInputCall raw_text]. }
  assert (Hcall : forall mi, py_tuple x = inr mi ->
            exists evs,
              trace (interpret C raw_text None (Some f) label noise_amount n_samples
                       embedding_name max_seq_len visual w0).2 = trace w0 ++ evs /\
              exists rest,
                predict_calls evs = (mi, label, None) :: rest /\
                Forall (fun c => c.1.1 = mi) rest).
  { intros mi Hmi.
    destruct (conversion_run_calls f x n_samples s1 mi Hx Hmi Hb)
      as (evs & rest & Htr & Hc & Hr).
    exists evs. split; [done |]. by exists rest. }
  destruct x as [a | l | l | z]; [| by apply Hcall | by apply Hcall | by apply Hraise].
  destruct (shape a) as [| n sh] eqn:Hs.
  { apply Hraise. unfold py_tuple, iterate. by rewrite Hs. }
  assert (Hmi : py_tuple (PyArray a) = inr (PyArray <$> samples_of a)).
  { unfold py_tuple, iterate. rewrite Hs. by rewrite rows_samples_of. }
  assert (Hsam : PyArray <$> samples_of a
                 = (fun j => PyArray (NdArray sh (take (foldr Nat.mul 1 sh)
                                                    (drop (j * foldr Nat.mul 1 sh)
                                                       (elems a)))))
                     <$> seq 0 n).
  { unfold samples_of. rewrite Hs. cbn [tail hd]. by rewrite <- list_fmap_compose. }
  destruct (Hcall _ Hmi) as (evs & Htr & Hrest). rewrite Hsam in Hrest.
  exists evs. split; [done |]. cbn zeta. split; [| done].
  intros Heq. destruct n as [| n]; [done |]. cbn in Heq. injection Heq as Heq _.
  rewrite <- Heq in Hs. cbn in Hs. apply (f_equal length) in Hs. cbn in Hs. lia.
Qed.

End Claims.

End Proofs.

End SmoothGradNLPProofs.

(** * SmoothGradInterpreter: the claims on concrete inputs *)

Module SmoothGradWitness.
Import SmoothGradInterpreter SmoothGradSpec SmoothGradProofs SmoothGradExamples.

Lemma no_visualization {S} (C : @Collaborators unit unit unit S) imgs bsz sh :
  visualization_succeeds C imgs bsz false None sh.
Proof. intros l w v _ _. by exists w. Defined.

Lemma labels_fixed_across_samples_witness :
  let r := interpret (echo_model batch) tt None f64_tenth 2 224 None false None
             (fresh_world 0) in
  exists evs noisy,
    trace r.2 = trace (fresh_world 0) ++ evs /\
    predict_calls evs = (length (heap (fresh_world 0)), batch, None) :: noisy /\
    Forall (fun c => c.2 = Some label7) noisy /\
    forall avg, r.1 = inr avg -> length noisy = Z.to_nat 2.
Proof.
  intros r.
  apply (labels_fixed_across_samples (echo_model batch) tt None f64_tenth 2 224 None
           false None (fresh_world 0) image batch 1 [2] 0 1 batch label7 proba1 label7).
  - reflexivity.
  - reflexivity.
  - reflexivity.
  - reflexivity.
  - vm_compute. reflexivity.
  - apply surjective_pairing.
Defined.

Lemma noise_scale_of_original_batch_witness :
  exists avg w' evs,
    interpret (echo_model batch) tt None f64_tenth 2 224 None false None
      (fresh_world 0) = (inr avg, w') /\
    trace w' = trace (fresh_world 0) ++ evs /\
    normal_calls evs =
      [(pos_zero, S754_finite false 13421773 (-26), [1; 2]);
       (pos_zero, S754_finite false 13421773 (-26), [1; 2])].
Proof.
  apply (noise_scale_of_original_batch (echo_model batch) tt None f64_tenth 2 224 None
           false None (fresh_world 0) image batch 1 [2] 0 1 batch label7 proba1 label7).
  - lia.
  - reflexivity.
  - reflexivity.
  - lia.
  - discriminate.
  - reflexivity.
  - reflexivity.
  - reflexivity.
  - vm_compute. reflexivity.
  - by repeat constructor.
  - intros s v Hs Hw. exists v, label7, proba1, (S s).
    split; [reflexivity |]. split; assumption.
  - apply no_visualization.
Defined.

Lemma batch_never_modified_witness :
  let r := interpret (echo_model batch) tt None f64_tenth 2 224 None false None
             (fresh_world 0) in
  take 1 (heap r.2) = [batch] /\
  (exists evs,
     trace r.2 = trace (fresh_world 0) ++ evs /\
     Forall (fun c => c.1 = (0, batch) \/ 1 < c.1.1) (predict_calls evs)) /\
  forall avg, r.1 = inr avg ->
    1 < avg /\
    exists t, heap r.2 !! 1 = Some t /\
              heap r.2 !! avg = Some (div_scalar t (Float32.of_int 2)).
Proof.
  intros r.
  apply (batch_never_modified (echo_model batch) tt None f64_tenth 2 224 None
           false None (fresh_world 0) image batch).
  - reflexivity.
  - apply surjective_pairing.
Defined.

Lemma mismatched_labels_rejected_witness :
  exists e w',
    interpret (echo_model batch) tt (Some (NdArray [2] [1; 2]%Z)) f64_tenth 2 224 None
      false None (fresh_world 0) = (inl e, w') /\
    (exists evs,
       trace w' = trace (fresh_world 0) ++ evs /\
       (predict_calls evs = [] \/
        predict_calls evs = [(0, batch, Some (NdArray [2] [1; 2]%Z))])) /\
    forall s1 g0 pl pp s2,
      _build_predict_fn (echo_model batch) 0 = (inr tt, s1) ->
      predict_fn (echo_model batch) s1 batch (Some (NdArray [2] [1; 2]%Z))
        = (inr (g0, pl, pp), s2) ->
      e = ValueError.
Proof.
  apply (mismatched_labels_rejected (echo_model batch) tt f64_tenth 2 224 None
           false None (fresh_world 0) image batch (NdArray [2] [1; 2]%Z) 1 [2]).
  - reflexivity.
  - reflexivity.
  - cbn. lia.
Defined.

(** C8 fails as stated: the labels [[[1, 2]]] have length 1, the batch
    has 2 samples, and the call returns; the noisy call received the
    two labels flattened. *)
Lemma nested_labels_accepted :
  len nested_labels = inr 1 /\
  len pair_batch = inr 2 /\
  exists avg w' noised,
    interpret (echo_model pair_batch) tt (Some nested_labels) f64_tenth 1 224 None
      false None (fresh_world 0) = (inr avg, w') /\
    predict_calls (trace w') =
      [(0, pair_batch, Some nested_labels);
       (2, noised, Some (NdArray [2] [1; 2]%Z))] /\
    self_labels w' = Some (NdArray [2] [1; 2]%Z).
Proof.
  split; [reflexivity |]. split; [reflexivity |].
  eexists _, _, _. split; [vm_compute; reflexivity |].
  split; vm_compute; reflexivity.
Qed.

(** C1 fails as stated: ten copies of the gradient [[0.1, 1.0]] do not
    average back to 0.1 in [float32]. *)
Lemma constant_gradient_not_recovered :
  exists avg w' r,
    interpret (constant_model batch tenth_gradient) tt None f64_tenth 10 224 None
      false None (fresh_world tt) = (inr avg, w') /\
    heap w' !! avg = Some r /\
    r = NdArray [1; 2] [S754_finite false 13421774 (-27); f32_one] /\
    r <> tenth_gradient.
Proof.
  eexists _, _, _. split; [vm_compute; reflexivity |].
  split; [vm_compute; reflexivity |]. split; [reflexivity | discriminate].
Qed.

Lemma constant_gradient_average_witness :
  exists avg w',
    interpret (constant_model batch batch) tt None f64_tenth 4 224 None
      false None (fresh_world tt) = (inr avg, w') /\
    heap w' !! avg = Some (NdArray (shape batch) (average_of_copies 4 <$> elems batch)) /\
    (Forall (fun x => average_of_copies 4 x = x) (elems batch) ->
     heap w' !! avg = Some batch).
Proof.
  apply (constant_gradient_average (constant_model batch batch) tt None f64_tenth 4 224
           None false None (fresh_world tt) image batch batch 1 [2] tt tt label7 proba1
           label7 (NdArray [1] [S754_finite false 13421773 (-26)])).
  - lia.
  - reflexivity.
  - reflexivity.
  - reflexivity.
  - reflexivity.
  - reflexivity.
  - vm_compute. reflexivity.
  - intros s v l. by exists label7, proba1, s.
  - reflexivity.
  - reflexivity.
  - vm_compute. reflexivity.
  - split; [lia |]. split; [reflexivity |]. by repeat constructor.
  - apply no_visualization.
Defined.

(** C2 fails as stated: with [n_samples = 0] the call returns an
    array of NaN. *)
Lemma zero_samples_returns_nan :
  exists avg w',
    interpret (constant_model batch batch) tt None f64_tenth 0 224 None
      false None (fresh_world tt) = (inr avg, w') /\
    heap w' !! avg = Some (NdArray [1; 2] [S754_nan; S754_nan]).
Proof.
  eexists _, _. split; [vm_compute; reflexivity |]. vm_compute. reflexivity.
Qed.

Lemma nonpositive_samples_not_rejected_witness :
  exists avg w' vis_evs,
    interpret (constant_model batch batch) tt None f64_tenth (-3) 224 None
      false None (fresh_world tt) = (inr avg, w') /\
    heap w' !! avg =
      Some (NdArray (shape batch)
              (replicate (length (elems batch))
                 (Float32.div pos_zero (Float32.of_int (-3))))) /\
    trace w' = trace (fresh_world tt) ++ PredictCall 0 batch None :: vis_evs /\
    Forall is_vis_event vis_evs.
Proof.
  apply (nonpositive_samples_not_rejected (constant_model batch batch) tt None f64_tenth
           (-3) 224 None false None (fresh_world tt) image batch 1 [2] tt tt batch
           label7 proba1 label7 (NdArray [1] [S754_finite false 13421773 (-26)])).
  - lia.
  - reflexivity.
  - reflexivity.
  - reflexivity.
  - reflexivity.
  - vm_compute. reflexivity.
  - vm_compute. reflexivity.
  - apply no_visualization.
Defined.

(** C7 fails as stated: with [noise_amount = 0] and a sample whose
    range [max - min] overflows [float32], the scale is [0 * inf], a
    NaN, and so is the batch given to [predict_fn]; and a negative zero
    of the batch comes out as a positive zero; and with the zero
    [-0.0] the scale is [-0.0], which [np.random.normal] refuses. *)
Lemma zero_noise_changes_batch :
  (exists avg w',
     interpret (echo_model wide_batch) tt None pos_zero 1 224 None
       false None (fresh_world 0) = (inr avg, w') /\
     predict_calls (trace w') =
       [(0, wide_batch, None);
        (2, NdArray [1; 2] [S754_nan; S754_nan], Some label7)]) /\
  (exists avg w',
     interpret (echo_model signed_zero_batch) tt None pos_zero 1 224 None
       false None (fresh_world 0) = (inr avg, w') /\
     predict_calls (trace w') =
       [(0, signed_zero_batch, None);
        (2, NdArray [1; 2] [pos_zero; f32_one], Some label7)]) /\
  (exists w',
     interpret (echo_model batch) tt None neg_zero 1 224 None
       false None (fresh_world 0) = (inl ValueError, w') /\
     predict_calls (trace w') = [(0, batch, None)]).
Proof.
  split; [| split].
  - eexists _, _. split; [vm_compute; reflexivity |]. vm_compute. reflexivity.
  - eexists _, _. split; [vm_compute; reflexivity |]. vm_compute. reflexivity.
  - eexists. split; [vm_compute; reflexivity |]. vm_compute. reflexivity.
Qed.

Lemma zero_noise_average_witness :
  exists avg w' evs noisy,
    interpret (echo_model batch) tt None pos_zero 2 224 None
      false None (fresh_world 0) = (inr avg, w') /\
    trace w' = trace (fresh_world 0) ++ evs /\
    predict_calls evs = (0, batch, None) :: noisy /\
    length noisy = Z.to_nat 2 /\
    Forall (fun c => c.1.2 = batch /\ c.2 = Some label7) noisy /\
    heap w' !! avg =
      Some (float32_mean (shape batch) (length (elems batch))
              (replay (echo_model batch) (Z.to_nat 2) batch label7 1) 2).
Proof.
  apply (zero_noise_average (echo_model batch) tt None pos_zero 2 224 None false None
           (fresh_world 0) image batch 1 [2] 0 1 batch label7 proba1 label7
           (NdArray [1] [pos_zero])).
  - reflexivity.
  - lia.
  - reflexivity.
  - reflexivity.
  - lia.
  - reflexivity.
  - by repeat constructor.
  - reflexivity.
  - reflexivity.
  - vm_compute. reflexivity.
  - vm_compute. reflexivity.
  - by repeat constructor.
  - reflexivity.
  - intros s. by exists batch, label7, proba1, (S s).
  - apply no_visualization.
Defined.

End SmoothGradWitness.

(** * SmoothGradNLPInterpreter: the claims on concrete inputs *)

Module SmoothGradNLPWitness.
Import SmoothGradNLPInterpreter SmoothGradNLPSpec SmoothGradNLPProofs.
Import SmoothGradExamples SmoothGradNLPExamples.

Lemma baseline_then_noisy_average_witness :
  let mi := [PyArray (NdArray [3] [101; 7; 102]%Z); PyArray (NdArray [3] [0; 0; 0]%Z)] in
  exists sg w' evs,
    interpret embedding_model "a fine film" None (Some token_ids_fn) None f64_tenth
      (Z.of_nat 2) "word_embeddings" 128 false (fresh_world 0) = (inr sg, w') /\
    trace w' = trace (fresh_world 0) ++ evs /\
    predict_calls evs =
      (mi, None, None) :: replicate 2 (mi, Some label7, Some f64_tenth) /\
    heap w' !! sg =
      Some (float32_mean (shape tenth_gradient) (length (elems tenth_gradient))
              (replay embedding_model 2 mi label7 f64_tenth 1) (Z.of_nat 2)) /\
    self_predicted_label w' = Some label7.
Proof.
  intros mi.
  apply (baseline_then_noisy_average embedding_model "a fine film" None
           (Some token_ids_fn) None f64_tenth "word_embeddings" 128 false
           (fresh_world 0) 2
           (text_to_model_input "a fine film" None (Some token_ids_fn) 128
              (fresh_world 0)).2
           mi 0 1 tenth_gradient label7 tt proba1).
  - vm_compute. reflexivity.
  - reflexivity.
  - vm_compute. reflexivity.
  - reflexivity.
  - reflexivity.
  - intros s. exists batch, label7, tt, proba1, (S s).
    split; [reflexivity |]. split; [reflexivity |]. vm_compute. reflexivity.
Defined.

Lemma array_input_is_unpacked_witness :
  let run := interpret embedding_model "a fine film" None (Some token_ids_fn) None
               f64_tenth 2 "word_embeddings" 128 false (fresh_world 0) in
  let mi := [PyArray (NdArray [3] [101; 7; 102]%Z); PyArray (NdArray [3] [0; 0; 0]%Z)] in
  exists evs,
    trace run.2 = trace (fresh_world 0) ++ evs /\
    mi <> [PyArray token_ids] /\
    exists rest,
      predict_calls evs = (mi, None, None) :: rest /\
      Forall (fun c => c.1.1 = mi) rest.
Proof.
  intros run mi.
  apply (array_input_is_unpacked embedding_model "a fine film" None
           (Some token_ids_fn) None f64_tenth "word_embeddings" 128 false
           (fresh_world 0) token_ids_fn (PyArray token_ids) 2 0).
  - reflexivity.
  - reflexivity.
  - reflexivity.
  - reflexivity.
Defined.

End SmoothGradNLPWitness.

(** * Further behaviour of the two methods: proofs *)

(** ** Computations that assign no attribute *)

Section AttributeRules.

Context {Event ModelState : Type}.

Abbreviation MW := (M (World Event ModelState)).

Lemma attrs_frame_refl (w : World Event ModelState) : attrs_frame w w.
Proof. by repeat split. Qed.

Lemma keeps_ret {A} (a : A) : keeps_attrs (ret a : MW A).
Proof. intros w0 w Hw. by apply wp_ret. Qed.

Lemma keeps_raise {A} e : keeps_attrs (raise e : MW A).
Proof. intros w0 w Hw. by apply wp_raise. Qed.

Lemma keeps_lift {A} (r : result A) : keeps_attrs (lift r : MW A).
Proof. intros w0 w Hw. apply wp_lift. by destruct r. Qed.

Lemma keeps_bind {A B} (m : MW A) (k : A -> MW B) :
  keeps_attrs m -> (forall a, keeps_attrs (k a)) -> keeps_attrs (bind m k).
Proof. intros Hm Hk w0. eapply hoare_bind; [apply Hm |]. intros a. apply Hk. Qed.

Lemma keeps_if {A} (b : bool) (m1 m2 : MW A) :
  keeps_attrs m1 -> keeps_attrs m2 -> keeps_attrs (if b then m1 else m2).
Proof. by destruct b. Qed.

Lemma keeps_emit (ev : Event) : keeps_attrs (emit ev : MW unit).
Proof. intros w0 w Hw. by apply wp_emit. Qed.

Lemma keeps_alloc v : keeps_attrs (alloc v : MW loc).
Proof. intros w0 w Hw. by apply wp_alloc. Qed.

Lemma keeps_load l : keeps_attrs (load l : MW (ndarray float)).
Proof. intros w0 w Hw. by apply wp_load_any. Qed.

Lemma keeps_store l v : keeps_attrs (store l v : MW unit).
Proof. intros w0 w Hw. by apply wp_store. Qed.

Lemma keeps_call_model {A} (f : ModelState -> result A * ModelState) :
  keeps_attrs (call_model f : MW A).
Proof.
  intros w0 w Hw. apply wp_call_model. by destruct (f (model w)) as [[e | a] s].
Qed.

Lemma keeps_iadd l g : keeps_attrs (iadd l g : MW unit).
Proof.
  unfold iadd. apply keeps_bind; [apply keeps_load |]. intros t.
  apply keeps_bind; [apply keeps_lift |]. intros t'. apply keeps_store.
Qed.

Lemma keeps_for_range (body : nat -> MW unit) n lo :
  (forall i, keeps_attrs (body i)) -> keeps_attrs (for_range lo n body).
Proof.
  intros Hbody w0.
  eapply hoare_conseq;
    [apply (hoare_for_range (fun _ => attrs_frame w0) (fun _ => attrs_frame w0)) with (lo := lo)
    | done | done | done].
  intros i _. apply Hbody.
Qed.

Lemma keeps_for_each {A B} (f : nat -> A -> MW B) (l : list A) lo :
  (forall j x, keeps_attrs (f j x)) -> keeps_attrs (for_each lo l f).
Proof.
  intros Hf w0.
  eapply hoare_conseq;
    [apply (hoare_for_each (fun _ => attrs_frame w0) (fun _ _ _ => True)
              (fun _ => attrs_frame w0)) with (lo := lo)
    | done | by intros ys w (? & _) | done].
  intros j x _ w Hw. eapply wp_conseq; [by apply Hf | done | done].
Qed.

(** What a run of such a computation leaves of the attributes. *)
Lemma keeps_attrs_run {A} (m : MW A) w r w' :
  keeps_attrs m -> m w = (r, w') -> attrs_frame w w'.
Proof.
  intros Hm Hrun. pose proof (Hm w w (attrs_frame_refl w)) as H.
  unfold wp in H. rewrite Hrun in H. by destruct r.
Qed.

End AttributeRules.

(** ** SmoothGradNLPInterpreter *)

Module SmoothGradNLPBehaviourProofs.
Import SmoothGradNLPInterpreter SmoothGradNLPSpec SmoothGradNLPProofs.
Import SmoothGradNLPBehaviour.

Section Proofs.

Context {Aux ModelState : Type}.
Variable C : @Collaborators Aux ModelState.

Abbreviation event := (@event).
Abbreviation World := (@SmoothGradNLPInterpreter.World ModelState).

Implicit Types (w : World) (mi : list pyobj).

(** *** The input block with a tokenizer *)

(** The input block with a tokenizer that returns. *)
Lemma tokenizer_input_run (raw_text : string) (tok : Tokenizer)
    (text_to_input_fn : option TextToInput) (max_seq_len : Z)
    (encoded_inputs : list (string * ndarray Z)) w :
  tok raw_text max_seq_len = inr encoded_inputs ->
  text_to_model_input raw_text (Some tok) text_to_input_fn max_seq_len w
  = (inr (batched_tuple encoded_inputs),
     with_trace (trace w ++ [TokenizerCall raw_text max_seq_len]) w).
Proof.
  intros Htok.
  unfold text_to_model_input, tokenizer_to_input_fn, bind, ret, emit, modify. cbn.
  by rewrite Htok.
Qed.

(** *** The blocks assign no attribute *)

Lemma nlp_keeps_call_predict_fn mi (label : option (ndarray Z)) (na : option float) :
  keeps_attrs (call_predict_fn C mi label na).
Proof.
  unfold call_predict_fn. apply keeps_bind; [apply keeps_emit |]. intros _.
  apply keeps_call_model.
Qed.

Lemma keeps_text_to_model_input (raw_text : string) (tokenizer : option Tokenizer)
    (text_to_input_fn : option TextToInput) (max_seq_len : Z) :
  keeps_attrs (text_to_model_input (ModelState := ModelState) raw_text tokenizer
                 text_to_input_fn max_seq_len).
Proof.
  unfold text_to_model_input.
  assert (Htail : forall g : string -> M World pyobj,
            (forall r, keeps_attrs (g r)) ->
            keeps_attrs
              (let* model_input := g raw_text in
               if is_iterable model_input && negb (has_shape model_input)
               then lift (py_tuple model_input) else lift (py_tuple model_input))).
  { intros g Hg. apply keeps_bind; [apply Hg |]. intros x.
    apply keeps_if; apply keeps_lift. }
  intros w0.
  eapply hoare_bind with (R := fun g w => attrs_frame w0 w /\ forall r, keeps_attrs (g r)).
  2: { intros g w (Hw & Hg). exact (Htail g Hg w0 w Hw). }
  destruct tokenizer as [tok |].
  - apply hoare_ret. intros w Hw. split; [done |].
    intros r. unfold tokenizer_to_input_fn.
    apply keeps_bind; [apply keeps_emit |]. intros _.
    apply keeps_bind; [apply keeps_lift |]. intros enc. apply keeps_ret.
  - eapply hoare_bind; [apply (keeps_emit _ w0) |]. intros [].
    apply hoare_ret. intros w Hw. split; [done |].
    intros r. unfold call_text_to_input_fn.
    destruct text_to_input_fn as [f |]; [| apply keeps_raise].
    apply keeps_bind; [apply keeps_emit |]. intros _. apply keeps_lift.
Qed.

Lemma nlp_keeps_sample_step mi (lab : ndarray Z) (noise_amount : float) (lt : loc) (i : nat) :
  keeps_attrs (sample_step C mi lab noise_amount lt i).
Proof.
  unfold sample_step. apply keeps_bind; [apply nlp_keeps_call_predict_fn |].
  intros [[[g ?] ?] ?]. apply keeps_iadd.
Qed.

Lemma nlp_keeps_smooth_grad mi (label : option (ndarray Z)) (noise_amount : float)
    (n_samples : Z) :
  keeps_attrs (smooth_grad C mi label noise_amount n_samples).
Proof.
  unfold smooth_grad. apply keeps_bind; [apply nlp_keeps_call_predict_fn |].
  intros [[[g lab] aux] proba].
  apply keeps_bind; [apply keeps_alloc |]. intros lt.
  apply keeps_bind; [apply keeps_for_range; intros i; apply nlp_keeps_sample_step |].
  intros _. apply keeps_bind; [apply keeps_load |]. intros t.
  apply keeps_bind; [apply keeps_alloc |]. intros sg. apply keeps_ret.
Qed.

Lemma nlp_keeps_call_build_predict_fn (embedding_name : string) :
  keeps_attrs (call_build_predict_fn C embedding_name).
Proof.
  unfold call_build_predict_fn. apply keeps_bind; [apply keeps_emit |]. intros _.
  apply keeps_call_model.
Qed.

(** *** A failing call with noise *)

Section Failure.

Variables (mi : list pyobj) (lab : ndarray Z) (noise_amount : float)
          (lt : loc) (sh : list nat) (e : exn).

Lemma nlp_loop_fails (k : nat) :
  forall (lo n : nat) w t,
    k < n -> heap w !! lt = Some t -> shape t = sh ->
    fails_after C k mi lab noise_amount sh (model w) e ->
    wp (for_range lo n (sample_step C mi lab noise_amount lt))
      (fun _ _ => False)
      (fun e' w' =>
         e' = e /\
         trace w' = trace w ++ replicate (S k)
                                 (PredictCall mi (Some lab) (Some noise_amount)))
      w.
Proof.
  induction k as [| k IH]; intros lo n w t Hk Ht Hsh Hf;
    (destruct n as [| n]; [lia |]); cbn [for_range];
    apply wp_bind; unfold sample_step; apply wp_bind; unfold call_predict_fn;
    apply wp_bind, wp_emit, wp_call_model; cbn [model with_trace].
  - cbn in Hf.
    destruct (predict_fn C (model w) mi (Some lab) (Some noise_amount)) as [r s'].
    cbn in Hf. subst r. by split.
  - destruct Hf as (g & lab' & aux & p & s' & Hp & Hgs & Hgw & Hf). rewrite Hp.
    unfold iadd. apply wp_bind. eapply wp_load; [cbn; exact Ht |].
    apply wp_bind, wp_lift. rewrite inplace_add_accumulate by congruence.
    apply wp_store.
    eapply wp_conseq;
      [eapply (IH (S lo) n _ (accumulate t g)); [lia | | done | done] | done |].
    + cbn. apply list_lookup_insert_eq. by eapply lookup_lt_Some.
    + intros e' w' (-> & Htr). split; [done |]. rewrite Htr. cbn.
      by rewrite <- app_assoc.
Qed.

End Failure.

(** *** The claims of this part *)

Section Behaviour.

Variables (raw_text : string) (label : option (ndarray Z))
          (noise_amount : float) (n_samples : Z) (embedding_name : string)
          (max_seq_len : Z) (visual : bool).
Variables (w0 : World).

(** X17. With [visual=True] a call does what it does with [visual=False]
    and then, when that returns, prints three lines; the value returned
    and everything else is the same. *)
Theorem visual_only_prints (tokenizer : option Tokenizer)
    (text_to_input_fn : option TextToInput) :
  interpret C raw_text tokenizer text_to_input_fn label noise_amount n_samples
    embedding_name max_seq_len true w0
  = match interpret C raw_text tokenizer text_to_input_fn label noise_amount n_samples
            embedding_name max_seq_len false w0 with
    | (inr sg, w') => (inr sg, with_trace (trace w' ++ visual_prints) w')
    | (inl e, w') => (inl e, w')
    end.
Proof.
  rewrite !nlp_interpret_stages.
  destruct (decide _) as [_ | _]; [| done].
  destruct (text_to_model_input _ _ _ _ w0) as [[e | mi] wa]; [done |].
  destruct (call_build_predict_fn C embedding_name wa) as [[e | []] wb]; [done |].
  by destruct (smooth_grad C mi label noise_amount n_samples wb)
    as [[e | [[sg lab] proba]] wc].
Qed.

(** X11. With a tokenizer, the tokenizer is called first, with the text and
    [max_seq_len], the warning is not printed, and every [predict_fn]
    call receives the values of the dict it returned, each with one
    more leading axis of length 1, in the order of the dict. *)
Theorem tokenizer_values_batched_in_order (tok : Tokenizer)
    (encoded_inputs : list (string * ndarray Z)) res w' :
  tok raw_text max_seq_len = inr encoded_inputs ->
  interpret C raw_text (Some tok) None label noise_amount n_samples
    embedding_name max_seq_len visual w0 = (res, w') ->
  exists calls prints,
    trace w' = trace w0 ++ TokenizerCall raw_text max_seq_len
                 :: BuildCall embedding_name :: calls ++ prints /\
    Forall (fun ev => exists l a,
              ev = PredictCall (batched_tuple encoded_inputs) l a) calls /\
    (prints = [] \/ prints = visual_prints).
Proof.
  intros Htok Hrun. rewrite nlp_interpret_stages in Hrun.
  rewrite decide_True in Hrun by done.
  rewrite (tokenizer_input_run _ _ _ _ _ _ Htok), nlp_build_run in Hrun.
  cbn [model with_trace trace] in Hrun.
  destruct (_build_predict_fn C embedding_name (model w0)) as [[e | []] s1].
  { injection Hrun as <- <-. exists [], []. cbn.
    split; [by rewrite <- app_assoc |]. split; [constructor | by left]. }
  cbn [fst snd] in Hrun.
  set (wb := with_model s1 _) in Hrun.
  pose proof (nlp_smooth_grad_spec C (fun _ _ _ => True) False
                (batched_tuple encoded_inputs) label noise_amount n_samples wb
                ltac:(done)) as Hsg.
  unfold wp in Hsg.
  destruct (smooth_grad C (batched_tuple encoded_inputs) label noise_amount n_samples wb)
    as [[e | [[sg lab] proba]] wc].
  - injection Hrun as <- <-. destruct Hsg as (_ & (evs & Htr & Hevs) & _).
    exists (PredictCall (batched_tuple encoded_inputs) label None :: evs), [].
    rewrite app_nil_r. split; [by rewrite Htr; subst wb; cbn; rewrite <- !app_assoc |].
    split; [| by left]. constructor; [by eexists _, _ | done].
  - destruct Hsg as (g0 & aux & s2 & t & _ & _ & _ & Htr & _).
    cbn [fst snd] in Htr. injection Hrun as <- <-.
    exists (PredictCall (batched_tuple encoded_inputs) label None
              :: replicate (Z.to_nat n_samples)
                   (PredictCall (batched_tuple encoded_inputs) (Some lab)
                      (Some noise_amount))),
           (if visual then visual_prints else []).
    split; [| split].
    + destruct visual; cbn; rewrite Htr; subst wb; cbn; rewrite <- !app_assoc; cbn;
        [done | by rewrite app_nil_r].
    + constructor; [by eexists _, _ |]. apply Forall_replicate. by eexists _, _.
    + destruct visual; [by right | by left].
Qed.

(** X12. When the tokenizer raises, the call raises the same exception at
    once: the tokenizer call is the only thing that happened. *)
Theorem tokenizer_failure_stops_before_model (tok : Tokenizer) (e : exn) :
  tok raw_text max_seq_len = inl e ->
  interpret C raw_text (Some tok) None label noise_amount n_samples
    embedding_name max_seq_len visual w0
  = (inl e, with_trace (trace w0 ++ [TokenizerCall raw_text max_seq_len]) w0).
Proof.
  intros Htok. rewrite nlp_interpret_stages. rewrite decide_True by done.
  unfold text_to_model_input, tokenizer_to_input_fn, bind, ret, emit, modify. cbn.
  by rewrite Htok.
Qed.

(** X13. When the conversion function raises, or returns a value that
    [tuple] cannot iterate, the call raises that exception after the
    warning and the call of the function, before the gradient function
    is built: the model is never reached. *)
Theorem conversion_failure_stops_before_model (f : TextToInput) (e : exn) :
  (f raw_text = inl e \/ exists x, f raw_text = inr x /\ py_tuple x = inl e) ->
  interpret C raw_text None (Some f) label noise_amount n_samples
    embedding_name max_seq_len visual w0
  = (inl e, with_trace (trace w0 ++ [warning; TextToInputCall raw_text]) w0).
Proof.
  intros Hf. rewrite nlp_interpret_stages. rewrite decide_True by done.
  rewrite conversion_input_run.
  by destruct Hf as [-> | (x & -> & ->)].
Qed.

Section Prologue.

Variables (tokenizer : option Tokenizer) (text_to_input_fn : option TextToInput).
Variables (wa : World) (mi : list pyobj) (s1 s2 : ModelState) (g0 : ndarray float)
          (lab : ndarray Z) (aux : Aux) (proba : ndarray float).

#[local] Abbreviation run :=
  (interpret C raw_text tokenizer text_to_input_fn label noise_amount n_samples
     embedding_name max_seq_len visual w0).

(** X14. When a call with noise raises, after [k] of them returned, the
    call raises that exception: there is no retry, the remaining
    samples are not drawn and no average of the [k] gradients is
    returned. *)
Theorem noisy_failure_propagates (k : nat) (e : exn) :
  exactly_one_given tokenizer text_to_input_fn ->
  text_to_model_input raw_text tokenizer text_to_input_fn max_seq_len w0 = (inr mi, wa) ->
  _build_predict_fn C embedding_name (model wa) = (inr tt, s1) ->
  predict_fn C s1 mi label None = (inr (g0, lab, aux, proba), s2) ->
  k < Z.to_nat n_samples ->
  fails_after C k mi lab noise_amount (shape g0) s2 e ->
  exists w',
    run = (inl e, w') /\
    trace w' = trace wa ++ BuildCall embedding_name :: PredictCall mi label None
                 :: replicate (S k) (PredictCall mi (Some lab) (Some noise_amount)).
Proof.
  intros Hone Hin Hbuild Hbase Hk Hfail.
  rewrite nlp_interpret_stages. rewrite decide_True by exact Hone.
  rewrite Hin, nlp_build_run, Hbuild. cbn [fst snd].
  set (wb := with_model s1 _).
  assert (Hwp : wp (smooth_grad C mi label noise_amount n_samples)
                  (fun _ _ => False)
                  (fun e' w' =>
                     e' = e /\
                     trace w' = trace wb ++ PredictCall mi label None
                                  :: replicate (S k)
                                       (PredictCall mi (Some lab) (Some noise_amount)))
                  wb).
  { unfold smooth_grad. apply wp_bind. unfold call_predict_fn.
    apply wp_bind, wp_emit, wp_call_model. cbn [model with_trace].
    subst wb. cbn [model with_model]. rewrite Hbase.
    apply wp_bind, wp_alloc. apply wp_bind.
    eapply wp_conseq;
      [eapply (nlp_loop_fails mi lab noise_amount _ (shape g0) e k 0 _ _ (zeros_like g0));
       [exact Hk | | done | exact Hfail] | done |].
    - cbn. by apply list_lookup_middle.
    - intros e' w' (-> & Htr). split; [done |]. rewrite Htr. cbn.
      by rewrite <- app_assoc. }
  unfold wp in Hwp.
  destruct (smooth_grad C mi label noise_amount n_samples wb)
    as [[e' | r] wc]; [| done].
  destruct Hwp as (-> & Htr). exists wc. split; [done |].
  rewrite Htr. subst wb. cbn. by rewrite <- app_assoc.
Qed.

(** X15. For [n_samples <= 0] nothing is rejected: after the call without
    noise no other call is made, and the call returns the zero array
    shaped like the gradients of that call, divided by [n_samples]. *)
Theorem nlp_nonpositive_samples_not_rejected :
  (n_samples <= 0)%Z ->
  exactly_one_given tokenizer text_to_input_fn ->
  text_to_model_input raw_text tokenizer text_to_input_fn max_seq_len w0 = (inr mi, wa) ->
  _build_predict_fn C embedding_name (model wa) = (inr tt, s1) ->
  predict_fn C s1 mi label None = (inr (g0, lab, aux, proba), s2) ->
  exists sg w',
    run = (inr sg, w') /\
    trace w' = trace wa ++ BuildCall embedding_name :: PredictCall mi label None
                 :: (if visual then visual_prints else []) /\
    heap w' !! sg =
      Some (NdArray (shape g0)
              (replicate (length (elems g0))
                 (Float32.div pos_zero (Float32.of_int n_samples)))).
Proof.
  intros Hn Hone Hin Hbuild Hbase.
  rewrite nlp_interpret_stages. rewrite decide_True by exact Hone.
  rewrite Hin, nlp_build_run, Hbuild. cbn [fst snd].
  set (wb := with_model s1 _).
  pose proof (nlp_smooth_grad_spec C (fun _ _ t => t = zeros_like g0) True
                mi label noise_amount n_samples wb) as Hsg.
  unfold wp in Hsg.
  assert (Hz : Z.to_nat n_samples = 0) by lia.
  destruct (smooth_grad C mi label noise_amount n_samples wb)
    as [[e | [[sg lab'] proba']] wc].
  { destruct Hsg as (_ & _ & Hno); [| done].
    intros _. exists g0, lab, aux, proba, s2. subst wb. cbn [model with_model].
    split; [done |]. split; [done |]. intros k s t Hk. lia. }
  destruct Hsg as (g0' & aux' & s2' & t & Hp & _ & Hsg & Htr & HJ).
  { intros _. exists g0, lab, aux, proba, s2. subst wb. cbn [model with_model].
    split; [done |]. split; [done |]. intros k s t Hk. lia. }
  subst wb. cbn [model with_model fst snd] in Hp, Hsg, Htr.
  rewrite Hbase in Hp. injection Hp as <- <- <- <- <-.
  rewrite (HJ I) in Hsg. rewrite Hz in Htr. cbn [replicate] in Htr.
  eexists sg, _. split; [done |]. split.
  - destruct visual; cbn; rewrite Htr; cbn; by rewrite <- ?app_assoc.
  - destruct visual; cbn; rewrite Hsg; unfold div_scalar, zeros_like; cbn;
      by rewrite fmap_replicate.
Qed.

End Prologue.

(** X16. A call that raises assigns no attribute: [self.predicted_label]
    and [self.predicted_proba] are written only once the sampling loop
    and the division are through. *)
Theorem nlp_raising_run_keeps_attributes (tokenizer : option Tokenizer)
    (text_to_input_fn : option TextToInput) (e : exn) w' :
  interpret C raw_text tokenizer text_to_input_fn label noise_amount n_samples
    embedding_name max_seq_len visual w0 = (inl e, w') ->
  self_predicted_label w' = self_predicted_label w0 /\
  self_predicted_proba w' = self_predicted_proba w0.
Proof.
  intros Hrun. rewrite nlp_interpret_stages in Hrun.
  destruct (decide _) as [_ | _]; [| by injection Hrun as _ <-].
  destruct (text_to_model_input _ _ _ _ w0) as [[e1 | mi] wa] eqn:Hin.
  { injection Hrun as _ <-.
    by destruct (keeps_attrs_run _ _ _ _ (keeps_text_to_model_input _ _ _ _) Hin)
      as (? & ? & _). }
  destruct (keeps_attrs_run _ _ _ _ (keeps_text_to_model_input _ _ _ _) Hin)
    as (Hl1 & Hp1 & _).
  destruct (call_build_predict_fn C embedding_name wa) as [[e2 | []] wb] eqn:Hb;
    destruct (keeps_attrs_run _ _ _ _ (nlp_keeps_call_build_predict_fn _) Hb)
      as (Hl2 & Hp2 & _).
  { injection Hrun as _ <-. split; congruence. }
  destruct (smooth_grad C mi label noise_amount n_samples wb)
    as [[e3 | [[sg lab] proba]] wc] eqn:Hsg; [| done].
  destruct (keeps_attrs_run _ _ _ _ (nlp_keeps_smooth_grad _ _ _ _) Hsg) as (Hl3 & Hp3 & _).
  injection Hrun as _ <-. split; congruence.
Qed.

End Behaviour.

End Proofs.

End SmoothGradNLPBehaviourProofs.

(** ** SmoothGradInterpreter *)

Module SmoothGradBehaviourProofs.
Import SmoothGradInterpreter SmoothGradSpec SmoothGradProofs SmoothGradBehaviour.

Section Proofs.

Context {Inputs SavePath Vis ModelState : Type}.
Variable C : @Collaborators Inputs SavePath Vis ModelState.

Abbreviation event := (@event Vis).
Abbreviation World := (@SmoothGradInterpreter.World Vis ModelState).

Implicit Types (w : World) (ld lt : loc) (data_v stds : ndarray float).

(** *** The blocks that assign no attribute *)

Lemma keeps_np_random_normal (scale : float) (size : list nat) :
  keeps_attrs (np_random_normal (Vis := Vis) (ModelState := ModelState) scale size).
Proof.
  intros w0 w Hw. apply wp_np_random_normal. cbn zeta. by destruct (signbit scale).
Qed.

Lemma keeps_call_predict_fn (data : loc) (labels : option (ndarray Z)) :
  keeps_attrs (call_predict_fn C data labels).
Proof.
  unfold call_predict_fn. apply keeps_bind; [apply keeps_load |]. intros v.
  apply keeps_bind; [apply keeps_emit |]. intros _. apply keeps_call_model.
Qed.

Lemma keeps_draw_noise stds (data : loc) :
  keeps_attrs (draw_noise (Vis := Vis) (ModelState := ModelState) stds data).
Proof.
  unfold draw_noise. apply keeps_bind; [apply keeps_load |]. intros v.
  apply keeps_bind; [apply keeps_lift |]. intros ds.
  apply keeps_bind; [| intros parts; apply keeps_lift].
  apply keeps_for_each. intros j d.
  apply keeps_bind; [apply keeps_lift |]. intros s.
  apply keeps_bind; [apply keeps_np_random_normal |]. intros x. apply keeps_ret.
Qed.

Lemma keeps_sample_step (data : loc) (labels : ndarray Z) stds (lt : loc) (i : nat) :
  keeps_attrs (sample_step C data labels stds lt i).
Proof.
  unfold sample_step. apply keeps_bind; [apply keeps_draw_noise |]. intros noise.
  apply keeps_bind; [apply keeps_load |]. intros v.
  apply keeps_bind; [apply keeps_lift |]. intros sum.
  apply keeps_bind; [apply keeps_alloc |]. intros l.
  apply keeps_bind; [apply keeps_call_predict_fn |]. intros [[g ?] ?].
  apply keeps_iadd.
Qed.

Lemma keeps_smooth_grad (data : loc) (labels : ndarray Z) (noise_amount : float)
    (n_samples : Z) :
  keeps_attrs (smooth_grad C data labels noise_amount n_samples).
Proof.
  unfold smooth_grad. apply keeps_bind; [apply keeps_load |]. intros v.
  apply keeps_bind; [apply keeps_lift |]. intros stds.
  apply keeps_bind; [apply keeps_load |]. intros v'.
  apply keeps_bind; [apply keeps_alloc |]. intros lt.
  apply keeps_bind; [apply keeps_for_range; intros i; apply keeps_sample_step |].
  intros _. apply keeps_bind; [apply keeps_load |]. intros t.
  apply keeps_bind; [apply keeps_alloc |]. intros avg. apply keeps_ret.
Qed.

Lemma keeps_visualize_step (imgs : ndarray Z) (avg : loc) (visual : bool)
    (paths : list (option string)) (i : nat) :
  keeps_attrs (visualize_step C imgs avg visual paths i).
Proof.
  unfold visualize_step. apply keeps_bind; [apply keeps_lift |]. intros img.
  apply keeps_bind; [apply keeps_load |]. intros a.
  apply keeps_bind; [apply keeps_lift |]. intros g.
  apply keeps_bind; [apply keeps_lift |]. intros s.
  apply keeps_bind; [apply keeps_lift |]. intros v.
  apply keeps_bind.
  - apply keeps_if; [| apply keeps_ret].
    apply keeps_bind; [apply keeps_emit |]. intros _. apply keeps_lift.
  - intros _. destruct (paths !! i) as [[p |] |];
      [| apply keeps_ret | apply keeps_raise].
    apply keeps_bind; [apply keeps_emit |]. intros _. apply keeps_lift.
Qed.

Lemma keeps_visualize (imgs : ndarray Z) (avg : loc) (bsz : nat) (visual : bool)
    (save_path : option SavePath) :
  keeps_attrs (visualize C imgs avg bsz visual save_path).
Proof.
  unfold visualize. apply keeps_if; [apply keeps_ret |].
  apply keeps_bind; [apply keeps_lift |]. intros paths.
  apply keeps_for_range. intros i. apply keeps_visualize_step.
Qed.

(** *** The attributes *)

Lemma attrs_frame_labels w w' : attrs_frame w w' -> self_labels w' = self_labels w.
Proof. by intros (_ & _ & ?). Qed.

Lemma interpret_keeps_labels (inputs : Inputs) (labels : option (ndarray Z))
    (noise_amount : float) (n_samples resize_to : Z) (crop_to : option Z)
    (visual : bool) (save_path : option SavePath) w0 :
  wp (interpret C inputs labels noise_amount n_samples resize_to crop_to visual save_path)
    (fun _ _ => True) (fun _ w' => self_labels w' = self_labels w0) w0.
Proof.
  unfold interpret. apply wp_bind, wp_lift.
  destruct (images_transform_pipeline C inputs resize_to crop_to)
    as [e | [imgs data_v]]; [done |].
  apply wp_bind, wp_alloc. apply wp_bind, wp_load_any; [| by intros]. intros v _.
  apply wp_bind, wp_lift. destruct (len v) as [e | bsz]; [done |].
  apply wp_bind. unfold call_build_predict_fn. apply wp_call_model.
  destruct (_build_predict_fn C _) as [[e | []] s1]; [done |].
  apply wp_bind. unfold obtain_labels. apply wp_bind.
  set (wb := with_model s1 _).
  eapply wp_conseq;
    [apply (keeps_call_predict_fn _ _ wb wb (attrs_frame_refl _))
    | | by intros e w' Hfr; rewrite (attrs_frame_labels _ _ Hfr)].
  intros [[g0 pl] pp] wc Hc. apply attrs_frame_labels in Hc.
  apply wp_bind, wp_modify, wp_bind, wp_modify, wp_lift.
  destruct (reshape1 _ bsz) as [e | fixed]; [done |].
  set (w1 := set_predicted_proba pp _).
  apply wp_bind.
  eapply wp_conseq;
    [apply (keeps_smooth_grad _ _ _ _ w1 w1 (attrs_frame_refl _))
    | | by intros e w' Hfr; rewrite (attrs_frame_labels _ _ Hfr)].
  intros avg w2 H2. apply wp_bind.
  eapply wp_conseq;
    [apply (keeps_visualize _ _ _ _ _ w1 w2 H2)
    | | by intros e w' Hfr; rewrite (attrs_frame_labels _ _ Hfr)].
  intros [] w3 _. by apply wp_bind, wp_modify, wp_ret.
Qed.

(** X7. A call that raises leaves [self.labels] as it was: the attribute is
    written last, after the visualization. *)
Theorem raising_run_keeps_labels (inputs : Inputs) (labels : option (ndarray Z))
    (noise_amount : float) (n_samples resize_to : Z) (crop_to : option Z)
    (visual : bool) (save_path : option SavePath) w0 (e : exn) w' :
  interpret C inputs labels noise_amount n_samples resize_to crop_to visual save_path w0
  = (inl e, w') ->
  self_labels w' = self_labels w0.
Proof.
  intros Hrun.
  pose proof (interpret_keeps_labels inputs labels noise_amount n_samples resize_to
                crop_to visual save_path w0) as H.
  unfold wp in H. by rewrite Hrun in H.
Qed.

(** *** Calls that never reach the model, calls that never reach the visualizer *)

(** X10. A batch without a first axis has no length: the call raises
    [TypeError] at [len(data)], before the gradient function is built;
    the model is not touched and nothing is called. *)
Theorem unsized_batch_rejected (inputs : Inputs) (labels : option (ndarray Z))
    (noise_amount : float) (n_samples resize_to : Z) (crop_to : option Z)
    (visual : bool) (save_path : option SavePath) w0
    (imgs : ndarray Z) (data_v : ndarray float) :
  images_transform_pipeline C inputs resize_to crop_to = inr (imgs, data_v) ->
  shape data_v = [] ->
  interpret C inputs labels noise_amount n_samples resize_to crop_to visual save_path w0
  = (inl TypeError, with_heap (heap w0 ++ [data_v]) w0).
Proof.
  intros Hpipe Hsh.
  assert (H : wp (interpret C inputs labels noise_amount n_samples resize_to crop_to
                    visual save_path)
                (fun _ _ => False)
                (fun e w' => e = TypeError /\ w' = with_heap (heap w0 ++ [data_v]) w0)
                w0).
  { unfold interpret. apply wp_bind, wp_lift. rewrite Hpipe.
    apply wp_bind, wp_alloc.
    apply wp_bind. eapply wp_load; [cbn; by apply list_lookup_middle |].
    apply wp_bind, wp_lift. unfold len. by rewrite Hsh. }
  unfold wp in H.
  destruct (interpret C inputs labels noise_amount n_samples resize_to crop_to visual
              save_path w0) as [[e | avg] w']; [| done].
  by destruct H as [-> ->].
Qed.

(** X4. With [visual=False] and no [save_path] the visualizer is never
    consulted: the call does the same whatever [preprocess_save_path],
    [explanation_to_vis], [show_vis_explanation] and [save_image]
    are. *)
Theorem no_visualization_requested (inputs : Inputs) (labels : option (ndarray Z))
    (noise_amount : float) (n_samples resize_to : Z) (crop_to : option Z) w0
    (pre : option SavePath -> nat -> result (list (option string)))
    (to_vis : ndarray Z -> ndarray float -> result Vis)
    (show : Vis -> result unit) (save : string -> Vis -> result unit) :
  interpret (with_visualizer C pre to_vis show save) inputs labels noise_amount
    n_samples resize_to crop_to false None w0
  = interpret C inputs labels noise_amount n_samples resize_to crop_to false None w0.
Proof. reflexivity. Qed.

(** *** The sampling loop, batch by batch *)

Lemma replay_on_snoc (vs : list (ndarray float)) (fixed : ndarray Z) :
  forall (s : ModelState) v g pl pp s',
    length (replay_on C vs fixed s).1 = length vs ->
    predict_fn C (replay_on C vs fixed s).2 v (Some fixed) = (inr (g, pl, pp), s') ->
    replay_on C (vs ++ [v]) fixed s = ((replay_on C vs fixed s).1 ++ [g], s').
Proof.
  induction vs as [| u vs IH]; intros s v g pl pp s' Hlen Hp; cbn in *.
  { by rewrite Hp. }
  destruct (predict_fn C s u (Some fixed)) as [[e | [[g1 pl1] pp1]] s1]; [done |].
  specialize (IH s1 v g pl pp s').
  destruct (replay_on C vs fixed s1) as [gs s''] eqn:Hr. cbn in *.
  rewrite IH; [done | lia | done].
Qed.

Section AveragingLoop.

Variables (stds data_v : ndarray float) (fixed : ndarray Z).
Variables (ld lt : loc) (bsz : nat) (sshape : list nat) (w1 : World).

Hypothesis Hld : heap w1 !! ld = Some data_v.
Hypothesis Hsh : shape data_v = bsz :: sshape.
Hypothesis Hlt : ld < lt.
Hypothesis Hws : well_shaped data_v.
Hypothesis Hstds : stds_ok bsz stds.
Hypothesis Hgrad : gradients_shaped C data_v fixed.
Hypothesis Hacc : heap w1 !! lt = Some (zeros_like data_v).

#[local] Abbreviation averaging_inv := (averaging_inv C data_v fixed ld lt w1).

Lemma averaging_loop (n : nat) :
  wp (for_range 0 n (sample_step C ld fixed stds lt))
    (fun _ => averaging_inv n) (fun _ _ => False) w1.
Proof.
  eapply wp_conseq;
    [apply (hoare_for_range averaging_inv (fun _ _ => False)) with (lo := 0)
    | done | done].
  2: { split; [done |]. split; [by eapply lookup_lt_Some |]. split; [done |].
       exists [], []. rewrite app_nil_r. by repeat split. }
  intros i _ w (Hd & Hl & Hg & evs & gs & Htr & Hk & Hfx & Hrep & Hgs & Ht).
  assert (Hst : shape (foldl accumulate (zeros_like data_v) gs) = shape data_v)
    by by rewrite shape_foldl_accumulate.
  eapply wp_conseq;
    [apply (sample_step_spec C stds ld lt data_v fixed bsz sshape i w Hd Hsh Hlt Hl) | |].
  - intros [] w' (noise & noised & g & pl' & pp' & t & t' & Hns & Hnw & Hne & Hadd & Hp
                  & Ht0 & Hi & Hh & Hg' & Htr').
    assert (Hshn : shape noised = shape data_v /\ well_shaped noised).
    { rewrite binary_ufunc_same_shape in Hadd by done. injection Hadd as <-.
      split; [done |]. by apply well_shaped_sum. }
    destruct (Hgrad (model w) noised (proj1 Hshn) (proj2 Hshn))
      as (g2 & pl2 & pp2 & s2' & Hp2 & Hg2s & Hg2w).
    rewrite Hp in Hp2. injection Hp2 as <- <- <- <-.
    rewrite Ht in Ht0. injection Ht0 as <-.
    rewrite inplace_add_accumulate in Hi by congruence. injection Hi as <-.
    split; [| split; [| split]].
    + rewrite Hh, list_lookup_insert_ne by lia. rewrite lookup_app_l; [done |].
      by eapply lookup_lt_Some.
    + rewrite Hh, length_insert, length_app. cbn. lia.
    + congruence.
    + exists (evs ++ iteration_events stds data_v fixed (length (heap w)) noised),
             (gs ++ [g]).
      assert (Hpc : predict_calls
                      (evs ++ iteration_events stds data_v fixed (length (heap w)) noised)
                    = predict_calls evs ++ [(length (heap w), noised, Some fixed)]).
      { unfold iteration_events.
        by rewrite !predict_calls_app, draw_events_predict_calls. }
      rewrite Hpc. split; [by rewrite Htr', Htr, app_assoc |].
      split; [rewrite length_app; cbn; lia |].
      split; [apply Forall_app; split; [done | by repeat constructor] |].
      split; [| split].
      * rewrite fmap_app. cbn [fmap list_fmap fst snd].
        erewrite replay_on_snoc; rewrite Hrep; cbn [fst snd];
          [done | by rewrite length_fmap, Hk, Hgs | exact Hp].
      * rewrite length_app. cbn. lia.
      * rewrite Hh, foldl_app. cbn [foldl].
        apply list_lookup_insert_eq. rewrite length_app. lia.
  - intros e w' (_ & _ & _ & Hno). apply Hno. split; [done |].
    intros noise Hns Hnw Hne.
    pose proof (binary_ufunc_same_shape Float32.add data_v noise Hns Hws Hnw) as Hadd.
    destruct (Hgrad (model w)
                (NdArray (shape data_v) (zip_with Float32.add (elems data_v) (elems noise)))
                eq_refl (well_shaped_sum _ _ Hns Hws Hnw))
      as (g & pl' & pp' & s' & Hp & Hg2s & Hg2w).
    eexists _, g, pl', pp', s', _, _. split; [exact Hadd |]. split; [exact Hp |].
    split; [exact Ht |]. apply inplace_add_accumulate; [congruence | done].
Qed.

End AveragingLoop.

(** The block under [# SmoothGrad] with a gradient function that
    returns on every batch: it returns the mean of the gradients of the
    batches it passed. *)
Lemma smooth_grad_batches (noise_amount : float) (n_samples : Z)
    (stds data_v : ndarray float) (fixed : ndarray Z) (ld : loc) (bsz : nat)
    (sshape : list nat) w1 :
  heap w1 !! ld = Some data_v ->
  shape data_v = bsz :: sshape ->
  well_shaped data_v ->
  compute_stds noise_amount data_v = inr stds ->
  stds_ok bsz stds ->
  gradients_shaped C data_v fixed ->
  wp (smooth_grad C ld fixed noise_amount n_samples)
    (fun avg w2 =>
       exists evs gs,
         trace w2 = trace w1 ++ evs /\
         length (predict_calls evs) = Z.to_nat n_samples /\
         Forall (fun c => c.2 = Some fixed) (predict_calls evs) /\
         (replay_on C ((fun c => c.1.2) <$> predict_calls evs) fixed (model w1)).1 = gs /\
         heap w2 !! avg = Some (mean_of data_v gs n_samples))
    (fun _ _ => False)
    w1.
Proof.
  intros Hld Hsh Hws Hstds Hok Hgrad. unfold smooth_grad.
  pose proof (lookup_lt_Some _ _ _ Hld) as Hlt.
  apply wp_bind. eapply wp_load; [exact Hld |].
  apply wp_bind, wp_lift. rewrite Hstds.
  apply wp_bind. eapply wp_load; [exact Hld |].
  apply wp_bind, wp_alloc. apply wp_bind.
  eapply wp_conseq;
    [apply (averaging_loop stds data_v fixed ld (length (heap w1)) bsz sshape
              (with_heap (heap w1 ++ [zeros_like data_v]) w1))
    | | done]; try done.
  - cbn. by apply lookup_app_l_Some.
  - cbn. by apply list_lookup_middle.
  - intros [] w (Hd & Hl & Hg & evs & gs & Htr & Hk & Hfx & Hrep & Hgs & Ht).
    apply wp_bind. eapply wp_load; [exact Ht |].
    apply wp_bind, wp_alloc, wp_ret. exists evs, gs. cbn in *.
    split; [done |]. split; [done |]. split; [done |].
    split; [by rewrite Hrep |]. by apply list_lookup_middle.
Qed.

(** *** The calls of the visualization block *)

Lemma show_calls_app (t1 t2 : list event) :
  show_calls (t1 ++ t2) = show_calls t1 ++ show_calls t2.
Proof. apply omap_app. Qed.

Lemma save_calls_app (t1 t2 : list event) :
  save_calls (t1 ++ t2) = save_calls t1 ++ save_calls t2.
Proof. apply omap_app. Qed.

Lemma loop_events_not_shown stds data_v (fixed : ndarray Z) lt g
    (its : list (list event)) :
  Forall (iteration_ok stds data_v fixed lt g) its ->
  show_calls (concat its) = [] /\ save_calls (concat its) = [].
Proof.
  intros Hits. apply iterations_ok in Hits.
  induction Hits as [| ev evs Hev _ [IH1 IH2]]; [done |].
  by destruct ev.
Qed.

Lemma saved_nil (paths : list (option string)) : saved (Vis := Vis) paths [] = [].
Proof. by destruct paths. Qed.

Lemma saved_snoc (vs : list Vis) :
  forall (paths : list (option string)) (v : Vis) (po : option string),
    paths !! length vs = Some po ->
    saved paths (vs ++ [v])
    = saved paths vs ++ match po with Some p => [(p, v)] | None => [] end.
Proof.
  induction vs as [| v0 vs IH]; intros [| p0 paths] v po Hpo; try done.
  - cbn in Hpo. injection Hpo as ->. unfold saved. cbn.
    change (omap _ (zip paths [])) with (saved (Vis := Vis) paths []).
    rewrite saved_nil. by destruct po.
  - cbn in Hpo. unfold saved in *. cbn. rewrite (IH paths v po Hpo).
    by destruct p0.
Qed.

(** One rendering: shown if [visual], saved if it has a path. *)
Lemma visualize_step_calls (imgs : ndarray Z) (avg : loc) (a : ndarray float)
    (visual : bool) (paths : list (option string)) (i : nat) w :
  heap w !! avg = Some a ->
  wp (visualize_step C imgs avg visual paths i)
    (fun _ w' =>
       heap w' = heap w /\
       exists v po,
         render C imgs a i = inr v /\ paths !! i = Some po /\
         trace w' = trace w ++ (if visual then [ShowCall v] else [])
                      ++ match po with Some p => [SaveCall p v] | None => [] end)
    (fun _ _ => True) w.
Proof.
  intros Ha. unfold visualize_step, render.
  apply wp_bind, wp_lift. destruct (getitem imgs i) as [e | img]; [done |].
  apply wp_bind. eapply wp_load; [exact Ha |].
  apply wp_bind, wp_lift. destruct (getitem a i) as [e | g]; [done |].
  apply wp_bind, wp_lift. destruct (abs_sum0 _ g) as [e | m]; [done |].
  apply wp_bind, wp_lift. destruct (explanation_to_vis C img m) as [e | v]; [done |].
  apply wp_bind. destruct visual.
  - apply wp_bind, wp_emit, wp_lift.
    destruct (show_vis_explanation C v) as [e | []]; [done |].
    destruct (paths !! i) as [[p |] |]; [| | by apply wp_raise].
    + apply wp_bind, wp_emit, wp_lift.
      destruct (save_image C p v) as [e | []]; [done |].
      split; [done |]. exists v, (Some p). cbn. by rewrite <- app_assoc.
    + apply wp_ret. split; [done |]. by exists v, None.
  - apply wp_ret.
    destruct (paths !! i) as [[p |] |]; [| | by apply wp_raise].
    + apply wp_bind, wp_emit, wp_lift.
      destruct (save_image C p v) as [e | []]; [done |].
      split; [done |]. by exists v, (Some p).
    + apply wp_ret. split; [done |]. exists v, None. cbn. by rewrite app_nil_r.
Qed.

(** The block: nothing when neither showing nor saving is asked for;
    otherwise one rendering per sample, in order. *)
Lemma visualize_calls (imgs : ndarray Z) (avg : loc) (a : ndarray float) (bsz : nat)
    (visual : bool) (save_path : option SavePath) w :
  heap w !! avg = Some a ->
  wp (visualize C imgs avg bsz visual save_path)
    (fun _ w' =>
       heap w' = heap w /\
       exists vis_evs,
         trace w' = trace w ++ vis_evs /\
         if bool_decide (save_path = None) && negb visual then vis_evs = []
         else exists paths vs,
             preprocess_save_path C save_path bsz = inr paths /\
             length vs = bsz /\
             (forall i v, vs !! i = Some v -> render C imgs a i = inr v) /\
             show_calls vis_evs = (if visual then vs else []) /\
             save_calls vis_evs = saved paths vs)
    (fun _ _ => True) w.
Proof.
  intros Ha. unfold visualize.
  destruct (bool_decide (save_path = None) && negb visual).
  { apply wp_ret. split; [done |]. exists []. by rewrite app_nil_r. }
  apply wp_bind, wp_lift.
  destruct (preprocess_save_path C save_path bsz) as [e | paths]; [done |].
  set (I := fun (i : nat) (w' : World) =>
              heap w' = heap w /\
              exists vis_evs vs,
                trace w' = trace w ++ vis_evs /\ length vs = i /\
                (forall j v, vs !! j = Some v -> render C imgs a j = inr v) /\
                show_calls vis_evs = (if visual then vs else []) /\
                save_calls vis_evs = saved paths vs).
  eapply wp_conseq;
    [apply (hoare_for_range I (fun _ _ => True)) with (lo := 0) | | done].
  - intros i _ w' (Hh & vis_evs & vs & Htr & Hlen & Hvs & Hshow & Hsave).
    eapply wp_conseq;
      [apply (visualize_step_calls imgs avg a visual paths i w'); by rewrite Hh
      | | done].
    intros [] w'' (Hh' & v & po & Hv & Hpo & Htr').
    split; [congruence |].
    exists (vis_evs ++ (if visual then [ShowCall v] else [])
              ++ match po with Some p => [SaveCall p v] | None => [] end),
           (vs ++ [v]).
    split; [by rewrite Htr', Htr, <- app_assoc |].
    split; [rewrite length_app; cbn; lia |].
    split; [| split].
    + intros j u Hj. apply lookup_app_Some in Hj as [Hj | [Hge Hj]]; [by apply Hvs |].
      rewrite Hlen in Hj, Hge. destruct (j - i) as [| d] eqn:Hd; [| done].
      injection Hj as <-. by replace j with i by lia.
    + rewrite !show_calls_app, Hshow.
      destruct visual, po; cbn; by rewrite ?app_nil_r.
    + rewrite !save_calls_app, Hsave, (saved_snoc vs paths v po) by by rewrite Hlen.
      destruct visual, po; cbn; by rewrite ?app_nil_r.
  - split; [done |]. exists [], []. rewrite app_nil_r, saved_nil.
    repeat split; try done. by destruct visual.
  - intros [] w' (Hh & vis_evs & vs & Htr & Hlen & Hvs & Hshow & Hsave).
    split; [done |]. exists vis_evs. split; [done |]. by exists paths, vs.
Qed.

(** *** The shape of the explanation *)

(** Whatever the gradient function returns, the accumulator keeps its
    shape through the loop: [+=] never reshapes its target. *)
Lemma accumulator_keeps_shape stds (ld lt : loc) data_v (fixed : ndarray Z)
    (bsz : nat) (sshape sh : list nat) (n : nat) w1 :
  heap w1 !! ld = Some data_v -> shape data_v = bsz :: sshape -> ld < lt ->
  (exists t, heap w1 !! lt = Some t /\ shape t = sh) ->
  wp (for_range 0 n (sample_step C ld fixed stds lt))
    (fun _ w' => exists t, heap w' !! lt = Some t /\ shape t = sh)
    (fun _ _ => True) w1.
Proof.
  intros Hld Hsh Hlt Ht.
  set (I := fun (k : nat) (w : World) =>
              heap w !! ld = Some data_v /\
              exists t, heap w !! lt = Some t /\ shape t = sh).
  eapply wp_conseq;
    [apply (hoare_for_range I (fun _ _ => True)) with (lo := 0) | | done].
  - intros i _ w (Hd & t & Hl & Hs).
    pose proof (lookup_lt_Some _ _ _ Hl) as Hlen.
    eapply wp_conseq;
      [apply (sample_step_spec C stds ld lt data_v fixed bsz sshape i w Hd Hsh Hlt Hlen)
      | | done].
    intros [] w' (noise & noised & g & pl & pp & t0 & t' & _ & _ & _ & _ & _ & Ht0 & Hi
                  & Hh & _).
    unfold I. rewrite Hh. split.
    + rewrite list_lookup_insert_ne by lia. by apply lookup_app_l_Some.
    + exists t'. split.
      * apply list_lookup_insert_eq. rewrite length_app. lia.
      * rewrite (shape_inplace_ufunc _ _ _ _ Hi). congruence.
  - done.
  - by intros [] w' (_ & H).
Qed.

(** So the explanation has the shape of the batch. *)
Lemma smooth_grad_result_shape (noise_amount : float) (n_samples : Z) data_v
    (fixed : ndarray Z) (ld : loc) (bsz : nat) (sshape : list nat) w1 :
  heap w1 !! ld = Some data_v -> shape data_v = bsz :: sshape ->
  wp (smooth_grad C ld fixed noise_amount n_samples)
    (fun avg w' => exists a, heap w' !! avg = Some a /\ shape a = shape data_v)
    (fun _ _ => True) w1.
Proof.
  intros Hld Hsh. pose proof (lookup_lt_Some _ _ _ Hld) as Hlt.
  unfold smooth_grad.
  apply wp_bind. eapply wp_load; [exact Hld |].
  apply wp_bind, wp_lift.
  destruct (compute_stds noise_amount data_v) as [e | stds]; [done |].
  apply wp_bind. eapply wp_load; [exact Hld |].
  apply wp_bind, wp_alloc, wp_bind.
  eapply wp_conseq;
    [apply (accumulator_keeps_shape stds ld (length (heap w1)) data_v fixed bsz sshape
              (shape data_v)); [cbn; by apply lookup_app_l_Some | done | done |]
    | | done].
  - exists (zeros_like data_v). split; [| done]. cbn. by apply list_lookup_middle.
  - intros [] w2 (t & Ht & Hs).
    apply wp_bind. eapply wp_load; [exact Ht |].
    apply wp_bind, wp_alloc, wp_ret.
    eexists. split; [cbn; by apply list_lookup_middle |]. done.
Qed.

(** What is rendered for a sample, entry by entry. *)
Lemma render_entries (imgs : ndarray Z) (a : ndarray float) (bsz : nat)
    (sshape : list nat) (i : nat) (v : Vis) :
  shape a = bsz :: sshape ->
  (forall c rest, sshape = c :: rest -> c < 8 \/ foldr Nat.mul 1 rest <> 1) ->
  render C imgs a i = inr v ->
  exists img g,
    samples_of imgs !! i = Some img /\ samples_of a !! i = Some g /\
    explanation_to_vis C img (abs_sum_first_axis sshape (elems g)) = inr v.
Proof.
  intros Hsa Hseq. unfold render.
  destruct (getitem imgs i) as [e | img] eqn:Himg; [done |].
  destruct (getitem a i) as [e | g] eqn:Hg; [done |].
  apply getitem_samples_of in Himg, Hg.
  pose proof (samples_of_shape _ _ _ Hg) as Hsg. rewrite Hsa in Hsg. cbn in Hsg.
  rewrite abs_sum0_first_axis by (rewrite Hsg; exact Hseq).
  rewrite Hsg. intros Hv. by exists img, g.
Qed.

(** *** The stages of a call *)

Section Run.

Variables (inputs : Inputs) (labels : option (ndarray Z)) (noise_amount : float)
          (n_samples : Z) (resize_to : Z) (crop_to : option Z) (visual : bool)
          (save_path : option SavePath).
Variables (w0 : World) (imgs : ndarray Z) (data_v : ndarray float)
          (bsz : nat) (sshape : list nat).
Variables (s1 s2 : ModelState) (g0 : ndarray float) (pl : ndarray Z)
          (pp : ndarray float).

#[local] Abbreviation run :=
  (interpret C inputs labels noise_amount n_samples resize_to crop_to visual save_path w0).
#[local] Abbreviation ld := (length (heap w0)).
#[local] Abbreviation lt := (S (length (heap w0))).
#[local] Abbreviation w1 := (after_labels w0 data_v labels s2 pl pp).

Hypothesis Hpipe :
  images_transform_pipeline C inputs resize_to crop_to = inr (imgs, data_v).
Hypothesis Hsh : shape data_v = bsz :: sshape.
Hypothesis Hbuild : _build_predict_fn C (model w0) = (inr tt, s1).
Hypothesis Hbase : predict_fn C s1 data_v labels = (inr (g0, pl, pp), s2).

(** Up to the reshape of the labels. *)
Lemma interpret_labels_stage (Q : loc -> World -> Prop) (E : exn -> World -> Prop) :
  match reshape1 (match labels with None => pl | Some l => l end) bsz with
  | inl e => E e w1
  | inr fixed =>
      wp (smooth_grad C ld fixed noise_amount n_samples)
        (fun avg w2 =>
           wp (visualize C imgs avg bsz visual save_path)
             (fun _ w3 => Q avg (set_labels fixed w3)) E w2)
        E w1
  end ->
  wp (interpret C inputs labels noise_amount n_samples resize_to crop_to visual save_path)
    Q E w0.
Proof.
  intros H. unfold interpret.
  apply wp_bind, wp_lift. rewrite Hpipe.
  apply wp_bind, wp_alloc.
  apply wp_bind. eapply wp_load; [cbn; by apply list_lookup_middle |].
  apply wp_bind, wp_lift. unfold len. rewrite Hsh.
  apply wp_bind. unfold call_build_predict_fn. apply wp_call_model.
  cbn [model with_heap]. rewrite Hbuild.
  apply wp_bind. unfold obtain_labels.
  apply wp_bind. unfold call_predict_fn.
  apply wp_bind. eapply wp_load; [cbn; by apply list_lookup_middle |].
  apply wp_bind, wp_emit, wp_call_model.
  cbn [model with_heap with_trace with_model]. rewrite Hbase.
  apply wp_bind, wp_modify, wp_bind, wp_modify, wp_lift.
  destruct (reshape1 (match labels with None => pl | Some l => l end) bsz)
    as [e | fixed]; [exact H |].
  apply wp_bind. eapply wp_conseq; [exact H | | done].
  intros avg w2 Hv. apply wp_bind. eapply wp_conseq; [exact Hv | | done].
  intros [] w3 HQ. by apply wp_bind, wp_modify, wp_ret.
Qed.

Lemma after_labels_heap : heap w1 = heap w0 ++ [data_v].
Proof. done. Qed.

Lemma after_labels_data : heap w1 !! ld = Some data_v.
Proof. cbn. by apply list_lookup_middle. Qed.

Lemma after_labels_trace : trace w1 = trace w0 ++ [PredictCall ld data_v labels].
Proof. done. Qed.

Lemma after_labels_model : model w1 = s2.
Proof. done. Qed.

(** X6. Once the call on the unperturbed batch has returned, its
    predictions are stored in [self.predicted_label] and
    [self.predicted_proba], whether the call then returns or raises and
    whether labels were given or not; a call that returns has stored in
    [self.labels] the labels of the noisy calls: the caller's, or else
    the predicted ones, as an array of shape [(bsz,)]. *)
Theorem attributes_after_baseline res w' :
  interpret C inputs labels noise_amount n_samples resize_to crop_to visual save_path w0
  = (res, w') ->
  self_predicted_label w' = Some pl /\
  self_predicted_proba w' = Some pp /\
  forall avg, res = inr avg ->
    self_labels w' =
      Some (NdArray [bsz] (elems (match labels with None => pl | Some l => l end))).
Proof.
  intros Hrun.
  set (P := fun (ok : bool) (w : World) =>
              self_predicted_label w = Some pl /\
              self_predicted_proba w = Some pp /\
              (ok = true -> self_labels w =
                 Some (NdArray [bsz]
                         (elems (match labels with None => pl | Some l => l end))))).
  assert (H : wp (interpret C inputs labels noise_amount n_samples resize_to crop_to
                       visual save_path)
                 (fun _ => P true) (fun _ => P false) w0).
  { apply interpret_labels_stage.
    destruct (reshape1 _ bsz) as [e' | fixed] eqn:Hr; [by repeat split |].
    unfold reshape1 in Hr. destruct (decide _) as [_ | _]; [| done].
    injection Hr as <-.
    eapply wp_conseq;
      [apply (keeps_smooth_grad _ _ _ _ w1 w1 (attrs_frame_refl _)) | |].
    2: { intros e' w2 (Hl & Hp & _). split; [by rewrite Hl |]. by split; [rewrite Hp |]. }
    intros avg w2 H2.
    eapply wp_conseq; [apply (keeps_visualize _ _ _ _ _ w1 w2 H2) | |].
    2: { intros e' w3 (Hl & Hp & _). split; [by rewrite Hl |]. by split; [rewrite Hp |]. }
    intros [] w3 (Hl & Hp & _). split; [by cbn; rewrite Hl |].
    by split; [cbn; rewrite Hp |]. }
  unfold wp in H. rewrite Hrun in H.
  destruct res as [e | avg]; destruct H as (Hl & Hp & Hlab);
    (split; [done |]); (split; [done |]); [by intros avg' [=] |].
  intros _ _. by apply Hlab.
Qed.

(** *** The explanation and the batches passed *)

Lemma shape_mean_of (like : ndarray float) (gs : list (ndarray float)) (n : Z) :
  shape (mean_of like gs n) = shape like.
Proof. unfold mean_of, div_scalar. cbn. by rewrite shape_foldl_accumulate. Qed.

(** X1. With a gradient function that returns, on every batch shaped like
    the batch, gradients of that shape, and [n_samples < 2^63], the call
    returns the [float32] mean of the gradients that the function
    returned for the [n_samples] noised batches it was given, in the
    order of the calls: an array of the shape of the batch whose entries
    are those of these gradients added, one call after the other, to
    [0.0], then divided by [n_samples].  The gradients of the call on
    the unperturbed batch are not part of it. *)
Theorem explanation_is_mean_of_noisy_gradients (fixed : ndarray Z)
    (stds : ndarray float) :
  (n_samples < 2 ^ 63)%Z ->
  reshape1 (match labels with None => pl | Some l => l end) bsz = inr fixed ->
  well_shaped data_v ->
  compute_stds noise_amount data_v = inr stds ->
  stds_ok bsz stds ->
  gradients_shaped C data_v fixed ->
  visualization_succeeds C imgs bsz visual save_path (shape data_v) ->
  exists avg w' evs noisy,
    interpret C inputs labels noise_amount n_samples resize_to crop_to visual save_path w0
    = (inr avg, w') /\
    trace w' = trace w0 ++ evs /\
    predict_calls evs = (ld, data_v, labels) :: noisy /\
    length noisy = Z.to_nat n_samples /\
    heap w' !! avg =
      Some (float32_mean (shape data_v) (length (elems data_v))
              (replay_on C ((fun c => c.1.2) <$> noisy) fixed s2).1 n_samples).
Proof.
  intros _ Hfixed Hws Hstds Hok Hgrad Hvis.
  assert (H : wp (interpret C inputs labels noise_amount n_samples resize_to crop_to
                    visual save_path)
                (fun avg w' =>
                   exists evs noisy,
                     trace w' = trace w0 ++ evs /\
                     predict_calls evs = (ld, data_v, labels) :: noisy /\
                     length noisy = Z.to_nat n_samples /\
                     heap w' !! avg =
                       Some (mean_of data_v
                               (replay_on C ((fun c => c.1.2) <$> noisy) fixed s2).1
                               n_samples))
                (fun _ _ => False) w0).
  { apply interpret_labels_stage. rewrite Hfixed.
    eapply wp_conseq;
      [apply (smooth_grad_batches noise_amount n_samples stds data_v fixed ld bsz
                sshape w1 after_labels_data Hsh Hws Hstds Hok Hgrad)
      | | done].
    intros avg w2 (evs & gs & Htr & Hk & _ & Hrep & Havg).
    destruct (Hvis avg w2 _ Havg (shape_mean_of _ _ _)) as (w3 & Hrun3).
    pose proof (visualize_spec C imgs avg bsz visual save_path w2) as Hfr.
    unfold wp in Hfr. rewrite Hrun3 in Hfr.
    destruct Hfr as (Hh3 & _ & _ & _ & vis_evs & Htr3 & Hvs).
    eapply wp_run_eq; [exact Hrun3 |]. cbn.
    destruct (vis_events_calls _ Hvs) as [Hvp _].
    exists ([PredictCall ld data_v labels] ++ evs ++ vis_evs), (predict_calls evs).
    split; [by rewrite Htr3, Htr, after_labels_trace, <- !app_assoc |].
    split; [by rewrite !predict_calls_app, Hvp, app_nil_r |].
    split; [done |]. by rewrite Hh3, Havg, <- Hrep, after_labels_model. }
  unfold wp in H. destruct run as [[e | avg] w']; [done |].
  destruct H as (evs & noisy & Htr & Hc & Hlen & Havg).
  exists avg, w', evs, noisy. repeat (split; [done |]).
  rewrite Havg. f_equal. apply mean_of_float32_mean.
Qed.

(** X3. In a call that returns, the explanation has the shape of the
    batch and the visualizer was used as follows.  With [visual=False]
    and no [save_path]: not at all.  Otherwise: one rendering per sample
    [i] of the batch, made by [explanation_to_vis] of the image [i] of
    [imgs] and of the absolute values of the sample [i] of the
    explanation summed along its first axis; with [visual=True] every
    rendering was shown, in the order of the samples; and the renderings
    saved are those of the samples whose entry in the processed
    [save_path] is not [None], under that path, in the order of the
    samples.  The samples are taken such that NumPy adds along their
    first axis one block after the other: a first axis shorter than 8,
    or more than one entry behind it. *)
Theorem visualization_calls (fixed : ndarray Z) (avg : loc) w' :
  reshape1 (match labels with None => pl | Some l => l end) bsz = inr fixed ->
  (forall c rest, sshape = c :: rest -> c < 8 \/ foldr Nat.mul 1 rest <> 1) ->
  interpret C inputs labels noise_amount n_samples resize_to crop_to visual save_path w0
  = (inr avg, w') ->
  exists a,
    heap w' !! avg = Some a /\ shape a = bsz :: sshape /\
    if bool_decide (save_path = None) && negb visual then
      show_calls (trace w') = show_calls (trace w0) /\
      save_calls (trace w') = save_calls (trace w0)
    else
      exists paths vs,
        preprocess_save_path C save_path bsz = inr paths /\
        length vs = bsz /\
        (forall i v, vs !! i = Some v ->
           exists img g,
             samples_of imgs !! i = Some img /\ samples_of a !! i = Some g /\
             explanation_to_vis C img (abs_sum_first_axis sshape (elems g)) = inr v) /\
        show_calls (trace w') = show_calls (trace w0) ++ (if visual then vs else []) /\
        save_calls (trace w') = save_calls (trace w0) ++ saved paths vs.
Proof.
  intros Hfixed Hseq Hrun.
  assert (H : wp (interpret C inputs labels noise_amount n_samples resize_to crop_to
                    visual save_path)
                (fun avg w' =>
                   exists a,
                     heap w' !! avg = Some a /\ shape a = bsz :: sshape /\
                     if bool_decide (save_path = None) && negb visual then
                       show_calls (trace w') = show_calls (trace w0) /\
                       save_calls (trace w') = save_calls (trace w0)
                     else
                       exists paths vs,
                         preprocess_save_path C save_path bsz = inr paths /\
                         length vs = bsz /\
                         (forall i v, vs !! i = Some v -> render C imgs a i = inr v) /\
                         show_calls (trace w')
                         = show_calls (trace w0) ++ (if visual then vs else []) /\
                         save_calls (trace w') = save_calls (trace w0) ++ saved paths vs)
                (fun _ _ => True) w0).
  { apply interpret_labels_stage. rewrite Hfixed.
    eapply wp_conseq;
      [apply wp_and;
         [apply (smooth_grad_spec C (fun _ _ _ => True) False noise_amount n_samples
                   data_v data_v fixed ld bsz sshape w1 after_labels_data Hsh ltac:(done))
         | apply (smooth_grad_result_shape noise_amount n_samples data_v fixed ld bsz
                    sshape w1 after_labels_data Hsh)]
      | | done].
    intros avg' w2 [(stds' & t & _ & _ & _ & _ & Havg & _ & (its & Htr & _ & Hok) & _)
                    (a & Ha & Hsa)].
    rewrite Havg in Ha. injection Ha as Ha. rewrite <- Ha, Hsh in Hsa.
    eapply wp_conseq;
      [apply (visualize_calls imgs avg' _ bsz visual save_path w2 Havg) | | done].
    intros [] w3 (Hh3 & vis_evs & Htr3 & Hcase).
    destruct (loop_events_not_shown _ _ _ _ _ _ Hok) as [Hs1 Hs2].
    eexists. split; [cbn; rewrite Hh3; exact Havg |]. split; [exact Hsa |].
    cbn [trace set_labels]. rewrite Htr3, Htr, after_labels_trace.
    rewrite !show_calls_app, !save_calls_app, Hs1, Hs2. cbn [show_calls save_calls omap].
    rewrite !app_nil_r.
    destruct (bool_decide (save_path = None) && negb visual).
    - subst vis_evs. cbn. by rewrite !app_nil_r.
    - destruct Hcase as (paths & vs & Hpre & Hlen & Hvs & Hshow & Hsave).
      exists paths, vs. by rewrite Hshow, Hsave. }
  unfold wp in H. rewrite Hrun in H. destruct H as (a & Ha & Hsa & Hcase).
  exists a. split; [done |]. split; [done |].
  destruct (bool_decide (save_path = None) && negb visual); [done |].
  destruct Hcase as (paths & vs & Hpre & Hlen & Hvs & Hshow & Hsave).
  exists paths, vs. repeat (split; [done |]). split; [| done].
  intros i v Hi. by apply (render_entries imgs a bsz sshape i v Hsa Hseq), Hvs.
Qed.

(** X5. When the visualization raises, the call raises that exception
    after all the [n_samples] calls on noised batches have been made:
    the explanation that was computed is not returned. *)
Theorem visualization_failure_loses_explanation (fixed : ndarray Z)
    (stds : ndarray float) (e : exn) :
  reshape1 (match labels with None => pl | Some l => l end) bsz = inr fixed ->
  well_shaped data_v ->
  compute_stds noise_amount data_v = inr stds ->
  stds_ok bsz stds ->
  gradients_shaped C data_v fixed ->
  visualization_raises C imgs bsz visual save_path (shape data_v) e ->
  exists w' evs noisy,
    run = (inl e, w') /\
    trace w' = trace w0 ++ evs /\
    predict_calls evs = (ld, data_v, labels) :: noisy /\
    length noisy = Z.to_nat n_samples.
Proof.
  intros Hfixed Hws Hstds Hok Hgrad Hvis.
  assert (H : wp (interpret C inputs labels noise_amount n_samples resize_to crop_to
                    visual save_path)
                (fun _ _ => False)
                (fun e' w' =>
                   e' = e /\
                   exists evs noisy,
                     trace w' = trace w0 ++ evs /\
                     predict_calls evs = (ld, data_v, labels) :: noisy /\
                     length noisy = Z.to_nat n_samples)
                w0).
  { apply interpret_labels_stage. rewrite Hfixed.
    eapply wp_conseq;
      [apply (smooth_grad_batches noise_amount n_samples stds data_v fixed ld bsz
                sshape w1 after_labels_data Hsh Hws Hstds Hok Hgrad)
      | | done].
    intros avg w2 (evs & gs & Htr & Hk & _ & Hrep & Havg).
    destruct (Hvis avg w2 _ Havg (shape_mean_of _ _ _)) as (w3 & Hrun3).
    pose proof (visualize_spec C imgs avg bsz visual save_path w2) as Hfr.
    unfold wp in Hfr. rewrite Hrun3 in Hfr.
    destruct Hfr as (Hh3 & _ & _ & _ & vis_evs & Htr3 & Hvs).
    eapply wp_run_eq; [exact Hrun3 |]. cbn. split; [done |].
    destruct (vis_events_calls _ Hvs) as [Hvp _].
    exists ([PredictCall ld data_v labels] ++ evs ++ vis_evs), (predict_calls evs).
    split; [by rewrite Htr3, Htr, after_labels_trace, <- !app_assoc |].
    split; [by rewrite !predict_calls_app, Hvp, app_nil_r | done]. }
  unfold wp in H. destruct run as [[e' | avg] w']; [| done].
  destruct H as (-> & evs & noisy & ?). by exists w', evs, noisy.
Qed.

(** X2. When the gradient function raises on the first noised batch, the
    call raises that exception: the noise of the first iteration was
    drawn, one call on a noised batch was made, nothing is retried and
    nothing is returned. *)
Theorem gradient_failure_propagates (fixed : ndarray Z) (stds : ndarray float)
    (e : exn) :
  reshape1 (match labels with None => pl | Some l => l end) bsz = inr fixed ->
  well_shaped data_v ->
  compute_stds noise_amount data_v = inr stds ->
  stds_ok bsz stds ->
  (0 < n_samples)%Z ->
  (forall v, shape v = shape data_v -> (predict_fn C s2 v (Some fixed)).1 = inl e) ->
  exists w' evs l noised,
    run = (inl e, w') /\
    trace w' = trace w0 ++ evs /\
    predict_calls evs = [(ld, data_v, labels); (l, noised, Some fixed)] /\
    normal_calls evs = normal_calls (@draw_events Vis stds data_v).
Proof.
  intros Hfixed Hws Hstds Hok Hn Hfail.
  assert (H : wp (interpret C inputs labels noise_amount n_samples resize_to crop_to
                    visual save_path)
                (fun _ _ => False)
                (fun e' w' =>
                   e' = e /\
                   exists evs l noised,
                     trace w' = trace w0 ++ evs /\
                     predict_calls evs = [(ld, data_v, labels); (l, noised, Some fixed)] /\
                     normal_calls evs = normal_calls (@draw_events Vis stds data_v))
                w0).
  { apply interpret_labels_stage. rewrite Hfixed. unfold smooth_grad.
    apply wp_bind. eapply wp_load; [apply after_labels_data |].
    apply wp_bind, wp_lift. rewrite Hstds.
    apply wp_bind. eapply wp_load; [apply after_labels_data |].
    apply wp_bind, wp_alloc. apply wp_bind.
    destruct (Z.to_nat n_samples) as [| m] eqn:Hm; [lia |].
    cbn [for_range]. apply wp_bind. unfold sample_step. apply wp_bind.
    set (wl := with_heap _ w1).
    assert (Hld : heap wl !! ld = Some data_v).
    { subst wl. cbn. apply lookup_app_l_Some. by apply list_lookup_middle. }
    eapply wp_conseq; [apply (draw_noise_spec stds ld data_v bsz sshape wl Hld Hsh) | |].
    2: { by intros e' wn (_ & _ & Hno). }
    intros noise wn ((Hh & Hmo & Hg) & Htr & Hns & Hnw & Hne).
    apply wp_bind. eapply wp_load; [by rewrite Hh |].
    apply wp_bind, wp_lift. rewrite binary_ufunc_same_shape by done.
    apply wp_bind, wp_alloc. apply wp_bind. unfold call_predict_fn.
    apply wp_bind. eapply wp_load; [cbn; by apply list_lookup_middle |].
    apply wp_bind, wp_emit, wp_call_model.
    cbn [model with_heap with_trace trace]. rewrite Hmo.
    subst wl. cbn [model with_heap]. rewrite after_labels_model.
    set (noised := NdArray (shape data_v) _).
    specialize (Hfail noised eq_refl).
    destruct (predict_fn C s2 noised (Some fixed)) as [r s'].
    cbn in Hfail. subst r. split; [done |].
    eexists _, _, noised. cbn [trace with_model with_trace].
    rewrite Htr. cbn [trace with_heap]. rewrite after_labels_trace, <- !app_assoc.
    split; [done |].
    rewrite !predict_calls_app, !normal_calls_app, draw_events_predict_calls.
    cbn. split; [done |]. by rewrite app_nil_r. }
  unfold wp in H. destruct run as [[e' | avg] w']; [| done].
  destruct H as (-> & evs & l & noised & ?). by exists w', evs, l, noised.
Qed.

(** *** Batches without entries *)

(** X9. When the samples have no entry (some axis after the first has
    length 0), [np.max] has nothing to reduce: the call raises
    [ValueError] right after the call on the unperturbed batch,
    whatever [n_samples] is. *)
Theorem samples_without_entries_rejected (fixed : ndarray Z) :
  reshape1 (match labels with None => pl | Some l => l end) bsz = inr fixed ->
  size_of sshape = 0 ->
  exists w',
    run = (inl ValueError, w') /\
    trace w' = trace w0 ++ [PredictCall ld data_v labels] /\
    model w' = s2.
Proof.
  intros Hfixed Hz.
  assert (H : wp (interpret C inputs labels noise_amount n_samples resize_to crop_to
                    visual save_path)
                (fun _ _ => False)
                (fun e w' => e = ValueError /\
                             trace w' = trace w0 ++ [PredictCall ld data_v labels] /\
                             model w' = s2)
                w0).
  { apply interpret_labels_stage. rewrite Hfixed. unfold smooth_grad.
    apply wp_bind. eapply wp_load; [apply after_labels_data |].
    apply wp_bind, wp_lift. unfold compute_stds, reduce_trailing.
    rewrite Hsh. by rewrite decide_True by exact Hz. }
  unfold wp in H. destruct run as [[e | avg] w']; [| done].
  destruct H as (-> & Htr & Hm). by exists w'.
Qed.

(** X8. With an empty batch (no sample at all) and at least one sample to
    draw, there is nothing to concatenate: the call raises [ValueError]
    in the first iteration, before any draw and any call on a noised
    batch. *)
Theorem empty_batch_rejected (fixed : ndarray Z) :
  reshape1 (match labels with None => pl | Some l => l end) bsz = inr fixed ->
  bsz = 0 ->
  size_of sshape <> 0 ->
  (0 < n_samples)%Z ->
  exists w',
    run = (inl ValueError, w') /\
    trace w' = trace w0 ++ [PredictCall ld data_v labels] /\
    model w' = s2.
Proof.
  intros Hfixed Hb Hnz Hn.
  assert (H : wp (interpret C inputs labels noise_amount n_samples resize_to crop_to
                    visual save_path)
                (fun _ _ => False)
                (fun e w' => e = ValueError /\
                             trace w' = trace w0 ++ [PredictCall ld data_v labels] /\
                             model w' = s2)
                w0).
  { apply interpret_labels_stage. rewrite Hfixed. unfold smooth_grad.
    apply wp_bind. eapply wp_load; [apply after_labels_data |].
    apply wp_bind, wp_lift.
    assert (Hstds : compute_stds noise_amount data_v
                    = inr (NdArray [0] (Float32.mul (Float32.of_float64 noise_amount)
                                          <$> []))).
    { unfold compute_stds, reduce_trailing. rewrite Hsh, Hb.
      rewrite !decide_False by exact Hnz. reflexivity. }
    rewrite Hstds.
    apply wp_bind. eapply wp_load; [apply after_labels_data |].
    apply wp_bind, wp_alloc. apply wp_bind.
    destruct (Z.to_nat n_samples) as [| m] eqn:Hm; [lia |].
    cbn [for_range]. apply wp_bind. unfold sample_step. apply wp_bind.
    unfold draw_noise. apply wp_bind.
    eapply wp_load; [cbn; apply lookup_app_l_Some, list_lookup_middle; done |].
    apply wp_bind, wp_lift. unfold iterate, rows. rewrite Hsh, Hb. cbn [chunks fmap list_fmap].
    apply wp_bind. cbn [for_each]. apply wp_ret, wp_lift. by cbn. }
  unfold wp in H. destruct run as [[e | avg] w']; [| done].
  destruct H as (-> & Htr & Hm). by exists w'.
Qed.

End Run.

End Proofs.

End SmoothGradBehaviourProofs.

(** * Further behaviour: the properties on concrete inputs *)

Module SmoothGradNLPBehaviourWitness.
Import SmoothGradNLPInterpreter SmoothGradNLPSpec SmoothGradNLPBehaviour.
Import SmoothGradNLPBehaviourProofs.
Import SmoothGradExamples SmoothGradNLPExamples SmoothGradNLPBehaviourExamples.

Lemma tokenizer_values_batched_in_order_witness :
  let r := interpret embedding_model "a fine film" (Some fixed_tokenizer) None None
             f64_tenth 2 "word_embeddings" 128 true (fresh_world 0) in
  exists calls prints,
    trace r.2 = trace (fresh_world 0) ++ TokenizerCall "a fine film" 128
                  :: BuildCall "word_embeddings" :: calls ++ prints /\
    Forall (fun ev => exists l a,
              ev = PredictCall
                     (batched_tuple [("input_ids"%string, NdArray [3] [101; 7; 102]%Z);
                                     ("token_type_ids"%string, NdArray [3] [0; 0; 0]%Z)])
                     l a) calls /\
    (prints = [] \/ prints = visual_prints).
Proof.
  intros r.
  apply (tokenizer_values_batched_in_order embedding_model "a fine film" None f64_tenth
           2 "word_embeddings" 128 true (fresh_world 0) fixed_tokenizer
           [("input_ids"%string, NdArray [3] [101; 7; 102]%Z);
            ("token_type_ids"%string, NdArray [3] [0; 0; 0]%Z)] r.1 r.2).
  - reflexivity.
  - apply surjective_pairing.
Defined.

Lemma tokenizer_failure_stops_before_model_witness :
  interpret embedding_model "a fine film" (Some failing_tokenizer) None None
    f64_tenth 2 "word_embeddings" 128 false (fresh_world 0)
  = (inl (Raised "unknown vocabulary"),
     with_trace (trace (fresh_world 0) ++ [TokenizerCall "a fine film" 128])
       (fresh_world 0)).
Proof.
  apply (tokenizer_failure_stops_before_model embedding_model "a fine film" None
           f64_tenth 2 "word_embeddings" 128 false (fresh_world 0) failing_tokenizer
           (Raised "unknown vocabulary")).
  reflexivity.
Defined.

Lemma conversion_failure_stops_before_model_witness :
  interpret embedding_model "a fine film" None (Some scalar_fn) None
    f64_tenth 2 "word_embeddings" 128 false (fresh_world 0)
  = (inl TypeError,
     with_trace (trace (fresh_world 0) ++ [warning; TextToInputCall "a fine film"])
       (fresh_world 0)).
Proof.
  apply (conversion_failure_stops_before_model embedding_model "a fine film" None
           f64_tenth 2 "word_embeddings" 128 false (fresh_world 0) scalar_fn TypeError).
  right. exists (PyInt 7). split; reflexivity.
Defined.

Lemma noisy_failure_propagates_witness :
  let mi := PyArray <$> rows token_ids in
  let wa := (text_to_model_input "a fine film" None (Some token_ids_fn) 128
               (fresh_world 0)).2 in
  exists w',
    interpret flaky_model "a fine film" None (Some token_ids_fn) None
      f64_tenth 5 "word_embeddings" 128 false (fresh_world 0)
    = (inl (Raised "out of memory"), w') /\
    trace w' = trace wa ++ BuildCall "word_embeddings" :: PredictCall mi None None
                 :: replicate 2 (PredictCall mi (Some label7) (Some f64_tenth)).
Proof.
  intros mi wa.
  apply (noisy_failure_propagates flaky_model "a fine film" None f64_tenth 5
           "word_embeddings" 128 false (fresh_world 0) None (Some token_ids_fn)
           wa mi 0 1 tenth_gradient label7 tt proba1 1 (Raised "out of memory")).
  - reflexivity.
  - vm_compute. reflexivity.
  - reflexivity.
  - reflexivity.
  - vm_compute. lia.
  - exists batch, label7, tt, proba1, 2.
    split; [reflexivity |]. split; [reflexivity |].
    split; [vm_compute; reflexivity | reflexivity].
Defined.

Lemma nlp_nonpositive_samples_not_rejected_witness :
  let mi := PyArray <$> rows token_ids in
  let wa := (text_to_model_input "a fine film" None (Some token_ids_fn) 128
               (fresh_world 0)).2 in
  exists sg w',
    interpret embedding_model "a fine film" None (Some token_ids_fn) None
      f64_tenth 0 "word_embeddings" 128 true (fresh_world 0) = (inr sg, w') /\
    trace w' = trace wa ++ BuildCall "word_embeddings" :: PredictCall mi None None
                 :: visual_prints /\
    heap w' !! sg =
      Some (NdArray (shape tenth_gradient)
              (replicate (length (elems tenth_gradient))
                 (Float32.div pos_zero (Float32.of_int 0)))).
Proof.
  intros mi wa.
  apply (nlp_nonpositive_samples_not_rejected embedding_model "a fine film" None
           f64_tenth 0 "word_embeddings" 128 true (fresh_world 0) None
           (Some token_ids_fn) wa mi 0 1 tenth_gradient label7 tt proba1).
  - lia.
  - reflexivity.
  - vm_compute. reflexivity.
  - reflexivity.
  - reflexivity.
Defined.

Lemma nlp_raising_run_keeps_attributes_witness :
  let r := interpret flaky_model "a fine film" None (Some token_ids_fn) None
             f64_tenth 5 "word_embeddings" 128 false (fresh_world 0) in
  self_predicted_label r.2 = self_predicted_label (fresh_world 0) /\
  self_predicted_proba r.2 = self_predicted_proba (fresh_world 0).
Proof.
  intros r.
  apply (nlp_raising_run_keeps_attributes flaky_model "a fine film" None f64_tenth 5
           "word_embeddings" 128 false (fresh_world 0) None (Some token_ids_fn)
           (Raised "out of memory") r.2).
  vm_compute. reflexivity.
Defined.

End SmoothGradNLPBehaviourWitness.

Module SmoothGradBehaviourWitness.
Import SmoothGradInterpreter SmoothGradSpec SmoothGradBehaviour.
Import SmoothGradBehaviourProofs.
Import SmoothGradExamples SmoothGradBehaviourExamples.

Lemma echo_gradients_shaped (d : ndarray float) (fixed : ndarray Z) :
  gradients_shaped (echo_model d) d fixed.
Proof.
  intros s v Hs Hw. exists v, label7, proba1, (S s).
  split; [reflexivity |]. split; assumption.
Defined.

Lemma blind_gradients_shaped (d : ndarray float) (fixed : ndarray Z) :
  gradients_shaped (blind_model d) d fixed.
Proof.
  intros s v Hs Hw. exists v, label7, proba1, (S s).
  split; [reflexivity |]. split; assumption.
Defined.

Lemma blind_visualization_raises :
  visualization_raises (blind_model batch) image 1 true None [1; 2]
    (Raised "no display").
Proof.
  intros l w [sh el] Hl Hs. cbn in Hs. subst sh. eexists.
  unfold visualize, visualize_step, bind, lift, load, ret, raise. cbn.
  unfold bind. rewrite Hl. cbn. reflexivity.
Defined.

Lemma raising_run_keeps_labels_witness :
  let r := interpret (failing_gradient_model batch) tt None f64_tenth 2 224 None
             false None (fresh_world 0) in
  self_labels r.2 = self_labels (fresh_world 0).
Proof.
  intros r.
  apply (raising_run_keeps_labels (failing_gradient_model batch) tt None f64_tenth 2
           224 None false None (fresh_world 0) (Raised "out of memory") r.2).
  vm_compute. reflexivity.
Defined.

Lemma unsized_batch_rejected_witness :
  interpret (plain_model scalar_batch label7) tt None f64_tenth 2 224 None
    false None (fresh_world 0)
  = (inl TypeError, with_heap (heap (fresh_world 0) ++ [scalar_batch]) (fresh_world 0)).
Proof.
  apply (unsized_batch_rejected (plain_model scalar_batch label7) tt None f64_tenth 2
           224 None false None (fresh_world 0) image scalar_batch).
  - reflexivity.
  - reflexivity.
Defined.

Lemma attributes_after_baseline_witness :
  let r := interpret (failing_gradient_model batch) tt None f64_tenth 2 224 None
             false None (fresh_world 0) in
  self_predicted_label r.2 = Some label7 /\
  self_predicted_proba r.2 = Some proba1 /\
  forall avg, r.1 = inr avg -> self_labels r.2 = Some (NdArray [1] (elems label7)).
Proof.
  intros r.
  apply (attributes_after_baseline (failing_gradient_model batch) tt None f64_tenth 2
           224 None false None (fresh_world 0) image batch 1 [2] 0 1 batch label7 proba1
           eq_refl eq_refl eq_refl eq_refl r.1 r.2).
  apply surjective_pairing.
Defined.

Lemma explanation_is_mean_of_noisy_gradients_witness :
  exists avg w' evs noisy,
    interpret (echo_model batch) tt None f64_tenth 2 224 None false None (fresh_world 0)
    = (inr avg, w') /\
    trace w' = trace (fresh_world 0) ++ evs /\
    predict_calls evs = (0, batch, None) :: noisy /\
    length noisy = Z.to_nat 2 /\
    heap w' !! avg =
      Some (float32_mean [1; 2] 2
              (replay_on (echo_model batch) ((fun c => c.1.2) <$> noisy) label7 1).1 2).
Proof.
  apply (explanation_is_mean_of_noisy_gradients (echo_model batch) tt None f64_tenth 2
           224 None false None (fresh_world 0) image batch 1 [2] 0 1 batch label7 proba1
           eq_refl eq_refl eq_refl eq_refl label7
           (NdArray [1] [S754_finite false 13421773 (-26)])).
  - lia.
  - vm_compute. reflexivity.
  - reflexivity.
  - vm_compute. reflexivity.
  - split; [lia |]. split; [reflexivity |]. by repeat constructor.
  - apply echo_gradients_shaped.
  - apply SmoothGradWitness.no_visualization.
Defined.

Lemma visualization_calls_witness :
  let r := interpret (rendering_model batch) tt None f64_tenth 2 224 None true None
             (fresh_world_of 0) in
  exists a,
    heap r.2 !! 4 = Some a /\ shape a = [1; 2] /\
    exists paths vs,
      preprocess_save_path (rendering_model batch) None 1 = inr paths /\
      length vs = 1 /\
      (forall i v, vs !! i = Some v ->
         exists img g,
           samples_of image !! i = Some img /\ samples_of a !! i = Some g /\
           explanation_to_vis (rendering_model batch) img
             (abs_sum_first_axis [2] (elems g)) = inr v) /\
      show_calls (trace r.2) = show_calls (trace (fresh_world_of (V := ndarray float) 0))
                                 ++ vs /\
      save_calls (trace r.2) = save_calls (trace (fresh_world_of (V := ndarray float) 0))
                                 ++ saved paths vs.
Proof.
  intros r.
  apply (visualization_calls (rendering_model batch) tt None f64_tenth 2 224 None true
           None (fresh_world_of 0) image batch 1 [2] 0 1 batch label7 proba1
           eq_refl eq_refl eq_refl eq_refl label7 4 r.2).
  - vm_compute. reflexivity.
  - intros c rest [= <- _]. left. lia.
  - vm_compute. reflexivity.
Defined.

Lemma visualization_failure_loses_explanation_witness :
  exists w' evs noisy,
    interpret (blind_model batch) tt None f64_tenth 2 224 None true None (fresh_world 0)
    = (inl (Raised "no display"), w') /\
    trace w' = trace (fresh_world 0) ++ evs /\
    predict_calls evs = (0, batch, None) :: noisy /\
    length noisy = Z.to_nat 2.
Proof.
  apply (visualization_failure_loses_explanation (blind_model batch) tt None f64_tenth 2
           224 None true None (fresh_world 0) image batch 1 [2] 0 1 batch label7 proba1
           eq_refl eq_refl eq_refl eq_refl label7
           (NdArray [1] [S754_finite false 13421773 (-26)]) (Raised "no display")).
  - vm_compute. reflexivity.
  - reflexivity.
  - vm_compute. reflexivity.
  - split; [lia |]. split; [reflexivity |]. by repeat constructor.
  - apply blind_gradients_shaped.
  - apply blind_visualization_raises.
Defined.

Lemma gradient_failure_propagates_witness :
  exists w' evs l noised,
    interpret (failing_gradient_model batch) tt None f64_tenth 2 224 None false None
      (fresh_world 0)
    = (inl (Raised "out of memory"), w') /\
    trace w' = trace (fresh_world 0) ++ evs /\
    predict_calls evs = [(0, batch, None); (l, noised, Some label7)] /\
    normal_calls evs
    = normal_calls (@draw_events unit (NdArray [1] [S754_finite false 13421773 (-26)])
                      batch).
Proof.
  apply (gradient_failure_propagates (failing_gradient_model batch) tt None f64_tenth 2
           224 None false None (fresh_world 0) image batch 1 [2] 0 1 batch label7 proba1
           eq_refl eq_refl eq_refl eq_refl label7
           (NdArray [1] [S754_finite false 13421773 (-26)]) (Raised "out of memory")).
  - vm_compute. reflexivity.
  - reflexivity.
  - vm_compute. reflexivity.
  - split; [lia |]. split; [reflexivity |]. by repeat constructor.
  - lia.
  - intros v Hv. reflexivity.
Defined.

Lemma samples_without_entries_rejected_witness :
  exists w',
    interpret (plain_model hollow_batch label7) tt None f64_tenth 0 224 None false None
      (fresh_world 0)
    = (inl ValueError, w') /\
    trace w' = trace (fresh_world 0) ++ [PredictCall 0 hollow_batch None] /\
    model w' = 1.
Proof.
  apply (samples_without_entries_rejected (plain_model hollow_batch label7) tt None
           f64_tenth 0 224 None false None (fresh_world 0) image hollow_batch 1 [0]
           0 1 hollow_batch label7 proba1 eq_refl eq_refl eq_refl eq_refl label7).
  - vm_compute. reflexivity.
  - reflexivity.
Defined.

Lemma empty_batch_rejected_witness :
  exists w',
    interpret (plain_model empty_batch no_labels) tt None f64_tenth 2 224 None false None
      (fresh_world 0)
    = (inl ValueError, w') /\
    trace w' = trace (fresh_world 0) ++ [PredictCall 0 empty_batch None] /\
    model w' = 1.
Proof.
  apply (empty_batch_rejected (plain_model empty_batch no_labels) tt None
           f64_tenth 2 224 None false None (fresh_world 0) image empty_batch 0 [2]
           0 1 empty_batch no_labels proba1 eq_refl eq_refl eq_refl eq_refl no_labels).
  - vm_compute. reflexivity.
  - reflexivity.
  - discriminate.
  - lia.
Defined.

End SmoothGradBehaviourWitness.
